(** * restgen: the schema compiler and the regeneration merge engine

    A shallow embedding of [internal/schema], [internal/parser] and
    [internal/merger] of borderlesshq/restgen, with the properties of the
    specification stated and settled over it.

    Conventions.
    - Go strings are byte strings: [string] (a list of 8-bit [ascii]).
      Loops that range over runes are modelled on bytes; the characters the
      code tests are ASCII, so both agree on UTF-8 text.  (On a byte that is
      not part of a UTF-8 sequence Go's [range] yields U+FFFD; such texts
      are outside the model.)
    - [strings.Index] and friends return [option nat] ([None] for -1).
    - A Go map is a [gmap]; the order in which [range] visits a map is not
      specified by Go and is supplied by the class [GoMapRange].
    - [regexp], [path/filepath], [os.ReadFile] and [go/parser] are libraries
      the program calls.  The module [regexp] implements the fragment of
      Go's regular expressions that the program's patterns use, with Go's
      leftmost-first semantics; [path/filepath] is the class [FilePath],
      with the Unix instance [unixFilePath]; the files an SDL parse reads
      are a finite map from paths to contents; [go/parser] is the class
      [GoParser]. *)

From Stdlib Require Import Ascii String.
From stdpp Require Import base option list gmap strings ssreflect.

#[local] Set Warnings "-rewrite-rw".

Local Open Scope stdpp_scope.

(** ** Characters with no printable literal *)

Definition nl : string := String "010"%char EmptyString.
Definition dq : string := String "034"%char EmptyString.
Definition tab : string := String "009"%char EmptyString.

(** ** Go's [strings] package on byte strings *)

Module strings.

Fixpoint HasPrefix (s p : string) {struct p} : bool :=
  match p with
  | EmptyString => true
  | String c p' =>
      match s with
      | EmptyString => false
      | String d s' => if Ascii.eqb c d then HasPrefix s' p' else false
      end
  end.

Fixpoint drop (n : nat) (s : string) : string :=
  match n with
  | 0 => s
  | S n' => match s with EmptyString => EmptyString | String _ s' => drop n' s' end
  end.

Fixpoint take (n : nat) (s : string) : string :=
  match n with
  | 0 => EmptyString
  | S n' => match s with EmptyString => EmptyString | String c s' => String c (take n' s') end
  end.

(** [s[a:b]] for [a <= b <= len(s)], the only way the program slices. *)
Definition slice (s : string) (a b : nat) : string := take (b - a) (drop a s).

Fixpoint Index (s sub : string) : option nat :=
  if HasPrefix s sub then Some 0
  else match s with
       | EmptyString => None
       | String _ s' => S <$> Index s' sub
       end.

Fixpoint LastIndex (s sub : string) : option nat :=
  match s with
  | EmptyString => if HasPrefix s sub then Some 0 else None
  | String _ s' =>
      match LastIndex s' sub with
      | Some i => Some (S i)
      | None => if HasPrefix s sub then Some 0 else None
      end
  end.

Definition Contains (s sub : string) : bool := bool_decide (is_Some (Index s sub)).

Definition HasSuffix (s suf : string) : bool :=
  bool_decide (drop (String.length s - String.length suf) s = suf
               ∧ String.length suf ≤ String.length s).

Definition TrimPrefix (s p : string) : string :=
  if HasPrefix s p then drop (String.length p) s else s.

Definition TrimSuffix (s suf : string) : string :=
  if HasSuffix s suf then take (String.length s - String.length suf) s else s.

(** White space of [strings.TrimSpace] on ASCII text. *)
Definition isSpace (c : ascii) : bool :=
  match c with
  | "009" | "010" | "011" | "012" | "013" | " " => true
  | _ => false
  end%char.

Fixpoint TrimLeftSpace (s : string) : string :=
  match s with
  | EmptyString => EmptyString
  | String c s' => if isSpace c then TrimLeftSpace s' else s
  end.

Fixpoint TrimRightSpace (s : string) : string :=
  match s with
  | EmptyString => EmptyString
  | String c s' =>
      match TrimRightSpace s' with
      | EmptyString => if isSpace c then EmptyString else String c EmptyString
      | t => String c t
      end
  end.

Definition TrimSpace (s : string) : string := TrimRightSpace (TrimLeftSpace s).

(** [strings.Replace(s, old, new, 1)]. *)
Fixpoint ReplaceFirst (s old new : string) : string :=
  if HasPrefix s old then new +:+ drop (String.length old) s
  else match s with
       | EmptyString => EmptyString
       | String c s' => String c (ReplaceFirst s' old new)
       end.

(** [strings.ReplaceAll(s, old, new)] for a one-byte [old]. *)
Fixpoint ReplaceAllChar (s : string) (old : ascii) (new : string) : string :=
  match s with
  | EmptyString => EmptyString
  | String c s' =>
      (if Ascii.eqb c old then new else String c EmptyString)
        +:+ ReplaceAllChar s' old new
  end.

(** [strings.Split(s, sep)] for a one-byte [sep]. *)
Fixpoint SplitChar (s : string) (sep : ascii) : list string :=
  match s with
  | EmptyString => [EmptyString]
  | String c s' =>
      if Ascii.eqb c sep then EmptyString :: SplitChar s' sep
      else match SplitChar s' sep with
           | [] => [String c EmptyString]
           | p :: ps => String c p :: ps
           end
  end.

Definition upperChar (c : ascii) : ascii :=
  let n := nat_of_ascii c in
  if (97 <=? n)%nat && (n <=? 122)%nat then ascii_of_nat (n - 32) else c.

(** [strings.ToUpper] on ASCII text. *)
Fixpoint ToUpper (s : string) : string :=
  match s with
  | EmptyString => EmptyString
  | String c s' => String (upperChar c) (ToUpper s')
  end.

Fixpoint Join (l : list string) (sep : string) : string :=
  match l with
  | [] => EmptyString
  | [x] => x
  | x :: l' => x +:+ sep +:+ Join l' sep
  end.

(** [strings.Trim(s, cutset)] for a one-byte [cutset]. *)
Fixpoint TrimLeftChar (s : string) (c : ascii) : string :=
  match s with
  | EmptyString => EmptyString
  | String d s' => if Ascii.eqb d c then TrimLeftChar s' c else s
  end.

Fixpoint TrimRightChar (s : string) (c : ascii) : string :=
  match s with
  | EmptyString => EmptyString
  | String d s' =>
      match TrimRightChar s' c with
      | EmptyString => if Ascii.eqb d c then EmptyString else String d EmptyString
      | t => String d t
      end
  end.

Definition TrimChar (s : string) (c : ascii) : string := TrimRightChar (TrimLeftChar s c) c.

End strings.

(** ** Go's [regexp] package: leftmost-first matching

    The patterns of the program use literals, character classes, greedy
    repetition of one character class, optional items, alternation and
    capture groups.  [run] is the backtracking search whose first answer
    is, by the package's documentation, the match the package returns. *)

Module regexp.

Inductive regex : Type :=
| Lit (s : string)
| Cls (p : ascii → bool)
| Star (p : ascii → bool)
| Plus (p : ascii → bool)
| Opt (r : regex)
| Alt (r1 r2 : regex)
| Seq (r1 r2 : regex)
| Group (i : nat) (r : regex).

(** Capture [i] spans bytes [a, b) of the text. *)
Definition caps := list (nat * (nat * nat)).
Definition cont := nat → string → caps → option (nat * caps).

Fixpoint lit (l : string) (pos : nat) (s : string) (cs : caps) (k : cont)
  : option (nat * caps) :=
  match l with
  | EmptyString => k pos s cs
  | String c l' =>
      match s with
      | EmptyString => None
      | String d s' => if Ascii.eqb c d then lit l' (S pos) s' cs k else None
      end
  end.

Fixpoint star (p : ascii → bool) (pos : nat) (s : string) (cs : caps) (k : cont)
  : option (nat * caps) :=
  match s with
  | EmptyString => k pos s cs
  | String c s' =>
      if p c then
        match star p (S pos) s' cs k with
        | Some r => Some r
        | None => k pos s cs
        end
      else k pos s cs
  end.

Fixpoint run (r : regex) (pos : nat) (s : string) (cs : caps) (k : cont)
  : option (nat * caps) :=
  match r with
  | Lit l => lit l pos s cs k
  | Cls p =>
      match s with
      | EmptyString => None
      | String c s' => if p c then k (S pos) s' cs else None
      end
  | Star p => star p pos s cs k
  | Plus p =>
      match s with
      | EmptyString => None
      | String c s' => if p c then star p (S pos) s' cs k else None
      end
  | Opt r1 =>
      match run r1 pos s cs k with
      | Some x => Some x
      | None => k pos s cs
      end
  | Alt r1 r2 =>
      match run r1 pos s cs k with
      | Some x => Some x
      | None => run r2 pos s cs k
      end
  | Seq r1 r2 => run r1 pos s cs (λ pos' s' cs', run r2 pos' s' cs' k)
  | Group i r1 => run r1 pos s cs (λ pos' s' cs', k pos' s' ((i, (pos, pos')) :: cs'))
  end.

(** A match: where it starts, where it ends, and its captures. *)
Record match_ := { m_start : nat; m_end : nat; m_caps : caps }.

Definition matchAt (r : regex) (pos : nat) (s : string) : option match_ :=
  match run r pos s [] (λ e _ cs, Some (e, cs)) with
  | Some (e, cs) => Some {| m_start := pos; m_end := e; m_caps := cs |}
  | None => None
  end.

(** The leftmost match at or after [pos]; [s] is the text from [pos] on. *)
Fixpoint findFrom (r : regex) (pos : nat) (s : string) : option match_ :=
  match matchAt r pos s with
  | Some m => Some m
  | None =>
      match s with
      | EmptyString => None
      | String _ s' => findFrom r (S pos) s'
      end
  end.

(** All successive non-overlapping matches.  [skip] counts the bytes of
    the match in progress that are still to be passed over. *)
Fixpoint findAllFrom (r : regex) (pos skip : nat) (s : string) : list match_ :=
  match skip with
  | S skip' =>
      match s with
      | EmptyString => []
      | String _ s' => findAllFrom r (S pos) skip' s'
      end
  | 0 =>
      match matchAt r pos s with
      | Some m =>
          m :: match s with
               | EmptyString => []
               | String _ s' => findAllFrom r (S pos) (m_end m - pos - 1) s'
               end
      | None =>
          match s with
          | EmptyString => []
          | String _ s' => findAllFrom r (S pos) 0 s'
          end
      end
  end.

Fixpoint capSpan (cs : caps) (i : nat) : option (nat * nat) :=
  match cs with
  | [] => None
  | (j, sp) :: cs' => if Nat.eqb j i then Some sp else capSpan cs' i
  end.

(** The text of capture [i] of a match in [s]; a group that took no part
    in the match yields the empty string. *)
Definition submatch (s : string) (m : match_) (i : nat) : string :=
  match capSpan (m_caps m) i with
  | Some (a, b) => strings.slice s a b
  | None => EmptyString
  end.

(** [FindStringIndex], [FindStringSubmatch]: the leftmost match. *)
Definition Find (r : regex) (s : string) : option match_ := findFrom r 0 s.

(** [FindAllStringSubmatch(s, -1)], [FindAllStringSubmatchIndex(s, -1)]. *)
Definition FindAll (r : regex) (s : string) : list match_ := findAllFrom r 0 0 s.

(** Character classes. *)
Definition notChar (c : ascii) : ascii → bool := λ d, negb (Ascii.eqb c d).

(** [\s] is [[\t\n\f\r ]]. *)
Definition space (c : ascii) : bool :=
  match c with
  | "009" | "010" | "012" | "013" | " " => true
  | _ => false
  end%char.

(** [\w] is [[0-9A-Za-z_]]. *)
Definition word (c : ascii) : bool :=
  let n := nat_of_ascii c in
  ((48 <=? n)%nat && (n <=? 57)%nat) || ((65 <=? n)%nat && (n <=? 90)%nat)
  || ((97 <=? n)%nat && (n <=? 122)%nat) || (n =? 95)%nat.

Definition seq (rs : list regex) : regex := foldr Seq (Lit EmptyString) rs.

End regexp.

(** ** Go errors and results *)

Inductive error : Type :=
| ValidationError (Call Message : string)   (* schema.ValidationError *)
| Errorf (msg : string)                     (* fmt.Errorf without %w *)
| Wrap (context : string) (e : error)       (* fmt.Errorf("context: %w", e) *)
| PathError (op path : string).             (* what os.ReadFile returns *)

Inductive result (A : Type) : Type :=
| Ok (a : A)
| Err (e : error).
Arguments Ok {A} a.
Arguments Err {A} e.

Definition isErr {A} (r : result A) : bool :=
  match r with Ok _ => false | Err _ => true end.

(** ** The order of [range] over a map

    Go leaves it unspecified; every property below holds for every order. *)

Class GoMapRange := {
  rangeSet : gset string → list string;
  rangeSet_perm : ∀ X, rangeSet X ≡ₚ elements X;
  rangeMap : gmap string string → list (string * string);
  rangeMap_perm : ∀ m, rangeMap m ≡ₚ map_to_list m
}.

(** ** Package [schema] *)

Module schema.

Record Arg := {
  ArgName : string;
  ArgType : string;
  ArgRequired : bool;
  ArgIsList : bool
}.

Record Field := {
  FieldName : string;
  FieldType : string;
  FieldRequired : bool;
  FieldIsList : bool
}.

Record TypeDef := { TypeName : string; TypeFields : list Field }.
Record InputDef := { InputName : string; InputFields : list Field }.
Record EnumDef := { EnumName : string; EnumValues : list string }.

Record Include := {
  IncPath : string;
  IncNamespace : string;
  IncModels : string
}.

Record Call := {
  CallName : string;
  Method : string;
  Path : string;
  Args : list Arg;
  ReturnType : string;
  ReturnRequired : bool;
  ReturnIsList : bool
}.

Record Schema := {
  FileName : string;
  Base : string;
  Models : string;
  Includes : list Include;
  Calls : list Call;
  Types : list TypeDef;
  Inputs : list InputDef;
  Enums : list EnumDef
}.

(** The loop of [PathParams]: [params], [inParam] and [current] after
    the characters of [path]. *)
Fixpoint pathParamsLoop (path : string) (params : list string)
    (inParam : bool) (current : string) : list string :=
  match path with
  | EmptyString => params
  | String ch path' =>
      if Ascii.eqb ch "{" then pathParamsLoop path' params true EmptyString
      else if Ascii.eqb ch "}" then
        pathParamsLoop path'
          (if bool_decide (current ≠ EmptyString) then params ++ [current] else params)
          false current
      else if inParam then
        pathParamsLoop path' params inParam (current +:+ String ch EmptyString)
      else pathParamsLoop path' params inParam current
  end.

Definition PathParams (c : Call) : list string :=
  pathParamsLoop (Path c) [] false EmptyString.

Definition PathParamSet (c : Call) : gset string := list_to_set (PathParams c).

Definition IsBodyMethod (c : Call) : bool :=
  bool_decide (Method c = "POST" ∨ Method c = "PUT" ∨ Method c = "PATCH").

Definition BodyArg (c : Call) : option Arg :=
  if negb (IsBodyMethod c) then None
  else
    let pathParams := PathParamSet c in
    head (filter (λ a, ArgName a ∉ pathParams) (Args c)).

Definition QueryArgs (c : Call) : list Arg :=
  if IsBodyMethod c then []
  else
    let pathParams := PathParamSet c in
    filter (λ a, ArgName a ∉ pathParams) (Args c).

Definition PathArgNames (c : Call) : list string :=
  let pathParams := PathParamSet c in
  ArgName <$> filter (λ a, ArgName a ∈ pathParams) (Args c).

(** The second loop of [Validate]: the first path parameter, in the order
    of the range, that no argument is named after. *)
Fixpoint unmatchedParam (params : list string) (args : list Arg) : option string :=
  match params with
  | [] => None
  | param :: params' =>
      if existsb (λ a, bool_decide (ArgName a = param)) args
      then unmatchedParam params' args
      else Some param
  end.

Definition Validate `{GoMapRange} (c : Call) : option error :=
  let pathParams := PathParamSet c in
  let nonPathArgs :=
    if IsBodyMethod c
    then ArgName <$> filter (λ a, ArgName a ∉ pathParams) (Args c)
    else [] in
  if bool_decide (1 < length nonPathArgs) then
    Some (ValidationError (CallName c)
      ("body methods (POST/PUT/PATCH) can have at most one non-path argument as body, found: "
         +:+ strings.Join nonPathArgs ", "))
  else
    match unmatchedParam (rangeSet pathParams) (Args c) with
    | Some param =>
        Some (ValidationError (CallName c)
          ("path parameter {" +:+ param +:+ "} has no matching argument"))
    | None => None
    end.

(** [string(b)] for a byte [b]: the UTF-8 encoding of the code point [b]. *)
Definition byteToString (b : nat) : string :=
  if (b <? 128)%nat then String (ascii_of_nat b) EmptyString
  else String (ascii_of_nat (192 + b / 64))
         (String (ascii_of_nat (128 + b mod 64)) EmptyString).

(** [c.Name[0]-32] is computed on bytes, so it wraps around below 32. *)
Definition HandlerName (c : Call) : string :=
  match CallName c with
  | EmptyString => EmptyString
  | String b rest => byteToString ((nat_of_ascii b + 256 - 32) mod 256) +:+ rest
  end.

Definition ParseTypeRef (typeRef : string) : string * string :=
  match strings.Index typeRef "." with
  | Some idx => (strings.take idx typeRef, strings.drop (idx + 1) typeRef)
  | None => (EmptyString, typeRef)
  end.

Definition IsNamespaced (typeRef : string) : bool := strings.Contains typeRef ".".

End schema.

(** ** Go's [path/filepath] package

    The parser uses five of its functions.  [unixFilePath] is the package
    on a Unix system whose working directory is [cwd]. *)

Class FilePath := {
  Abs : string → result string;
  IsAbs : string → bool;
  Dir : string → string;
  PathBase : string → string;
  PathJoin : string → string → string
}.

Module filepath.

Definition cleanStep (rooted : bool) (out : list string) (c : string) : list string :=
  if bool_decide (c = EmptyString ∨ c = ".") then out
  else if bool_decide (c = "..") then
    match out with
    | top :: rest => if bool_decide (top = "..") then c :: out else rest
    | [] => if rooted then [] else [c]
    end
  else c :: out.

Definition Clean (path : string) : string :=
  let rooted := strings.HasPrefix path "/" in
  let out := foldl (cleanStep rooted) [] (strings.SplitChar path "/") in
  let body := strings.Join (rev out) "/" in
  if rooted then "/" +:+ body
  else if bool_decide (body = EmptyString) then "." else body.

Definition Join (a b : string) : string :=
  if bool_decide (a ≠ EmptyString) then Clean (a +:+ "/" +:+ b)
  else if bool_decide (b ≠ EmptyString) then Clean b
  else EmptyString.

Definition IsAbs (path : string) : bool := strings.HasPrefix path "/".

Definition Dir (path : string) : string :=
  match strings.LastIndex path "/" with
  | Some i => Clean (strings.take (S i) path)
  | None => Clean EmptyString
  end.

Definition Base (path : string) : string :=
  if bool_decide (path = EmptyString) then "."
  else
    match last (filter (λ c, c ≠ EmptyString) (strings.SplitChar path "/")) with
    | Some c => c
    | None => "/"
    end.

Definition Abs (cwd path : string) : result string :=
  if IsAbs path then Ok (Clean path) else Ok (Join cwd path).

End filepath.

Definition unixFilePath (cwd : string) : FilePath := {|
  Abs := filepath.Abs cwd;
  IsAbs := filepath.IsAbs;
  Dir := filepath.Dir;
  PathBase := filepath.Base;
  PathJoin := filepath.Join
|}.

(** ** Package [parser] *)

Module parser.
Import schema regexp.

Record Parser := {
  baseDir : string;
  cache : gmap string Schema
}.

Definition New : Parser := {| baseDir := EmptyString; cache := ∅ |}.

(** The files [os.ReadFile] can read, by path. *)
Definition FS := gmap string string.

(** [#\s*@name\s*\(\s*\x22([^\x22]+)\x22\s*\)], where [\x22] is the
    double quote. *)
Definition directiveRe (name : string) : regex :=
  seq [Lit "#"; Star space; Lit ("@" +:+ name); Star space; Lit "("; Star space;
       Lit dq; Group 1 (Plus (notChar "034")); Lit dq; Star space; Lit ")"].

Definition baseRe : regex := directiveRe "base".
Definition modelsRe : regex := directiveRe "models".
Definition includeRe : regex := directiveRe "include".

(** [(type|input)\s+(\w+)\s*\{] *)
Definition blockRe : regex :=
  seq [Group 1 (Alt (Lit "type") (Lit "input")); Plus space; Group 2 (Plus word);
       Star space; Lit "{"].

Definition wordOrDot (c : ascii) : bool := word c || Ascii.eqb c ".".

(** The pattern of a return type: [\[?[\w.]+!?\]?!?]. *)
Definition returnTypeRe : regex :=
  seq [Opt (Lit "["); Plus wordOrDot; Opt (Lit "!"); Opt (Lit "]"); Opt (Lit "!")].

(** The pattern of a call, its items separated by blanks for reading:
    [(\w+) \s* \( ([^)] * ) \) \s* : \s* (\[? [\w.]+ !? \]? !?) \s*
     @(get|post|put|patch|delete) \s* \( \s* \x22 ([^\x22]+) \x22 \s* \)]. *)
Definition callRe : regex :=
  seq [Group 1 (Plus word); Star space; Lit "("; Group 2 (Star (notChar ")")); Lit ")";
       Star space; Lit ":"; Star space;
       Group 3 returnTypeRe;
       Star space; Lit "@";
       Group 4 (Alt (Lit "get") (Alt (Lit "post") (Alt (Lit "put") (Alt (Lit "patch") (Lit "delete")))));
       Star space; Lit "("; Star space; Lit dq; Group 5 (Plus (notChar "034")); Lit dq;
       Star space; Lit ")"].

(** The brace-matching loop shared by [extractBlocks], [extractMethodsOrdered]
    and [extractHandlerStruct]: [s] is the text from index [i] on, [depth]
    the number of braces open; the result is the index of the brace that
    closes the last of them, if the text has one. *)
Fixpoint closingBrace (s : string) (depth : nat) (i : nat) : option nat :=
  match s with
  | EmptyString => None
  | String ch s' =>
      if Ascii.eqb ch "{" then closingBrace s' (S depth) (S i)
      else if Ascii.eqb ch "}" then
        match depth with
        | 0 | 1 => Some i
        | S d => closingBrace s' d (S i)
        end
      else closingBrace s' depth (S i)
  end.

Record block := { kind : string; name : string; body : string }.

Definition extractBlocks (content : string) : list block :=
  (λ m,
     let bodyStart := m_end m in
     let bodyEnd :=
       match closingBrace (strings.drop bodyStart content) 1 bodyStart with
       | Some i => i
       | None => bodyStart
       end in
     {| kind := submatch content m 1;
        name := submatch content m 2;
        body := strings.slice content bodyStart bodyEnd |})
  <$> FindAll blockRe content.

(** The loop of [splitArgs]. *)
Fixpoint splitArgsLoop (s : string) (depth : Z) (current : string)
    (parts : list string) : list string :=
  match s with
  | EmptyString =>
      if bool_decide (0 < String.length current) then parts ++ [current] else parts
  | String ch s' =>
      if Ascii.eqb ch "[" then
        splitArgsLoop s' (depth + 1) (current +:+ String ch EmptyString) parts
      else if Ascii.eqb ch "]" then
        splitArgsLoop s' (depth - 1) (current +:+ String ch EmptyString) parts
      else if Ascii.eqb ch "," then
        if bool_decide (depth = 0%Z)
        then splitArgsLoop s' depth EmptyString (parts ++ [current])
        else splitArgsLoop s' depth (current +:+ String ch EmptyString) parts
      else splitArgsLoop s' depth (current +:+ String ch EmptyString) parts
  end.

Definition splitArgs (s : string) : list string := splitArgsLoop s 0 EmptyString [].

(** The three steps [parseArgs], [parseFields] and [parseCalls] each apply
    to a type reference: the outer [!], the brackets, the inner [!].
    The result is the bare type name, the required flag and the list flag. *)
Definition parseTypeStr (typeStr : string) : string * bool * bool :=
  let required := strings.HasSuffix typeStr "!" in
  let typeStr := if required then strings.TrimSuffix typeStr "!" else typeStr in
  let isList := strings.HasPrefix typeStr "[" && strings.HasSuffix typeStr "]" in
  let typeStr :=
    if isList then strings.slice typeStr 1 (String.length typeStr - 1) else typeStr in
  (strings.TrimSuffix typeStr "!", required, isList).

Fixpoint parseArgsLoop (parts : list string) (args : list Arg) : result (list Arg) :=
  match parts with
  | [] => Ok args
  | part :: parts' =>
      let part := strings.TrimSpace part in
      if bool_decide (part = EmptyString) then parseArgsLoop parts' args
      else
        match strings.Index part ":" with
        | None => Err (Errorf ("invalid arg: " +:+ part))
        | Some colonIdx =>
            let name := strings.TrimSpace (strings.take colonIdx part) in
            let typeStr := strings.TrimSpace (strings.drop (S colonIdx) part) in
            let '(ty, required, isList) := parseTypeStr typeStr in
            parseArgsLoop parts'
              (args ++ [{| ArgName := name; ArgType := ty;
                           ArgRequired := required; ArgIsList := isList |}])
        end
  end.

Definition parseArgs (argsStr : string) : result (list Arg) :=
  if bool_decide (strings.TrimSpace argsStr = EmptyString) then Ok []
  else parseArgsLoop (splitArgs argsStr) [].

Fixpoint parseFieldsLoop (lines : list string) (fields : list Field) : list Field :=
  match lines with
  | [] => fields
  | line :: lines' =>
      let line := strings.TrimSpace line in
      if bool_decide (line = EmptyString) || strings.HasPrefix line "#"
      then parseFieldsLoop lines' fields
      else
        match strings.Index line ":" with
        | None => parseFieldsLoop lines' fields
        | Some colonIdx =>
            let name := strings.TrimSpace (strings.take colonIdx line) in
            let typeStr := strings.TrimSpace (strings.drop (S colonIdx) line) in
            let '(ty, required, isList) := parseTypeStr typeStr in
            parseFieldsLoop lines'
              (fields ++ [{| FieldName := name; FieldType := ty;
                             FieldRequired := required; FieldIsList := isList |}])
        end
  end.

Definition parseFields (body : string) : result (list Field) :=
  Ok (parseFieldsLoop (strings.SplitChar body "010") []).

Definition parseTypeDef (name body : string) : result TypeDef :=
  match parseFields body with
  | Err e => Err e
  | Ok fields => Ok {| TypeName := name; TypeFields := fields |}
  end.

Definition parseInputDef (name body : string) : result InputDef :=
  match parseFields body with
  | Err e => Err e
  | Ok fields => Ok {| InputName := name; InputFields := fields |}
  end.


Section WithLibraries.
Context `{GoMapRange} `{FilePath}.

(** The body of the loop of [parseCalls] for one match [m] of [callRe]. *)
Definition parseCall (body : string) (m : match_) : result Call :=
  let name := submatch body m 1 in
  let argsStr := submatch body m 2 in
  let returnTypeRaw := submatch body m 3 in
  let method := strings.ToUpper (submatch body m 4) in
  let path := submatch body m 5 in
  match parseArgs argsStr with
  | Err e => Err (Wrap ("parsing args for " +:+ name) e)
  | Ok args =>
      let '(returnType, returnRequired, returnIsList) := parseTypeStr returnTypeRaw in
      let call := {| CallName := name; Method := method; Path := path; Args := args;
                     ReturnType := returnType; ReturnRequired := returnRequired;
                     ReturnIsList := returnIsList |} in
      match Validate call with
      | Some e => Err e
      | None => Ok call
      end
  end.

Fixpoint parseCallsLoop (body : string) (matches : list match_) (calls : list Call)
  : result (list Call) :=
  match matches with
  | [] => Ok calls
  | m :: matches' =>
      match parseCall body m with
      | Err e => Err e
      | Ok call => parseCallsLoop body matches' (calls ++ [call])
      end
  end.

Definition parseCalls (body : string) : result (list Call) :=
  parseCallsLoop body (FindAll callRe body) [].

(** The loop of [Parse] over the blocks. *)
Fixpoint parseBlocks (blocks : list block) (s : Schema) : result Schema :=
  match blocks with
  | [] => Ok s
  | b :: blocks' =>
      if bool_decide (name b = "Calls") then
        match parseCalls (body b) with
        | Err e => Err (Wrap "parsing Calls block" e)
        | Ok calls =>
            parseBlocks blocks'
              {| FileName := FileName s; Base := Base s; Models := Models s;
                 Includes := Includes s; Calls := calls; Types := Types s;
                 Inputs := Inputs s; Enums := Enums s |}
        end
      else if bool_decide (kind b = "type") then
        match parseTypeDef (name b) (body b) with
        | Err e => Err (Wrap ("parsing type " +:+ name b) e)
        | Ok typeDef =>
            parseBlocks blocks'
              {| FileName := FileName s; Base := Base s; Models := Models s;
                 Includes := Includes s; Calls := Calls s; Types := Types s ++ [typeDef];
                 Inputs := Inputs s; Enums := Enums s |}
        end
      else if bool_decide (kind b = "input") then
        match parseInputDef (name b) (body b) with
        | Err e => Err (Wrap ("parsing input " +:+ name b) e)
        | Ok inputDef =>
            parseBlocks blocks'
              {| FileName := FileName s; Base := Base s; Models := Models s;
                 Includes := Includes s; Calls := Calls s; Types := Types s;
                 Inputs := Inputs s ++ [inputDef]; Enums := Enums s |}
        end
      else parseBlocks blocks' s
  end.

(** [ParseFile], [Parse] and [parseInclude] call each other.  [Parse] and
    [parseInclude] take the [ParseFile] they call as [parseFile]; a run
    is a parser state and a result, or [None] when the nesting of
    includes exceeds the fuel of [ParseFile]. *)
Definition run (A : Type) : Type := option (Parser * result A).

Definition parseInclude (parseFile : Parser → string → run Schema)
    (p : Parser) (includePath : string) : run Include :=
  let fullPath :=
    if negb (IsAbs includePath) && bool_decide (baseDir p ≠ EmptyString)
    then PathJoin (baseDir p) includePath
    else includePath in
  match parseFile p fullPath with
  | None => None
  | Some (p, Err e) => Some (p, Err e)
  | Some (p, Ok includedSchema) =>
      let namespace := strings.TrimSuffix (PathBase includePath) ".sdl" in
      let namespace := strings.ReplaceAllChar namespace "-" "_" in
      Some (p, Ok {| IncPath := includePath; IncNamespace := namespace;
                     IncModels := Models includedSchema |})
  end.

(** The loop of [Parse] over the include directives. *)
Fixpoint parseIncludes (parseFile : Parser → string → run Schema)
    (p : Parser) (includePaths : list string) (includes : list Include)
  : run (list Include) :=
  match includePaths with
  | [] => Some (p, Ok includes)
  | includePath :: rest =>
      match parseInclude parseFile p includePath with
      | None => None
      | Some (p, Err e) => Some (p, Err (Wrap ("parsing include " +:+ includePath) e))
      | Some (p, Ok inc) => parseIncludes parseFile p rest (includes ++ [inc])
      end
  end.

Definition Parse (parseFile : Parser → string → run Schema)
    (p : Parser) (content : string) : run Schema :=
  let base :=
    match Find baseRe content with
    | Some m => submatch content m 1
    | None => EmptyString
    end in
  let models :=
    match Find modelsRe content with
    | Some m => submatch content m 1
    | None => EmptyString
    end in
  let includeMatches := FindAll includeRe content in
  match parseIncludes parseFile p ((λ m, submatch content m 1) <$> includeMatches) [] with
  | None => None
  | Some (p, Err e) => Some (p, Err e)
  | Some (p, Ok includes) =>
      Some (p, parseBlocks (extractBlocks content)
                 {| FileName := EmptyString; Base := base; Models := models;
                    Includes := includes; Calls := []; Types := []; Inputs := [];
                    Enums := [] |})
  end.

Fixpoint ParseFile (fuel : nat) (fs : FS) (p : Parser) (path : string) : run Schema :=
  match fuel with
  | 0 => None
  | S fuel' =>
      match Abs path with
      | Err e => Some (p, Err (Wrap "resolving path" e))
      | Ok absPath =>
          match cache p !! absPath with
          | Some cached => Some (p, Ok cached)
          | None =>
              match fs !! absPath with
              | None => Some (p, Err (Wrap "reading file" (PathError "open" absPath)))
              | Some data =>
                  let p := {| baseDir := Dir absPath; cache := cache p |} in
                  match Parse (ParseFile fuel' fs) p data with
                  | None => None
                  | Some (p, Err e) => Some (p, Err (Wrap ("parsing " +:+ path) e))
                  | Some (p, Ok s) =>
                      let s := {| FileName := PathBase path; Base := Base s;
                                  Models := Models s; Includes := Includes s;
                                  Calls := Calls s; Types := Types s;
                                  Inputs := Inputs s; Enums := Enums s |} in
                      Some ({| baseDir := baseDir p; cache := <[absPath := s]> (cache p) |},
                            Ok s)
                  end
              end
          end
      end
  end.

End WithLibraries.

End parser.

(** ** Go's [go/ast] and [go/parser] packages

    The syntax trees of [go/ast], as far as the stub classifier looks into
    them: every kind of node it does not tell apart is [OtherExpr],
    [OtherStmt] or [OtherDecl]. *)

Module ast.

#[warnings="-register-all"]
Inductive Expr : Type :=
| Ident (Name : string)
| SelectorExpr (X : Expr) (Sel : string)
| CallExpr (Fun : Expr) (Args : list Expr)
| OtherExpr.

#[warnings="-register-all"]
Inductive Stmt : Type :=
| DeclStmt
| AssignStmt (Lhs Rhs : list Expr)
| ExprStmt (X : Expr)
| IfStmt (Init : option Stmt) (Cond : Expr) (Body : option (list Stmt)) (Else : option Stmt)
| ReturnStmt (Results : list Expr)
| OtherStmt.

Record FuncDecl := { Name : string; Body : option (list Stmt) }.

Inductive Decl : Type :=
| FuncDeclOf (fd : FuncDecl)
| OtherDecl.

Record File := { Decls : list Decl }.

End ast.

(** [parser.ParseFile] of [go/parser] on the source text [src], in the mode
    [parser.ParseComments]: the file, or [None] when the error it returns
    is not nil. *)
Class GoParser := { goParseFile : string → option ast.File }.

(** What [os.ReadFile] returns for the existing output file. *)
Inductive readOutcome : Type :=
| ReadOk (data : string)
| ReadNotExist (e : error)       (* an error for which os.IsNotExist holds *)
| ReadFailed (e : error).

(** ** Package [merger] *)

Module merger.
Import regexp ast.

Definition marker : string := "// --- RESTGEN MARKER (do not edit above) ---".
Definition removedMarker : string := "// --- REMOVED HANDLERS ---".

Record MergeResult := {
  Content : string;
  PreservedMethods : list string;
  RemovedMethods : list string
}.

Record methodBlock := { name : string; content : string }.

Definition splitAtMarker (content : string) : string * string :=
  match strings.Index content marker with
  | None => (content, EmptyString)
  | Some idx => (strings.take idx content,
                 strings.drop (idx + String.length marker) content)
  end.

(** [type\s+\w+Handler\s+struct\s*\{] *)
Definition handlerStructRe : regex :=
  seq [Lit "type"; Plus space; Plus word; Lit "Handler"; Plus space; Lit "struct";
       Star space; Lit "{"].

Definition extractHandlerStruct (content : string) : string :=
  match Find handlerStructRe content with
  | None => EmptyString
  | Some m =>
      let start := m_start m in
      let braceStart := m_end m - 1 in
      let end_ :=
        match parser.closingBrace (strings.drop (braceStart + 1) content) 1 (braceStart + 1) with
        | Some i => i + 1
        | None => braceStart + 1
        end in
      strings.slice content start end_
  end.

Definition isEmptyHandlerStruct (structDef : string) : bool :=
  let inner := structDef in
  let inner :=
    match strings.Index inner "{" with
    | Some idx => strings.drop (idx + 1) inner
    | None => inner
    end in
  let inner :=
    match strings.LastIndex inner "}" with
    | Some idx => strings.take idx inner
    | None => inner
    end in
  let inner := strings.TrimSpace inner in
  bool_decide (inner = EmptyString)
  || bool_decide (inner = "// add dependencies here")
  || strings.HasPrefix inner "// add dependencies here"
     && bool_decide (strings.TrimSpace (strings.TrimPrefix inner "// add dependencies here")
                     = EmptyString).

Definition preserveHandlerStructFields (generated existing : string) : string :=
  let existingStruct := extractHandlerStruct existing in
  if bool_decide (existingStruct = EmptyString) then generated
  else if isEmptyHandlerStruct existingStruct then generated
  else
    let generatedStruct := extractHandlerStruct generated in
    if bool_decide (generatedStruct = EmptyString) then generated
    else strings.ReplaceFirst generated generatedStruct existingStruct.

(** *** The stub classifier *)

Definition isNotImplementedResponse (stmt : Stmt) : bool :=
  match stmt with
  | ExprStmt (CallExpr fn args) =>
      let isWriteResponse :=
        match fn with
        | SelectorExpr _ sel => bool_decide (sel = "WriteResponse")
        | Ident n => bool_decide (n = "writeResponse" ∨ n = "WriteResponse")
        | _ => false
        end in
      if isWriteResponse then
        match args with
        | _ :: SelectorExpr _ sel :: _ => bool_decide (sel = "StatusNotImplemented")
        | _ => false
        end
      else false
  | _ => false
  end.

Definition containsDecoderSetup (expr : Expr) : bool :=
  match expr with
  | CallExpr (SelectorExpr _ sel) _ => bool_decide (sel = "NewDecoder")
  | _ => false
  end.

Fixpoint containsDecodeCall (expr : Expr) : bool :=
  match expr with
  | CallExpr fn args =>
      match fn with
      | SelectorExpr _ sel => bool_decide (sel = "Decode")
      | _ => false
      end
      || containsDecodeCall fn
      || existsb containsDecodeCall args
  | SelectorExpr x _ => containsDecodeCall x
  | _ => false
  end.

Definition endsWithReturn (body : option (list Stmt)) : bool :=
  match body with
  | Some l => match last l with Some (ReturnStmt _) => true | _ => false end
  | None => false
  end.

(** The loop of [isDecodeErrorIf] over the right-hand sides of [Init]. *)
Fixpoint decodeErrorIfLoop (rhs : list Expr) (body : option (list Stmt)) : bool :=
  match rhs with
  | [] => false
  | e :: rhs' =>
      if containsDecodeCall e && endsWithReturn body then true
      else decodeErrorIfLoop rhs' body
  end.

Definition isDecodeErrorIf (init : option Stmt) (body : option (list Stmt)) : bool :=
  match init with
  | Some (AssignStmt _ rhs) => decodeErrorIfLoop rhs body
  | _ => false
  end.

Definition isDecodeRelatedStatement (stmt : Stmt) : bool :=
  match stmt with
  | DeclStmt => true
  | AssignStmt _ rhs => existsb containsDecoderSetup rhs
  | ExprStmt (CallExpr (SelectorExpr _ sel) _) => bool_decide (sel = "IgnoreUnknownKeys")
  | ExprStmt _ => false
  | IfStmt init _ body _ => isDecodeErrorIf init body
  | _ => false
  end.

(** The first function declaration of a file. *)
Fixpoint firstFuncDecl (decls : list Decl) : option FuncDecl :=
  match decls with
  | [] => None
  | FuncDeclOf fd :: _ => Some fd
  | _ :: decls' => firstFuncDecl decls'
  end.

(** The loop of [isGeneratedStub] over all statements but the last. *)
Fixpoint allButLastDecodeRelated (statements : list Stmt) : bool :=
  match statements with
  | [] | [_] => true
  | stmt :: rest => if isDecodeRelatedStatement stmt then allButLastDecodeRelated rest else false
  end.

Definition isGeneratedStub `{GoParser} (impl : string) : bool :=
  if negb (strings.Contains impl "StatusNotImplemented") then false
  else
    let src := "package stub" +:+ nl +:+ impl in
    match goParseFile src with
    | None => false
    | Some f =>
        match firstFuncDecl (Decls f) with
        | None => false
        | Some funcDecl =>
            match Body funcDecl with
            | None => false
            | Some statements =>
                match last statements with
                | None => false
                | Some lastStmt =>
                    if negb (isNotImplementedResponse lastStmt) then false
                    else allButLastDecodeRelated statements
                end
            end
        end
    end.

(** *** Region extraction *)

(** [func \(h \*\w+Handler\) (\w+)\(] *)
Definition methodRe : regex :=
  seq [Lit "func (h *"; Plus word; Lit "Handler) "; Group 1 (Plus word); Lit "("].

Definition extractMethodsOrdered (content : string) : list methodBlock :=
  omap (λ m,
    let methodName := submatch content m 1 in
    let funcStart := m_start m in
    match strings.Index (strings.drop funcStart content) "{" with
    | None => None
    | Some braceIdx =>
        let braceIdx := braceIdx + funcStart in
        let bodyEnd :=
          match parser.closingBrace (strings.drop (braceIdx + 1) content) 1 (braceIdx + 1) with
          | Some i => i + 1
          | None => braceIdx + 1
          end in
        Some {| name := methodName; content := strings.slice content funcStart bodyEnd |}
    end) (FindAll methodRe content).

Definition extractMethods (content : string) : gmap string string :=
  foldl (λ methods m, <[name m := merger.content m]> methods) ∅
    (extractMethodsOrdered content).

(** The pattern of an archived method, its items separated by blanks:
    [// (\w+) was removed from schema [^/] * /\* \s* (func [^*]+) \*/]. *)
Definition removedRe : regex :=
  seq [Lit "// "; Group 1 (Plus word); Lit " was removed from schema";
       Star (notChar "/"); Lit "/*"; Star space;
       Group 2 (Seq (Lit "func ") (Plus (notChar "*"))); Lit "*/"].

Definition extractRemovedSection (content : string) : list methodBlock :=
  match strings.Index content removedMarker with
  | None => []
  | Some idx =>
      let removed := strings.drop (idx + String.length removedMarker) content in
      (λ m, {| name := submatch removed m 1;
               content := strings.TrimSpace (submatch removed m 2) |})
      <$> FindAll removedRe removed
  end.

(** *** The merge *)

(** What the first loop of [MergeContent] updates. *)
Record mergeState := {
  preservedMethods : gmap string string;
  preservedNames : list string;
  existingRemoved : list methodBlock;
  removedNames : list string
}.

Section WithLibraries.
Context `{GoMapRange} `{GoParser}.

(** One turn of [for name, impl := range existingMethods]. *)
Definition classify (newMethodNames : gset string) (st : mergeState)
    (entry : string * string) : mergeState :=
  let '(name, impl) := entry in
  if bool_decide (name ∈ newMethodNames) then
    if negb (isGeneratedStub impl) then
      {| preservedMethods := <[name := impl]> (preservedMethods st);
         preservedNames := preservedNames st ++ [name];
         existingRemoved := existingRemoved st;
         removedNames := removedNames st |}
    else st
  else
    {| preservedMethods := preservedMethods st;
       preservedNames := preservedNames st;
       existingRemoved := existingRemoved st ++ [{| name := name; content := impl |}];
       removedNames := removedNames st ++ [name] |}.

Definition handlersHeader : string :=
  nl +:+ nl +:+ "// ============================================================================" +:+ nl
  +:+ "// HANDLER IMPLEMENTATIONS" +:+ nl
  +:+ "// ============================================================================" +:+ nl.

(** What the second loop writes for a generated method. *)
Definition writeMethod (preserved : gmap string string) (m : methodBlock) : string :=
  match preserved !! name m with
  | Some impl => nl +:+ impl
  | None => nl +:+ content m
  end.

(** What the third loop writes for an archived method. *)
Definition writeRemoved (rm : methodBlock) : string :=
  (nl +:+ nl +:+ "// " +:+ name rm +:+ " was removed from schema")
  +:+ (nl +:+ "// Preserved implementation:")
  +:+ (nl +:+ "/*" +:+ nl)
  +:+ content rm
  +:+ (nl +:+ "*/").

Definition concatMap {A} (f : A → string) (l : list A) : string :=
  foldr (λ x acc, f x +:+ acc) EmptyString l.

Definition MergeContent (generated existing : string) : MergeResult :=
  let '(existingAbove, existingBelow) := splitAtMarker existing in
  let '(generatedAbove, generatedBelow) := splitAtMarker generated in
  let mergedAbove := preserveHandlerStructFields generatedAbove existingAbove in
  let existingMethods := extractMethods existingBelow in
  let generatedMethods := extractMethods generatedBelow in
  let newMethodNames : gset string := list_to_set (fst <$> rangeMap generatedMethods) in
  let st :=
    foldl (classify newMethodNames)
      {| preservedMethods := ∅; preservedNames := [];
         existingRemoved := extractRemovedSection existingBelow; removedNames := [] |}
      (rangeMap existingMethods) in
  let belowMarker :=
    handlersHeader
    +:+ concatMap (writeMethod (preservedMethods st)) (extractMethodsOrdered generatedBelow)
    +:+ (nl +:+ nl) +:+ removedMarker
    +:+ concatMap writeRemoved (existingRemoved st) in
  {| Content := mergedAbove +:+ nl +:+ marker +:+ belowMarker;
     PreservedMethods := preservedNames st;
     RemovedMethods := removedNames st |}.

Definition Merge (readFile : string → readOutcome) (generated existingPath : string)
  : result MergeResult :=
  match readFile existingPath with
  | ReadNotExist _ =>
      Ok {| Content := generated; PreservedMethods := []; RemovedMethods := [] |}
  | ReadFailed e => Err e
  | ReadOk existing => Ok (MergeContent generated existing)
  end.

End WithLibraries.

End merger.

(** ** The specification's notions, in its own words *)

Module spec.
Import ast.

(** [sub] occurs in [s]. *)
Definition occursIn (sub s : string) : Prop := ∃ a b, s = a +:+ sub +:+ b.







Fixpoint allChars (P : ascii → bool) (s : string) : bool :=
  match s with
  | EmptyString => true
  | String c s' => P c && allChars P s'
  end.

Definition notBrace (c : ascii) : bool := negb (Ascii.eqb c "{") && negb (Ascii.eqb c "}").

(** [param] is the name of a [{param}] segment of the route path. *)
Definition paramSegment (path param : string) : Prop :=
  param ≠ EmptyString ∧ allChars notBrace param = true
  ∧ ∃ a b, path = a +:+ String "{" (param +:+ String "}" b).

(** The verb is body-style. *)
Definition bodyStyle (method : string) : Prop :=
  method = "POST" ∨ method = "PUT" ∨ method = "PATCH".

(** More than one argument of the call matches no path parameter. *)
Definition severalNonPathArgs (c : schema.Call) : Prop :=
  ∃ i j a b, i ≠ j ∧ schema.Args c !! i = Some a ∧ schema.Args c !! j = Some b
             ∧ ¬ paramSegment (schema.Path c) (schema.ArgName a)
             ∧ ¬ paramSegment (schema.Path c) (schema.ArgName b).

(** Some [{param}] segment of the path has no argument of the same name. *)
Definition unmatchedSegment (c : schema.Call) : Prop :=
  ∃ param, paramSegment (schema.Path c) param
           ∧ ∀ a, a ∈ schema.Args c → schema.ArgName a ≠ param.

(** The blocks the merge archives out of the entries of the existing
    methods, in the order [l] of the range: those whose name is not among
    the new names. *)
Definition removedOf (new : gset string) (l : list (string * string))
  : list merger.methodBlock :=
  (λ e, {| merger.name := e.1; merger.content := e.2 |}) <$> filter (λ e, e.1 ∉ new) l.

(** The arguments of the directives of one form in a file, in the order of
    the text. *)
Definition directiveArgs (re : regexp.regex) (content : string) : list string :=
  (λ m, regexp.submatch content m 1) <$> regexp.FindAll re content.

(** The canonical text of a type reference with the given flags:
    [T], [T!], [[T]] and [[T!]!]. *)
Definition canonicalTypeRef (required isList : bool) (T : string) : string :=
  match isList, required with
  | false, false => T
  | false, true => T +:+ "!"
  | true, false => "[" +:+ T +:+ "]"
  | true, true => "[" +:+ T +:+ "!]!"
  end.

(** A type name: letters, digits, underscores and the dot of a namespace. *)
Definition typeName (T : string) : Prop :=
  T ≠ EmptyString ∧ allChars parser.wordOrDot T = true.

(** The name of an argument or of a field. *)
Definition identifier (x : string) : Prop :=
  x ≠ EmptyString ∧ allChars regexp.word x = true.

(** The text of an argument or of a field: its name, a colon, its type. *)
Definition declaration (x typeRef : string) : string := x +:+ ": " +:+ typeRef.

(** A call [list] without arguments, of verb [get] and path [/], written
    with the given return type. *)
Definition listCall (returnType : string) : string :=
  "list(): " +:+ returnType +:+ " @get(" +:+ dq +:+ "/" +:+ dq +:+ ")".

(** The below-marker region of a text. *)
Definition belowMarker (text : string) : string := (merger.splitAtMarker text).2.

(** The body the specification asks for a freshly generated method [m]: the
    prior body when the method has one and it is classified as non-stub,
    the newly generated body otherwise. *)
Definition mergedBody `{GoParser} (prior : gmap string string) (m : merger.methodBlock)
  : string :=
  match prior !! merger.name m with
  | Some impl => if merger.isGeneratedStub impl then merger.content m else impl
  | None => merger.content m
  end.

(** The type a block of kind [type] stands for, and the input a block of
    kind [input] stands for: its name and the fields of its body. *)
Definition typeOf (b : parser.block) : schema.TypeDef :=
  {| schema.TypeName := parser.name b;
     schema.TypeFields := parser.parseFieldsLoop (strings.SplitChar (parser.body b) "010") [] |}.
Definition inputOf (b : parser.block) : schema.InputDef :=
  {| schema.InputName := parser.name b;
     schema.InputFields := parser.parseFieldsLoop (strings.SplitChar (parser.body b) "010") [] |}.

(** A route path written as literal text and [{name}] segments: each
    segment is the text before its parameter and the name of the
    parameter; [tail] is the text after the last parameter. *)
Definition pathOf (segments : list (string * string)) (tail : string) : string :=
  merger.concatMap (λ seg, seg.1 +:+ "{" +:+ seg.2 +:+ "}") segments +:+ tail.

(** A character that is no square bracket. *)
Definition notBracket (c : ascii) : bool := negb (Ascii.eqb c "[") && negb (Ascii.eqb c "]").

(** The namespace of an include: the base name of its path without the
    [.sdl] ending, hyphens written as underscores. *)
Definition namespaceOf `{FilePath} (includePath : string) : string :=
  strings.ReplaceAllChar (strings.TrimSuffix (PathBase includePath) ".sdl") "-" "_".

(** The path [parseInclude] hands to [ParseFile] for an include directive
    of a file in the directory [dir]. *)
Definition resolved `{FilePath} (dir includePath : string) : string :=
  if negb (IsAbs includePath) && bool_decide (dir ≠ EmptyString)
  then PathJoin dir includePath
  else includePath.

(** A character that separates the words of a name in snake case or in
    kebab case. *)
Definition notSeparator (c : ascii) : bool := negb (Ascii.eqb c "-") && negb (Ascii.eqb c "_").

(** The number of braces left open after [s], read with [depth] braces
    open; [None] when [s] closes a brace that is not open. *)
Fixpoint depthAfter (s : string) (depth : nat) : option nat :=
  match s with
  | EmptyString => Some depth
  | String ch s' =>
      if Ascii.eqb ch "{" then depthAfter s' (S depth)
      else if Ascii.eqb ch "}" then
        match depth with
        | 0 => None
        | S d => depthAfter s' d
        end
      else depthAfter s' depth
  end.

(** The braces of [s] are balanced. *)
Definition balanced (s : string) : Prop := depthAfter s 0 = Some 0.

(** The signature of a method of a handler, up to the parenthesis that
    opens its parameters. *)
Definition methodSignature (handler method : string) : string :=
  "func (h *" +:+ handler +:+ "Handler) " +:+ method +:+ "(".

(** An argument and a field as the schema language writes them, with the
    canonical text of their type reference. *)
Definition argText (a : schema.Arg) : string :=
  declaration (schema.ArgName a)
    (canonicalTypeRef (schema.ArgRequired a) (schema.ArgIsList a) (schema.ArgType a)).
Definition fieldText (f : schema.Field) : string :=
  declaration (schema.FieldName f)
    (canonicalTypeRef (schema.FieldRequired f) (schema.FieldIsList f) (schema.FieldType f)).

(** The brackets [s] opens less the brackets it closes. *)
Fixpoint bracketsOpened (s : string) : Z :=
  match s with
  | EmptyString => 0
  | String ch s' =>
      (if Ascii.eqb ch "[" then 1 else if Ascii.eqb ch "]" then -1 else 0)%Z
      + bracketsOpened s'
  end%Z.

(** The verbs of a call, as the schema language writes them and as a
    [Call] records them. *)
Definition verbs : list string := ["get"; "post"; "put"; "patch"; "delete"].
Definition methods : list string := ["GET"; "POST"; "PUT"; "PATCH"; "DELETE"].

End spec.


(** ** Package [emitter]: the name of the handler *)

Module emitter.
Import schema.

(** [strings.ToUpper(part[:1])], the upper case of a one-byte string.  A
    byte that is not ASCII is no UTF-8 text by itself, and [ToUpper]
    writes U+FFFD, three bytes, for it. *)
Definition upperFirst (c : ascii) : string :=
  if (nat_of_ascii c <? 128)%nat then String (strings.upperChar c) EmptyString
  else String "239" (String "191" (String "189" EmptyString)).

Definition toPascalCase (s : string) : string :=
  let s := strings.ReplaceAllChar s "-" "_" in
  let parts := strings.SplitChar s "_" in
  foldl (λ result part,
           match part with
           | EmptyString => result
           | String c rest => result +:+ upperFirst c +:+ rest
           end) EmptyString parts.

Definition deriveHandlerName (s : Schema) : string :=
  let fromBase :=
    if bool_decide (Base s ≠ EmptyString) then
      match last (strings.SplitChar (strings.TrimChar (Base s) "/") "/") with
      | Some name => toPascalCase name
      | None => "Handler"
      end
    else "Handler" in
  if bool_decide (FileName s ≠ EmptyString) then
    let name := strings.TrimSuffix (FileName s) ".sdl" in
    if bool_decide (0 < String.length name) then toPascalCase name else fromBase
  else fromBase.

End emitter.

(** ** What a pattern matches

    The texts a pattern matches and the captures it records, stated apart
    from the search: [Matches r pos w cs cs'] says that [r] matches the
    text [w] standing at byte [pos], and that the captures [cs] recorded
    before it become [cs']. *)

Module matching.
Import regexp.

Inductive Matches : regex → nat → string → caps → caps → Prop :=
| M_Lit l pos cs : Matches (Lit l) pos l cs cs
| M_Cls p c pos cs : p c = true → Matches (Cls p) pos (String c EmptyString) cs cs
| M_Star p w pos cs : spec.allChars p w = true → Matches (Star p) pos w cs cs
| M_Plus p w pos cs :
    w ≠ EmptyString → spec.allChars p w = true → Matches (Plus p) pos w cs cs
| M_Opt_some r w pos cs cs' : Matches r pos w cs cs' → Matches (Opt r) pos w cs cs'
| M_Opt_none r pos cs : Matches (Opt r) pos EmptyString cs cs
| M_Alt_left r1 r2 w pos cs cs' : Matches r1 pos w cs cs' → Matches (Alt r1 r2) pos w cs cs'
| M_Alt_right r1 r2 w pos cs cs' : Matches r2 pos w cs cs' → Matches (Alt r1 r2) pos w cs cs'
| M_Seq r1 r2 w1 w2 pos cs cs1 cs2 :
    Matches r1 pos w1 cs cs1 → Matches r2 (pos + String.length w1) w2 cs1 cs2 →
    Matches (Seq r1 r2) pos (w1 +:+ w2) cs cs2
| M_Group i r w pos cs cs' :
    Matches r pos w cs cs' →
    Matches (Group i r) pos w cs ((i, (pos, pos + String.length w)) :: cs').

End matching.

(** ** Sample inputs *)

Module examples.

(** A [range] that visits a map in the order of its keys' encoding. *)
Definition rangeInOrder : GoMapRange := {|
  rangeSet := elements;
  rangeSet_perm := λ _, reflexivity _;
  rangeMap := map_to_list;
  rangeMap_perm := λ _, reflexivity _
|}.

(** A string literal of the schema language or of Go. *)
Definition quoted (s : string) : string := dq +:+ s +:+ dq.

Definition updateContactLine : string :=
  "updateContact(id: ID!, input: UpdateContactInput!): Contact! @put(" +:+ quoted "/{id}" +:+ ")".

Definition fooLine : string :=
  "foo(a: String, b: String): Foo @post(" +:+ quoted "/" +:+ ")".

Definition updateContactCall : schema.Call := {|
  schema.CallName := "updateContact";
  schema.Method := "PUT";
  schema.Path := "/{id}";
  schema.Args :=
    [ {| schema.ArgName := "id"; schema.ArgType := "ID";
         schema.ArgRequired := true; schema.ArgIsList := false |};
      {| schema.ArgName := "input"; schema.ArgType := "UpdateContactInput";
         schema.ArgRequired := true; schema.ArgIsList := false |} ];
  schema.ReturnType := "Contact";
  schema.ReturnRequired := true;
  schema.ReturnIsList := false
|}.

(** A schema file whose [Calls] block holds the call that fails validation. *)
Definition fooFile : string :=
  "# @base(" +:+ quoted "/v1/foo" +:+ ")" +:+ nl
  +:+ "type Foo {" +:+ nl +:+ "    id: ID!" +:+ nl +:+ "}" +:+ nl
  +:+ "type Calls {" +:+ nl +:+ "    " +:+ fooLine +:+ nl +:+ "}" +:+ nl.

(** A directive line. *)
Definition directive (name arg : string) : string :=
  "# @" +:+ name +:+ "(" +:+ quoted arg +:+ ")" +:+ nl.

(** A file with two base-path and two package-reference directives. *)
Definition twoBases : string :=
  directive "base" "/v1" +:+ directive "base" "/v2"
  +:+ directive "models" "example.com/first" +:+ directive "models" "example.com/second".

(** A [parseFile] for files without include directives. *)
Definition noIncludes : parser.Parser → string → parser.run schema.Schema := λ _ _, None.

(** A project whose main file includes a file of a subdirectory and then a
    file of its own directory; the subdirectory has a file of that name too. *)
Definition projectFiles : parser.FS :=
  list_to_map
    [ ("/proj/main.sdl", directive "include" "sub/a.sdl" +:+ directive "include" "b.sdl");
      ("/proj/sub/a.sdl", directive "models" "example.com/a");
      ("/proj/b.sdl", directive "models" "example.com/b");
      ("/proj/sub/b.sdl", directive "models" "example.com/other") ].

(** Two files that include each other. *)
Definition cyclicFiles : parser.FS :=
  list_to_map
    [ ("/proj/a.sdl", directive "include" "b.sdl");
      ("/proj/b.sdl", directive "models" "example.com/b" +:+ directive "include" "a.sdl") ].


(** A file with an enum block. *)
Definition enumFile : string :=
  "enum ContactStatus {" +:+ nl +:+ "    active" +:+ nl +:+ "    inactive" +:+ nl +:+ "}" +:+ nl
  +:+ "type Contact {" +:+ nl +:+ "    status: ContactStatus!" +:+ nl +:+ "}" +:+ nl.

(** A schema file with a type, an input and two calls. *)
Definition contactsFile : string :=
  directive "base" "/v1/contacts"
  +:+ "type Contact {" +:+ nl +:+ "    id: ID!" +:+ nl +:+ "    name: String" +:+ nl +:+ "}" +:+ nl
  +:+ "input ContactInput {" +:+ nl +:+ "    name: String!" +:+ nl +:+ "}" +:+ nl
  +:+ "type Calls {" +:+ nl
  +:+ "    getContact(id: ID!): Contact @get(" +:+ quoted "/{id}" +:+ ")" +:+ nl
  +:+ "    createContact(input: ContactInput!): Contact! @post(" +:+ quoted "/" +:+ ")" +:+ nl
  +:+ "}" +:+ nl.

(** *** Generated and edited handler files *)

Definition signature (name : string) : string :=
  "func (h *ContactsHandler) " +:+ name +:+ "(w http.ResponseWriter, r *http.Request) {".

Definition notImplemented (name : string) : string :=
  tab +:+ "// TODO: implement " +:+ name +:+ nl
  +:+ tab +:+ "shared.WriteResponse(w, http.StatusNotImplemented, &shared.ApiResponse[models.Contact]{" +:+ nl
  +:+ tab +:+ tab +:+ "Message: " +:+ quoted (name +:+ " not implemented") +:+ "," +:+ nl
  +:+ tab +:+ "})" +:+ nl.

(** The generated stub of a call without arguments to decode. *)
Definition plainStub (name : string) : string :=
  signature name +:+ nl +:+ nl +:+ notImplemented name +:+ "}".

(** The generated stub of a call with a body argument. *)
Definition decodingStub (name : string) : string :=
  signature name +:+ nl
  +:+ tab +:+ "var input models.ContactInput" +:+ nl
  +:+ tab +:+ "if err := json.NewDecoder(r.Body).Decode(&input); err != nil {" +:+ nl
  +:+ tab +:+ tab +:+ "shared.WriteResponse(w, http.StatusBadRequest, nil)" +:+ nl
  +:+ tab +:+ tab +:+ "return" +:+ nl
  +:+ tab +:+ "}" +:+ nl +:+ nl
  +:+ notImplemented name +:+ "}".

(** A method a user has written. *)
Definition written (name : string) : string :=
  signature name +:+ nl
  +:+ tab +:+ "contact, err := h.db.Find(r.Context())" +:+ nl
  +:+ tab +:+ "if err != nil {" +:+ nl
  +:+ tab +:+ tab +:+ "shared.WriteResponse(w, http.StatusInternalServerError, nil)" +:+ nl
  +:+ tab +:+ tab +:+ "return" +:+ nl
  +:+ tab +:+ "}" +:+ nl
  +:+ tab +:+ "shared.WriteResponse(w, http.StatusOK, contact)" +:+ nl +:+ "}".

Definition writeResponse (status : string) : ast.Stmt :=
  ast.ExprStmt
    (ast.CallExpr (ast.SelectorExpr (ast.Ident "shared") "WriteResponse")
       [ast.Ident "w"; ast.SelectorExpr (ast.Ident "http") status; ast.OtherExpr]).

Definition plainStubStmts : list ast.Stmt := [writeResponse "StatusNotImplemented"].

Definition decodingStubStmts : list ast.Stmt :=
  [ ast.DeclStmt;
    ast.IfStmt
      (Some (ast.AssignStmt [ast.Ident "err"]
               [ast.CallExpr
                  (ast.SelectorExpr
                     (ast.CallExpr (ast.SelectorExpr (ast.Ident "json") "NewDecoder")
                        [ast.SelectorExpr (ast.Ident "r") "Body"])
                     "Decode")
                  [ast.OtherExpr]]))
      ast.OtherExpr
      (Some [writeResponse "StatusBadRequest"; ast.ReturnStmt []])
      None;
    writeResponse "StatusNotImplemented" ].

Definition writtenStmts : list ast.Stmt :=
  [ ast.AssignStmt [ast.Ident "contact"; ast.Ident "err"]
      [ast.CallExpr (ast.SelectorExpr (ast.SelectorExpr (ast.Ident "h") "db") "Find")
         [ast.CallExpr (ast.SelectorExpr (ast.Ident "r") "Context") []]];
    ast.IfStmt None ast.OtherExpr
      (Some [writeResponse "StatusInternalServerError"; ast.ReturnStmt []]) None;
    writeResponse "StatusOK" ].

Definition methodFile (name : string) (stmts : list ast.Stmt) : ast.File :=
  {| ast.Decls := [ast.FuncDeclOf {| ast.Name := name; ast.Body := Some stmts |}] |}.

(** What [go/parser] returns for the sample methods; it is asked about no
    other text here. *)
Definition sampleGoParser : GoParser := {|
  goParseFile src :=
    let wrapped impl := "package stub" +:+ nl +:+ impl in
    if bool_decide (src = wrapped (plainStub "GetContact"))
    then Some (methodFile "GetContact" plainStubStmts)
    else if bool_decide (src = wrapped (plainStub "DeleteContact"))
    then Some (methodFile "DeleteContact" plainStubStmts)
    else if bool_decide (src = wrapped (decodingStub "CreateContact"))
    then Some (methodFile "CreateContact" decodingStubStmts)
    else if bool_decide (src = wrapped (written "GetContact"))
    then Some (methodFile "GetContact" writtenStmts)
    else if bool_decide (src = wrapped (written "ListContacts"))
    then Some (methodFile "ListContacts" writtenStmts)
    else None
|}.

Definition aboveMarker (fields : string) : string :=
  "package routes" +:+ nl +:+ nl
  +:+ "type ContactsHandler struct {" +:+ nl +:+ tab +:+ fields +:+ nl +:+ "}" +:+ nl +:+ nl.

(** A handler file: the region above the marker, the marker, the header,
    the methods, the marker of the archive. *)
Definition handlerFile (fields : string) (methods : list string) : string :=
  aboveMarker fields +:+ merger.marker +:+ merger.handlersHeader
  +:+ merger.concatMap (λ m, nl +:+ nl +:+ m) methods
  +:+ nl +:+ nl +:+ merger.removedMarker +:+ nl.

(** What the generator emits for a schema with [CreateContact] and
    [GetContact]. *)
Definition generatedFile : string :=
  handlerFile "// add dependencies here" [decodingStub "CreateContact"; plainStub "GetContact"].

(** The output of an earlier generation for a schema that also had
    [ListContacts], after a user wrote [GetContact] and [ListContacts]. *)
Definition editedFile : string :=
  handlerFile "db *sql.DB"
    [decodingStub "CreateContact"; written "GetContact"; written "ListContacts"].

Definition noExistingFile : string → readOutcome :=
  λ path, ReadNotExist (PathError "open" path).

End examples.

(** ** Tactics *)

(** What a match of a pattern made of sequences, groups, literals and
    repetitions says about the text, piece by piece. *)
Ltac invert_Matches :=
  repeat match goal with
  | H : matching.Matches (regexp.Seq _ _) _ _ _ _ |- _ => inversion H; subst; clear H
  | H : matching.Matches (regexp.Group _ _) _ _ _ _ |- _ => inversion H; subst; clear H
  | H : matching.Matches (regexp.Lit _) _ _ _ _ |- _ => inversion H; subst; clear H
  | H : matching.Matches (regexp.Plus _) _ _ _ _ |- _ => inversion H; subst; clear H
  | H : matching.Matches (regexp.Star _) _ _ _ _ |- _ => inversion H; subst; clear H
  | H : matching.Matches (regexp.Alt _ _) _ _ _ _ |- _ => inversion H; subst; clear H
  | H : matching.Matches (regexp.Opt _) _ _ _ _ |- _ => inversion H; subst; clear H
  end.

(** A statement about every character, by the 256 cases. *)
Ltac by_ascii_cases :=
  let c := fresh "c" in
  intros c; destruct c as [[] [] [] [] [] [] [] []]; vm_compute; try done; intuition congruence.

(** * Properties *)

(** ** Strings *)

Lemma app_cons (c : ascii) (s t : string) : String c s +:+ t = String c (s +:+ t).
Proof. reflexivity. Qed.

Lemma app_empty_l (s : string) : EmptyString +:+ s = s.
Proof. reflexivity. Qed.

Lemma app_empty_r (s : string) : s +:+ EmptyString = s.
Proof. induction s as [|c s IH]; [done|]. by rewrite app_cons IH. Qed.

Lemma app_assoc_s (s t u : string) : (s +:+ t) +:+ u = s +:+ t +:+ u.
Proof. induction s as [|c s IH]; [done|]. by rewrite !app_cons IH. Qed.

Lemma app_snoc (s t : string) (c : ascii) :
  (s +:+ String c EmptyString) +:+ t = s +:+ String c t.
Proof. by rewrite app_assoc_s. Qed.

Lemma length_app_s (s t : string) :
  String.length (s +:+ t) = String.length s + String.length t.
Proof. induction s as [|c s IH]; [done|]. rewrite app_cons /=. by rewrite IH. Qed.

Lemma HasPrefix_app (p s : string) : strings.HasPrefix (p +:+ s) p = true.
Proof.
  induction p as [|c p IH]; [done|].
  rewrite app_cons /=. by rewrite Ascii.eqb_refl.
Qed.

Lemma HasPrefix_inv (s p : string) :
  strings.HasPrefix s p = true → ∃ t, s = p +:+ t.
Proof.
  revert s. induction p as [|c p IH]; intros s Hp.
  - by exists s.
  - destruct s as [|d s]; [done|]. simpl in Hp.
    destruct (Ascii.eqb_spec c d) as [->|]; [|done].
    destruct (IH _ Hp) as [t ->]. by exists t.
Qed.

Lemma drop_app_length (p s : string) : strings.drop (String.length p) (p +:+ s) = s.
Proof. induction p as [|c p IH]; [done|]. by rewrite app_cons /=. Qed.

Lemma take_app_length (p s : string) : strings.take (String.length p) (p +:+ s) = p.
Proof. induction p as [|c p IH]; [done|]. rewrite app_cons /=. by rewrite IH. Qed.


Lemma Index_Some (s sub : string) (i : nat) :
  strings.Index s sub = Some i →
  ∃ b, s = strings.take i s +:+ sub +:+ b ∧ String.length (strings.take i s) = i.
Proof.
  revert i. induction s as [|c s IH]; intros i; simpl.
  - destruct sub; [|done]. intros [= <-]. by exists EmptyString.
  - destruct (strings.HasPrefix (String c s) sub) eqn:Hp.
    + intros [= <-]. apply HasPrefix_inv in Hp as [t ->]. by exists t.
    + destruct (strings.Index s sub) as [j|] eqn:Hj; [|done].
      intros [= <-]. destruct (IH j eq_refl) as (b & Hb & Hlen).
      exists b. simpl. rewrite app_cons. by rewrite -Hb Hlen.
Qed.

Lemma Index_app (a sub b : string) : is_Some (strings.Index (a +:+ sub +:+ b) sub).
Proof.
  induction a as [|c a IH].
  - rewrite app_empty_l. destruct (sub +:+ b) eqn:E; simpl; rewrite -?E HasPrefix_app; eauto.
  - rewrite app_cons /=.
    destruct (strings.HasPrefix _ sub); [eauto|].
    destruct IH as [j ->]. eauto.
Qed.


(** ** The stub classifier *)

Section StubClassifier.
Import ast merger spec.











End StubClassifier.


(** ** Call validation *)

Section Validation.
Import schema spec.

Lemma allChars_app (P : ascii → bool) (s t : string) :
  allChars P (s +:+ t) = allChars P s && allChars P t.
Proof.
  induction s as [|c s IH]; [done|].
  rewrite app_cons /= IH. by destruct (P c).
Qed.

(** A segment of [String ch path] is a segment of [path], or starts at
    [ch]. *)
Lemma paramSegment_cons (ch : ascii) (path x : string) :
  paramSegment (String ch path) x ↔
  paramSegment path x
  ∨ (ch = "{"%char ∧ x ≠ EmptyString ∧ allChars notBrace x = true
     ∧ ∃ b, path = x +:+ String "}" b).
Proof.
  split.
  - intros (Hne & Hnb & a & b & Heq). destruct a as [|c a].
    + rewrite app_empty_l in Heq. injection Heq as -> ->. right. eauto.
    + rewrite app_cons in Heq. injection Heq as -> ->. left.
      split; [done|]. split; [done|]. by exists a, b.
  - intros [(Hne & Hnb & a & b & ->)|(-> & Hne & Hnb & b & ->)].
    + split; [done|]. split; [done|]. by exists (String ch a), b.
    + split; [done|]. split; [done|]. by exists EmptyString, b.
Qed.

(** What the loop of [PathParams] has collected at its end, from any of
    its states. *)
Lemma pathParamsLoop_spec (path : string) (params : list string)
    (inParam : bool) (current x : string) :
  x ∈ pathParamsLoop path params inParam current ↔
  x ∈ params ∨ paramSegment path x
  ∨ (x ≠ EmptyString ∧ ∃ w rest, path = w +:+ String "}" rest
       ∧ allChars notBrace w = true
       ∧ x = if inParam then current +:+ w else current).
Proof.
  revert params inParam current.
  induction path as [|ch path IH]; intros params inParam current; simpl.
  - split; [by left|]. intros [?|[(_ & _ & a & b & Heq)|(_ & w & rest & Heq & _)]]; [done| |].
    + by destruct a.
    + by destruct w.
  - destruct (Ascii.eqb_spec ch "{") as [->|Hopen].
    { rewrite IH paramSegment_cons. split.
      - intros [?|[?|(Hne & w & rest & -> & Hw & ->)]]; [by left|by right; left; left|].
        right; left; right. rewrite app_empty_l in Hne |- *. eauto.
      - intros [?|[[?|(_ & Hne & Hnb & b & ->)]|(_ & w & rest & Heq & Hw & _)]];
          [by left|by right; left| |].
        + right; right. split; [done|]. by exists x, b.
        + destruct w as [|c w]; [done|]. rewrite app_cons in Heq.
          injection Heq as <- _. done. }
    destruct (Ascii.eqb_spec ch "}") as [->|Hclose].
    { rewrite IH paramSegment_cons. split.
      - intros [Hx|[?|(Hne & w & rest & -> & Hw & ->)]].
        + case_bool_decide as Hc; [|by left].
          apply elem_of_app in Hx as [?| ->%list_elem_of_singleton]; [by left|].
          right; right. split; [done|]. exists EmptyString, path.
          split; [done|]. split; [done|]. rewrite app_empty_r. by destruct inParam.
        + by right; left; left.
        + right; right. split; [done|]. exists EmptyString, (w +:+ String "}" rest).
          split; [done|]. split; [done|]. rewrite app_empty_r. by destruct inParam.
      - intros [?|[[?|(? & _)]|(Hne & w & rest & Heq & Hw & ->)]];
          [|by right; left|done|].
        + left. case_bool_decide; [|done]. apply elem_of_app. by left.
        + destruct w as [|c w].
          * left. rewrite app_empty_r in Hne |- *.
            assert ((if inParam then current else current) = current) as Hcur
              by by destruct inParam.
            rewrite Hcur in Hne |- *. rewrite bool_decide_eq_true_2 //.
            apply elem_of_app. right. by apply list_elem_of_singleton.
          * rewrite app_cons in Heq. injection Heq as <- _. done. }
    assert (∀ w rest, String ch path = w +:+ String "}" rest →
              ∃ w', w = String ch w' ∧ path = w' +:+ String "}" rest) as Hsplit.
    { intros [|c w] rest Heq; [by injection Heq as ->|].
      rewrite app_cons in Heq. injection Heq as -> ->. eauto. }
    assert (notBrace ch = true) as Hch.
    { rewrite /notBrace. by destruct (Ascii.eqb_spec ch "{"), (Ascii.eqb_spec ch "}"). }
    destruct inParam; rewrite IH paramSegment_cons; split.
    + intros [?|[?|(Hne & w & rest & -> & Hw & ->)]]; [by left|by right; left; left|].
      right; right. split; [done|]. exists (String ch w), rest.
      split; [done|]. split; [by rewrite /= Hch Hw|].
      by rewrite app_snoc.
    + intros [?|[[?|(? & _)]|(Hne & w & rest & Heq & Hw & ->)]];
        [by left|by right; left|done|].
      apply Hsplit in Heq as (w' & -> & ->). simpl in Hw.
      apply andb_true_iff in Hw as [_ Hw].
      right; right. rewrite -app_snoc in Hne |- *. split; [done|]. by exists w', rest.
    + intros [?|[?|(Hne & w & rest & -> & Hw & ->)]]; [by left|by right; left; left|].
      right; right. split; [done|]. exists (String ch w), rest.
      split; [done|]. split; [by rewrite /= Hch Hw|done].
    + intros [?|[[?|(? & _)]|(Hne & w & rest & Heq & Hw & ->)]];
        [by left|by right; left|done|].
      apply Hsplit in Heq as (w' & -> & ->). simpl in Hw.
      apply andb_true_iff in Hw as [_ Hw].
      right; right. split; [done|]. by exists w', rest.
Qed.

(** [PathParams] collects exactly the names of the [{param}] segments. *)
Lemma PathParams_spec (c : Call) (x : string) :
  x ∈ PathParams c ↔ paramSegment (Path c) x.
Proof.
  rewrite /PathParams pathParamsLoop_spec. split.
  - intros [Hx|[?|(Hne & _ & _ & _ & _ & ->)]]; [by apply elem_of_nil in Hx|done|done].
  - intros ?. by right; left.
Qed.

Lemma PathParamSet_spec (c : Call) (x : string) :
  x ∈ PathParamSet c ↔ paramSegment (Path c) x.
Proof. by rewrite /PathParamSet elem_of_list_to_set PathParams_spec. Qed.

Lemma unmatchedParam_None (params : list string) (args : list Arg) :
  unmatchedParam params args = None ↔
  ∀ param, param ∈ params → ∃ a, a ∈ args ∧ ArgName a = param.
Proof.
  induction params as [|p params IH]; simpl.
  - split; [|done]. by intros _ ? ?%elem_of_nil.
  - destruct (existsb _ args) eqn:Hex.
    + rewrite IH. apply existsb_exists in Hex as (a & Ha & Hn).
      apply bool_decide_eq_true in Hn. apply list_elem_of_In in Ha. split.
      * intros Hall param [->|?]%elem_of_cons; eauto.
      * intros Hall param ?. apply Hall. by right.
    + split; [done|]. intros Hall. destruct (Hall p) as (a & Ha & Hn); [by left|].
      assert (existsb (λ a, bool_decide (ArgName a = p)) args = true) as Hex'.
      { apply existsb_exists. exists a. split; [by apply list_elem_of_In|].
        by apply bool_decide_eq_true. }
      congruence.
Qed.

(** A list has more than one element that satisfies [P] exactly when two
    of its positions do. *)
Lemma filter_length_gt_1 {A} (P : A → Prop) `{∀ x, Decision (P x)} (l : list A) :
  1 < length (filter P l) ↔
  ∃ i j a b, i ≠ j ∧ l !! i = Some a ∧ l !! j = Some b ∧ P a ∧ P b.
Proof.
  split.
  - intros Hlen.
    destruct (filter P l) as [|a [|b rest]] eqn:Hf; simpl in Hlen; [lia|lia|].
    assert (filter P l !! 0 = Some a ∧ filter P l !! 1 = Some b) as [H0 H1]
      by by rewrite Hf.
    clear Hf Hlen rest.
    revert H0 H1. induction l as [|x l IH]; [done|].
    rewrite filter_cons. destruct (decide (P x)) as [Hx|Hx].
    + simpl. intros [= ->] H1.
      assert (b ∈ filter P l) as [Hb Hbl]%list_elem_of_filter
        by (eapply list_elem_of_lookup_2; exact H1).
      apply list_elem_of_lookup_1 in Hbl as [j Hj].
      exists 0, (S j), a, b. by repeat split.
    + intros H0 H1. destruct (IH H0 H1) as (i & j & a' & b' & Hij & Hi & Hj & Ha & Hb).
      exists (S i), (S j), a', b'. repeat split; try done. lia.
  - intros (i & j & a & b & Hij & Hi & Hj & Ha & Hb).
    revert i j Hij Hi Hj. induction l as [|x l IH]; intros i j Hij Hi Hj; [done|].
    rewrite filter_cons. destruct i as [|i], j as [|j]; simplify_eq/=.
    + rewrite decide_True //=.
      assert (b ∈ filter P l) as Hin
        by (apply list_elem_of_filter; split; [done|by eapply list_elem_of_lookup_2]).
      destruct (filter P l); [by apply elem_of_nil in Hin|simpl; lia].
    + rewrite decide_True //=.
      assert (a ∈ filter P l) as Hin
        by (apply list_elem_of_filter; split; [done|by eapply list_elem_of_lookup_2]).
      destruct (filter P l); [by apply elem_of_nil in Hin|simpl; lia].
    + assert (1 < length (filter P l)) by (apply (IH i j); [lia|done|done]).
      destruct (decide (P x)); simpl; lia.
Qed.

End Validation.

Section ValidationOfCalls.
Import schema spec parser.
Context `{GoMapRange} `{FilePath}.

Lemma unmatchedParam_Some (params : list string) (args : list Arg) (param : string) :
  unmatchedParam params args = Some param →
  param ∈ params ∧ ∀ a, a ∈ args → ArgName a ≠ param.
Proof.
  induction params as [|p params IH]; simpl; [done|].
  destruct (existsb _ args) eqn:Hex.
  - intros [??]%IH. split; [by right|done].
  - intros [= <-]. split; [by left|]. intros a Ha Hname.
    assert (existsb (λ a, bool_decide (ArgName a = p)) args = true) as Hex'.
    { apply existsb_exists. exists a. split; [by apply list_elem_of_In|].
      by apply bool_decide_eq_true. }
    congruence.
Qed.

Lemma Validate_spec (c : Call) :
  is_Some (Validate c) ↔
  unmatchedSegment c ∨ (bodyStyle (Method c) ∧ severalNonPathArgs c).
Proof.
  assert (1 < length (filter (λ a, ArgName a ∉ PathParamSet c) (Args c))
          ↔ severalNonPathArgs c) as Hseveral.
  { rewrite filter_length_gt_1 /severalNonPathArgs.
    by setoid_rewrite PathParamSet_spec. }
  assert (∀ param, unmatchedParam (rangeSet (PathParamSet c)) (Args c) = Some param →
            unmatchedSegment c) as Hsome.
  { intros param [Hin Hno]%unmatchedParam_Some. exists param. split; [|done].
    by rewrite rangeSet_perm elem_of_elements PathParamSet_spec in Hin. }
  assert (unmatchedParam (rangeSet (PathParamSet c)) (Args c) = None →
            ¬ unmatchedSegment c) as Hnone.
  { rewrite unmatchedParam_None. intros Hall (param & Hseg & Hno).
    destruct (Hall param) as (a & Ha & Hname); [|by eapply Hno].
    by rewrite rangeSet_perm elem_of_elements PathParamSet_spec. }
  rewrite /Validate.
  destruct (IsBodyMethod c) eqn:Hbody.
  - apply bool_decide_eq_true in Hbody.
    rewrite length_fmap.
    destruct (bool_decide (1 < _)) eqn:Hlen.
    + apply bool_decide_eq_true in Hlen.
      split; [|by eauto]. intros _. right. split; [done|]. by apply Hseveral.
    + apply bool_decide_eq_false in Hlen.
      destruct (unmatchedParam _ _) as [param|] eqn:Hp.
      * split; [|by eauto]. intros _. left. by eapply Hsome.
      * split; [by intros [? [=]]|]. intros [Hu|[_ Hs]].
        -- by apply Hnone in Hu.
        -- by apply Hseveral in Hs.
  - apply bool_decide_eq_false in Hbody. simpl.
    destruct (unmatchedParam _ _) as [param|] eqn:Hp.
    + split; [|by eauto]. intros _. left. by eapply Hsome.
    + split; [by intros [? [=]]|]. intros [Hu|[Hb _]]; [by apply Hnone in Hu|done].
Qed.

End ValidationOfCalls.

Section ValidationAborts.
Import schema spec parser.

(** Whether validation fails does not depend on the order of the range. *)
Lemma Validate_None_irrel (R1 R2 : GoMapRange) (c : Call) :
  @Validate R1 c = None → @Validate R2 c = None.
Proof.
  intros H1. destruct (@Validate R2 c) as [e|] eqn:H2; [|done].
  assert (is_Some (@Validate R1 c)) as [? ?]; [|congruence].
  apply Validate_spec. apply (@Validate_spec R2). eauto.
Qed.

Lemma parseCall_Ok_irrel (R1 R2 : GoMapRange) (body : string) (m : regexp.match_)
    (call : Call) :
  @parseCall R1 body m = Ok call → @parseCall R2 body m = Ok call.
Proof.
  rewrite /parseCall. destruct (parseArgs _) as [args|e]; [|done].
  destruct (parseTypeStr _) as [[ty req] lst].
  destruct (@Validate R1 _) as [e|] eqn:Hv; [done|].
  by rewrite (Validate_None_irrel R1 R2 _ Hv).
Qed.

Lemma parseCalls_Ok_irrel (R1 R2 : GoMapRange) (body : string) (calls : list Call) :
  @parseCalls R1 body = Ok calls → @parseCalls R2 body = Ok calls.
Proof.
  rewrite /parseCalls. generalize (@nil Call) as acc.
  induction (regexp.FindAll callRe body) as [|m ms IH]; intros acc; simpl; [done|].
  destruct (@parseCall R1 body m) as [call|e] eqn:Hc; [|done].
  rewrite (parseCall_Ok_irrel R1 R2 _ _ _ Hc). apply IH.
Qed.

Context `{GoMapRange}.

Lemma parseCallsLoop_Err (body : string) (matches : list regexp.match_)
    (calls : list Call) (m : regexp.match_) :
  m ∈ matches → isErr (parseCall body m) = true →
  isErr (parseCallsLoop body matches calls) = true.
Proof.
  revert calls. induction matches as [|m' ms IH]; intros calls Hin Hm.
  - by apply elem_of_nil in Hin.
  - simpl. destruct (parseCall body m') as [call|e] eqn:Hc; [|done].
    apply elem_of_cons in Hin as [->|Hin]; [by rewrite Hc in Hm|]. by apply IH.
Qed.

Lemma parseBlocks_Err (blocks : list block) (s : Schema) (b : block) :
  b ∈ blocks → name b = "Calls" → isErr (parseCalls (body b)) = true →
  isErr (parseBlocks blocks s) = true.
Proof.
  revert s. induction blocks as [|b' blocks IH]; intros s Hin Hname Hb.
  - by apply elem_of_nil in Hin.
  - apply elem_of_cons in Hin as [<-|Hin].
    + simpl. rewrite bool_decide_eq_true_2 //. by destruct (parseCalls (body b)).
    + simpl. repeat case_bool_decide.
      * destruct (parseCalls (body b')); [by apply IH|done].
      * by apply IH.
      * by apply IH.
      * by apply IH.
Qed.

Context `{FilePath}.

Lemma Parse_Err (parseFile : Parser → string → run Schema) (p p' : Parser)
    (content : string) (b : block) (r : result Schema) :
  b ∈ extractBlocks content → name b = "Calls" → isErr (parseCalls (body b)) = true →
  Parse parseFile p content = Some (p', r) → isErr r = true.
Proof.
  intros Hin Hname Hb. rewrite /Parse.
  destruct (parseIncludes _ _ _ _) as [[p1 [incs|e]]|]; [| |done].
  - intros [= <- <-]. by eapply parseBlocks_Err.
  - by intros [= <- <-].
Qed.

End ValidationAborts.

(** C5. Validation of a call fails exactly when some [{param}] segment of
    its path has no argument of the same name, or its verb is POST, PUT or
    PATCH and more than one of its arguments matches no path parameter.
    [updateContact] validates, with [id] routed to the path and [input] to
    the body; [foo] fails.  A call that fails validation makes [parseCalls]
    fail, and with it [Parse] and [ParseFile] of the whole file. *)
Theorem C5_call_validation `{GoMapRange} :
  (∀ c, is_Some (schema.Validate c) ↔
        spec.unmatchedSegment c
        ∨ (spec.bodyStyle (schema.Method c) ∧ spec.severalNonPathArgs c))
  ∧ (parser.parseCalls examples.updateContactLine = Ok [examples.updateContactCall]
     ∧ schema.PathArgNames examples.updateContactCall = ["id"]
     ∧ schema.ArgName <$> schema.BodyArg examples.updateContactCall = Some "input")
  ∧ (∃ msg, parser.parseCalls examples.fooLine = Err (ValidationError "foo" msg))
  ∧ (∀ body m matches calls,
       m ∈ matches → isErr (parser.parseCall body m) = true →
       isErr (parser.parseCallsLoop body matches calls) = true)
  ∧ (∀ (F : FilePath) parseFile p p' content b r,
       b ∈ parser.extractBlocks content → parser.name b = "Calls" →
       isErr (parser.parseCalls (parser.body b)) = true →
       parser.Parse parseFile p content = Some (p', r) → isErr r = true)
  ∧ (∃ p e, @parser.ParseFile _ (unixFilePath "/api") 1
              {[ "/api/foo.sdl" := examples.fooFile ]} parser.New "foo.sdl"
            = Some (p, Err (Wrap "parsing foo.sdl" (Wrap "parsing Calls block"
                                 (ValidationError "foo" e))))).
Proof.
  split; [apply Validate_spec|].
  split.
  { split; [|done].
    by apply (parseCalls_Ok_irrel examples.rangeInOrder). }
  split; [by eexists|].
  split; [intros; by eapply parseCallsLoop_Err|].
  split; [intros; by eapply Parse_Err|].
  by do 2 eexists.
Qed.

(** ** The merge *)

Section MergeLoops.
Import merger spec.
Context `{GoMapRange} `{GoParser}.

Lemma rangeMap_elem_of (m : gmap string string) (k v : string) :
  (k, v) ∈ rangeMap m ↔ m !! k = Some v.
Proof. by rewrite rangeMap_perm elem_of_map_to_list. Qed.

Lemma rangeMap_NoDup (m : gmap string string) : NoDup (rangeMap m).*1.
Proof. rewrite rangeMap_perm. apply NoDup_fst_map_to_list. Qed.

(** The set built by ranging over a map is the set of its keys. *)
Lemma rangeMap_keys (m : gmap string string) :
  list_to_set (C := gset string) (rangeMap m).*1 = dom m.
Proof.
  apply set_eq. intros k.
  rewrite elem_of_list_to_set list_elem_of_fmap elem_of_dom. split.
  - intros ([k' v] & -> & Hin). apply rangeMap_elem_of in Hin. eauto.
  - intros [v Hv]. exists (k, v). split; [done|]. by apply rangeMap_elem_of.
Qed.

(** The map of [extractMethods] holds, for every name, the last block of
    that name. *)
Lemma foldl_insert_lookup (l : list methodBlock) (acc : gmap string string) (n : string) :
  foldl (λ methods m, <[name m := content m]> methods) acc l !! n
  = match last (filter (λ m, name m = n) l) with
    | Some m => Some (content m)
    | None => acc !! n
    end.
Proof.
  revert acc. induction l as [|m l IH]; intros acc; [done|].
  simpl. rewrite IH filter_cons. destruct (decide (name m = n)) as [<-|Hne].
  - destruct (filter _ l) as [|m' l'] eqn:Hf; simpl.
    + by rewrite lookup_insert_eq.
    + by rewrite last_cons; destruct (last l').
  - destruct (last (filter _ l)); [done|]. by rewrite lookup_insert_ne.
Qed.

Lemma extractMethods_lookup (text n : string) :
  extractMethods text !! n
  = content <$> last (filter (λ m, name m = n) (extractMethodsOrdered text)).
Proof.
  rewrite /extractMethods foldl_insert_lookup.
  by destruct (last _).
Qed.

Lemma extractMethods_dom (text n : string) :
  n ∈ dom (extractMethods text) ↔ n ∈ name <$> extractMethodsOrdered text.
Proof.
  rewrite elem_of_dom extractMethods_lookup list_elem_of_fmap. split.
  - intros [impl Hl]. destruct (last _) as [m|] eqn:Hm; [|done].
    apply last_Some in Hm as [pre Hm].
    assert (m ∈ filter (λ m, name m = n) (extractMethodsOrdered text)) as Hin
      by (rewrite Hm; apply elem_of_app; right; by left).
    apply list_elem_of_filter in Hin as [<- ?]. by exists m.
  - intros (m & -> & Hin).
    assert (m ∈ filter (λ m', name m' = name m) (extractMethodsOrdered text)) as Hf
      by by apply list_elem_of_filter.
    destruct (filter _ _) as [|m0 l0] eqn:E; [by apply elem_of_nil in Hf|].
    destruct (last (m0 :: l0)) eqn:Hl; [by eexists|].
    by apply last_None in Hl.
Qed.

Lemma extractMethods_elem (text n impl : string) :
  extractMethods text !! n = Some impl →
  {| name := n; content := impl |} ∈ extractMethodsOrdered text.
Proof.
  rewrite extractMethods_lookup. destruct (last _) as [m|] eqn:Hm; [|done].
  intros [= <-]. apply last_Some in Hm as [pre Hm].
  assert (m ∈ filter (λ m, name m = n) (extractMethodsOrdered text)) as Hin
    by (rewrite Hm; apply elem_of_app; right; by left).
  apply list_elem_of_filter in Hin as [<- ?]. by destruct m.
Qed.

(** *** The first loop: what it leaves in [preservedMethods] *)

Lemma classify_preserved_other (new : gset string) (l : list (string * string))
    (st : mergeState) (k : string) :
  (∀ v, (k, v) ∈ l → ¬ (k ∈ new ∧ isGeneratedStub v = false)) →
  preservedMethods (foldl (classify new) st l) !! k = preservedMethods st !! k.
Proof.
  revert st. induction l as [|[k' v'] l IH]; intros st Hno; [done|].
  assert (∀ v, (k, v) ∈ l → ¬ (k ∈ new ∧ isGeneratedStub v = false)) as Hno'
    by (intros v Hv; apply Hno; by right).
  simpl. rewrite (IH _ Hno').
  case_bool_decide as Hin; [|done].
  destruct (isGeneratedStub v') eqn:Hs; [done|]. simpl.
  destruct (decide (k' = k)) as [->|Hne]; [|by rewrite lookup_insert_ne].
  exfalso. apply (Hno v'); [by left|done].
Qed.

Lemma classify_preserved_here (new : gset string) (l : list (string * string))
    (st : mergeState) (k v : string) :
  NoDup l.*1 → (k, v) ∈ l → k ∈ new → isGeneratedStub v = false →
  preservedMethods (foldl (classify new) st l) !! k = Some v.
Proof.
  revert st. induction l as [|[k' v'] l IH]; intros st Hnd Hin Hnew Hs.
  - by apply elem_of_nil in Hin.
  - apply NoDup_cons in Hnd as [Hk' Hnd].
    apply elem_of_cons in Hin as [[= <- <-]|Hin].
    + assert (∀ v', (k, v') ∈ l → ¬ (k ∈ new ∧ isGeneratedStub v' = false)) as Hno.
      { intros v' Hv'. exfalso. apply Hk'. apply list_elem_of_fmap. by exists (k, v'). }
      simpl. rewrite (classify_preserved_other _ _ _ _ Hno).
      by rewrite bool_decide_eq_true_2 // Hs /= lookup_insert_eq.
    + simpl. by apply IH.
Qed.

(** *** The first loop: the archive and the reports *)

Lemma classify_removed (new : gset string) (l : list (string * string)) (st : mergeState) :
  existingRemoved (foldl (classify new) st l) = existingRemoved st ++ removedOf new l
  ∧ removedNames (foldl (classify new) st l) = removedNames st ++ (name <$> removedOf new l).
Proof.
  revert st. induction l as [|[k v] l IH]; intros st.
  - by rewrite /removedOf /= !app_nil_r.
  - cbn [foldl]. destruct (IH (classify new st (k, v))) as [-> ->].
    rewrite /removedOf filter_cons /=. case_bool_decide as Hin.
    + rewrite (decide_False (P := k ∉ new)); [|by intros ?].
      by destruct (isGeneratedStub v).
    + rewrite (decide_True (P := k ∉ new)) //=. by rewrite -!app_assoc.
Qed.

Lemma classify_preservedNames (new : gset string) (l : list (string * string))
    (st : mergeState) :
  preservedNames (foldl (classify new) st l)
  = preservedNames st
    ++ (filter (λ e, e.1 ∈ new ∧ isGeneratedStub e.2 = false) l).*1.
Proof.
  revert st. induction l as [|[k v] l IH]; intros st.
  - by rewrite /= app_nil_r.
  - cbn [foldl]. rewrite IH filter_cons.
    destruct (decide ((k, v).1 ∈ new ∧ isGeneratedStub (k, v).2 = false)) as [[Hin Hs]|Hn];
      simpl in *.
    + rewrite bool_decide_eq_true_2 // Hs /=. by rewrite -app_assoc.
    + case_bool_decide; [|done].
      destruct (isGeneratedStub v) eqn:Hs; [done|]. exfalso. by apply Hn.
Qed.

End MergeLoops.

Section MergeContent.
Import merger spec.
Context `{GoMapRange} `{GoParser}.

Lemma concatMap_ext {A} (f g : A → string) (l : list A) :
  (∀ x, x ∈ l → f x = g x) → concatMap f l = concatMap g l.
Proof.
  induction l as [|x l IH]; intros Hfg; [done|].
  rewrite /= Hfg; [|by left]. rewrite IH; [done|]. intros y Hy. apply Hfg. by right.
Qed.

Lemma concatMap_app {A} (f : A → string) (l1 l2 : list A) :
  concatMap f (l1 ++ l2) = concatMap f l1 +:+ concatMap f l2.
Proof.
  induction l1 as [|x l1 IH]; [done|].
  by rewrite /= IH app_assoc_s.
Qed.


Lemma occursIn_middle (x y a b : string) : occursIn x y → occursIn x (a +:+ y +:+ b).
Proof.
  intros (c & d & ->). exists (a +:+ c), (d +:+ b). by rewrite !app_assoc_s.
Qed.


Lemma occursIn_tail (x a b : string) : occursIn x (a +:+ b +:+ x).
Proof. exists (a +:+ b), EmptyString. by rewrite app_empty_r app_assoc_s. Qed.

(** What [MergeContent] returns, with its first loop summed up. *)
Lemma MergeContent_eq (generated existing : string) :
  let new : gset string := dom (extractMethods (belowMarker generated)) in
  let entries := rangeMap (extractMethods (belowMarker existing)) in
  let st :=
    foldl (classify new)
      {| preservedMethods := ∅; preservedNames := [];
         existingRemoved := extractRemovedSection (belowMarker existing);
         removedNames := [] |} entries in
  MergeContent generated existing
  = {| Content :=
         preserveHandlerStructFields (splitAtMarker generated).1 (splitAtMarker existing).1
         +:+ nl +:+ marker +:+ handlersHeader
         +:+ concatMap (writeMethod (preservedMethods st))
               (extractMethodsOrdered (belowMarker generated))
         +:+ (nl +:+ nl) +:+ removedMarker
         +:+ concatMap writeRemoved
               (extractRemovedSection (belowMarker existing) ++ removedOf new entries);
       PreservedMethods :=
         (filter (λ e, e.1 ∈ new ∧ isGeneratedStub e.2 = false) entries).*1;
       RemovedMethods := name <$> removedOf new entries |}.
Proof.
  intros new entries st.
  rewrite /MergeContent /belowMarker.
  destruct (splitAtMarker existing) as [existingAbove existingBelow] eqn:He.
  destruct (splitAtMarker generated) as [generatedAbove generatedBelow] eqn:Hg.
  rewrite rangeMap_keys.
  rewrite /st /entries /new /belowMarker He Hg /=.
  pose proof (classify_removed (dom (extractMethods generatedBelow))
                (rangeMap (extractMethods existingBelow))
                {| preservedMethods := ∅; preservedNames := [];
                   existingRemoved := extractRemovedSection existingBelow;
                   removedNames := [] |}) as [-> ->].
  by rewrite classify_preservedNames.
Qed.

(** What the first loop leaves in [preservedMethods] for a generated method. *)
Lemma preserved_lookup (generated existing : string) (m : methodBlock) :
  let new : gset string := dom (extractMethods (belowMarker generated)) in
  let prior := extractMethods (belowMarker existing) in
  m ∈ extractMethodsOrdered (belowMarker generated) →
  ∀ st0, preservedMethods st0 = ∅ →
  writeMethod (preservedMethods (foldl (classify new) st0 (rangeMap prior))) m
  = nl +:+ mergedBody prior m.
Proof.
  intros new prior Hm st0 Hst0.
  assert (name m ∈ new) as Hnew.
  { apply extractMethods_dom, list_elem_of_fmap. by exists m. }
  rewrite /writeMethod /mergedBody.
  destruct (prior !! name m) as [impl|] eqn:Hprior.
  - destruct (isGeneratedStub impl) eqn:Hstub.
    + rewrite classify_preserved_other; [by rewrite Hst0 lookup_empty|].
      intros v Hv%rangeMap_elem_of [_ Hs]. congruence.
    + rewrite (classify_preserved_here _ _ _ (name m) impl) //.
      * apply rangeMap_NoDup.
      * by apply rangeMap_elem_of.
  - rewrite classify_preserved_other; [by rewrite Hst0 lookup_empty|].
    intros v Hv%rangeMap_elem_of. congruence.
Qed.

End MergeContent.


Section MergeArchive.
Import merger spec.
Context `{GoMapRange} `{GoParser}.

Lemma removedOf_elem_of (new : gset string) (m : gmap string string) (e : methodBlock) :
  e ∈ removedOf new (rangeMap m) ↔ m !! name e = Some (content e) ∧ name e ∉ new.
Proof.
  rewrite /removedOf list_elem_of_fmap. split.
  - intros ([k v] & -> & [Hnew Hin]%list_elem_of_filter). simpl in *.
    by apply rangeMap_elem_of in Hin.
  - intros [Hm Hnew]. exists (name e, content e). split; [by destruct e|].
    apply list_elem_of_filter. split; [done|]. by apply rangeMap_elem_of.
Qed.


Lemma filter_none {A} (P : A → Prop) `{∀ x, Decision (P x)} (l : list A) :
  (∀ x, x ∈ l → ¬ P x) → filter P l = [].
Proof.
  induction l as [|x l IH]; intros Hno; [done|].
  rewrite filter_cons decide_False; [|apply Hno; by left].
  apply IH. intros y Hy. apply Hno. by right.
Qed.

Lemma ReplaceFirst_same (s old : string) : strings.ReplaceFirst s old old = s.
Proof.
  induction s as [|c s IH]; simpl.
  - destruct (strings.HasPrefix EmptyString old) eqn:Hp; [|done].
    apply HasPrefix_inv in Hp as [t Ht]. destruct old; [done|]. by rewrite app_cons in Ht.
  - destruct (strings.HasPrefix (String c s) old) eqn:Hp; [|by rewrite IH].
    apply HasPrefix_inv in Hp as [t ->]. by rewrite drop_app_length.
Qed.

Lemma preserveHandlerStructFields_same (above : string) :
  preserveHandlerStructFields above above = above.
Proof.
  rewrite /preserveHandlerStructFields. repeat case_match; try done.
  apply ReplaceFirst_same.
Qed.

End MergeArchive.


(** C4. When every method body below the marker of a generated text [A] is
    an unmodified stub, merging [A] against no prior output returns [A]
    as it is, and merging [A] against that result writes, below the marker,
    the header, the method bodies of [A] verbatim and in their order, and
    the archive scaffolding; nothing is reported preserved or removed and
    the region above the marker is that of [A]. *)
Theorem C4_merge_is_noop_on_unmodified_stubs `{GoMapRange} `{GoParser}
    (readFile : string → readOutcome) (A existingPath : string) (e : error) :
  readFile existingPath = ReadNotExist e →
  Forall (λ m, merger.isGeneratedStub (merger.content m) = true)
    (merger.extractMethodsOrdered (spec.belowMarker A)) →
  merger.Merge readFile A existingPath
  = Ok {| merger.Content := A; merger.PreservedMethods := []; merger.RemovedMethods := [] |}
  ∧ merger.MergeContent A A
    = {| merger.Content :=
           (merger.splitAtMarker A).1 +:+ nl +:+ merger.marker +:+ merger.handlersHeader
           +:+ merger.concatMap (λ m, nl +:+ merger.content m)
                 (merger.extractMethodsOrdered (spec.belowMarker A))
           +:+ (nl +:+ nl) +:+ merger.removedMarker
           +:+ merger.concatMap merger.writeRemoved
                 (merger.extractRemovedSection (spec.belowMarker A));
         merger.PreservedMethods := [];
         merger.RemovedMethods := [] |}.
Proof.
  intros Hread Hstubs. split; [by rewrite /merger.Merge Hread|].
  rewrite Forall_forall in Hstubs.
  assert (∀ n impl, merger.extractMethods (spec.belowMarker A) !! n = Some impl →
            merger.isGeneratedStub impl = true) as Hprior.
  { intros n impl Hn%extractMethods_elem. by apply Hstubs in Hn. }
  rewrite MergeContent_eq preserveHandlerStructFields_same.
  assert (spec.removedOf (dom (merger.extractMethods (spec.belowMarker A)))
            (rangeMap (merger.extractMethods (spec.belowMarker A))) = []) as ->.
  { rewrite /spec.removedOf filter_none; [done|].
    intros [k v] Hin%rangeMap_elem_of Hno. apply Hno, elem_of_dom. by eexists. }
  rewrite filter_none.
  2: { intros [k v] Hin%rangeMap_elem_of [_ Hs]. apply Hprior in Hin. simpl in *. congruence. }
  rewrite app_nil_r /=.
  rewrite (concatMap_ext (merger.writeMethod _) (λ m, nl +:+ merger.content m));
    [reflexivity|].
  intros m Hm. rewrite preserved_lookup //.
  rewrite /spec.mergedBody. destruct (_ !! _) as [impl|] eqn:Hp; [|done].
  by rewrite (Hprior _ _ Hp).
Qed.

(** ** The parser: what [Parse] and [ParseFile] keep *)

Section ParserInvariants.
Import schema parser.
Context `{GoMapRange} `{FilePath}.

(** A property of the parser state that every run of [parseFile] keeps is
    kept by the loop over the include directives, and so by [Parse]. *)
Lemma parseIncludes_keeps (I : Parser → Prop) (parseFile : Parser → string → run Schema) :
  (∀ p path p' r, I p → parseFile p path = Some (p', r) → I p') →
  ∀ paths p acc p' r,
    I p → parseIncludes parseFile p paths acc = Some (p', r) → I p'.
Proof.
  intros Hpf paths. induction paths as [|path paths IH]; intros p acc p' r Hp; simpl.
  - by intros [= <- _].
  - rewrite /parseInclude.
    destruct (parseFile p _) as [[p1 [s|e]]|] eqn:Hrun; [| |done].
    + intros Hrest. eapply IH; [|done]. by eapply Hpf.
    + intros [= <- _]. by eapply Hpf.
Qed.

Lemma Parse_keeps (I : Parser → Prop) (parseFile : Parser → string → run Schema) :
  (∀ p path p' r, I p → parseFile p path = Some (p', r) → I p') →
  ∀ p content p' r, I p → Parse parseFile p content = Some (p', r) → I p'.
Proof.
  intros Hpf p content p' r Hp. rewrite /Parse.
  destruct (parseIncludes _ _ _ _) as [[p1 [incs|e]]|] eqn:Hinc; [| |done].
  - intros [= <- _]. by eapply parseIncludes_keeps.
  - intros [= <- _]. by eapply parseIncludes_keeps.
Qed.

(** The loop over the blocks fills [Calls], [Types] and [Inputs] only. *)
Lemma parseBlocks_keeps (blocks : list block) (s s' : Schema) :
  parseBlocks blocks s = Ok s' →
  Base s' = Base s ∧ Models s' = Models s ∧ Includes s' = Includes s ∧ Enums s' = Enums s.
Proof.
  revert s. induction blocks as [|b blocks IH]; intros s; simpl.
  - by intros [= <-].
  - repeat case_bool_decide.
    + destruct (parseCalls _); [|done]. by intros ?%IH.
    + rewrite /parseTypeDef /parseFields. by intros ?%IH.
    + rewrite /parseInputDef /parseFields. by intros ?%IH.
    + apply IH.
Qed.

Lemma Parse_Ok (parseFile : Parser → string → run Schema) (p p' : Parser)
    (content : string) (s : Schema) :
  Parse parseFile p content = Some (p', Ok s) →
  Base s = match regexp.Find baseRe content with
           | Some m => regexp.submatch content m 1
           | None => EmptyString
           end
  ∧ Models s = match regexp.Find modelsRe content with
               | Some m => regexp.submatch content m 1
               | None => EmptyString
               end
  ∧ Enums s = [].
Proof.
  rewrite /Parse.
  destruct (parseIncludes _ _ _ _) as [[p1 [incs|e]]|]; [| |done]; [|done].
  intros [= _ Hs]. apply parseBlocks_keeps in Hs as (-> & -> & _ & ->). done.
Qed.

(** A schema the cache holds stays in the cache, under its key, whatever
    else is parsed. *)
Lemma ParseFile_cache_kept (fuel : nat) (fs : FS) (p p' : Parser) (path : string)
    (r : result Schema) (k : string) (s : Schema) :
  cache p !! k = Some s → ParseFile fuel fs p path = Some (p', r) →
  cache p' !! k = Some s.
Proof.
  revert p p' path r. induction fuel as [|fuel IH]; intros p p' path r Hk; [done|].
  simpl. destruct (Abs path) as [absPath|e]; [|by intros [= <- _]].
  destruct (cache p !! absPath) as [cached|] eqn:Hc; [by intros [= <- _]|].
  destruct (fs !! absPath) as [data|]; [|by intros [= <- _]].
  destruct (Parse _ _ data) as [[p1 [s1|e]]|] eqn:HP; [| |done].
  - intros [= <- _]. simpl. rewrite lookup_insert_ne; [|congruence].
    eapply (Parse_keeps (λ q, cache q !! k = Some s)); [|shelve|exact HP].
    + intros ????. apply IH.
    Unshelve. done.
  - intros [= <- _].
    eapply (Parse_keeps (λ q, cache q !! k = Some s)); [|shelve|exact HP].
    + intros ????. apply IH.
    Unshelve. done.
Qed.

(** A schema [ParseFile] returns is in the cache under the absolute path. *)
Lemma ParseFile_Ok_cached (fuel : nat) (fs : FS) (p p' : Parser) (path : string)
    (s : Schema) :
  ParseFile fuel fs p path = Some (p', Ok s) →
  ∃ absPath, Abs path = Ok absPath ∧ cache p' !! absPath = Some s.
Proof.
  destruct fuel as [|fuel]; [done|]. simpl.
  destruct (Abs path) as [absPath|e]; [|done].
  destruct (cache p !! absPath) as [cached|] eqn:Hc.
  - intros [= <- <-]. eauto.
  - destruct (fs !! absPath) as [data|]; [|done].
    destruct (Parse _ _ data) as [[p1 [s1|e]]|]; [| |done]; [|done].
    intros [= <- <-]. exists absPath. split; [done|]. by rewrite /= lookup_insert_eq.
Qed.

Lemma ParseFile_hit (fuel : nat) (fs : FS) (p : Parser) (path absPath : string)
    (s : Schema) :
  Abs path = Ok absPath → cache p !! absPath = Some s →
  ParseFile (S fuel) fs p path = Some (p, Ok s).
Proof. intros Ha Hc. by rewrite /= Ha Hc. Qed.

(** No schema in the cache has an enum, and none that is returned has. *)
Lemma ParseFile_no_enums (fuel : nat) (fs : FS) (p p' : Parser) (path : string)
    (r : result Schema) :
  (∀ k s, cache p !! k = Some s → Enums s = []) →
  ParseFile fuel fs p path = Some (p', r) →
  (∀ k s, cache p' !! k = Some s → Enums s = [])
  ∧ (∀ s, r = Ok s → Enums s = []).
Proof.
  revert p p' path r. induction fuel as [|fuel IH]; intros p p' path r Hinv; [done|].
  simpl. destruct (Abs path) as [absPath|e]; [|by intros [= <- <-]].
  destruct (cache p !! absPath) as [cached|] eqn:Hc.
  { intros [= <- <-]. split; [done|]. intros s [= <-]. by eapply Hinv. }
  destruct (fs !! absPath) as [data|]; [|by intros [= <- <-]].
  destruct (Parse _ _ data) as [[p1 [s1|e]]|] eqn:HP; [| |done].
  - assert (∀ k s, cache p1 !! k = Some s → Enums s = []) as Hinv1.
    { eapply (Parse_keeps (λ q, ∀ k s, cache q !! k = Some s → Enums s = []));
        [|shelve|exact HP].
      + intros q path' q' r' Hq Hrun. by destruct (IH _ _ _ _ Hq Hrun).
      Unshelve. done. }
    apply Parse_Ok in HP as (_ & _ & Hen).
    intros [= <- <-]. split.
    + intros k s. simpl. destruct (decide (absPath = k)) as [->|Hne].
      * rewrite lookup_insert_eq. by intros [= <-].
      * rewrite lookup_insert_ne //. apply Hinv1.
    + by intros s [= <-].
  - intros [= <- <-]. split; [|done].
    eapply (Parse_keeps (λ q, ∀ k s, cache q !! k = Some s → Enums s = []));
      [|shelve|exact HP].
    + intros q path' q' r' Hq Hrun. by destruct (IH _ _ _ _ Hq Hrun).
    Unshelve. done.
Qed.

End ParserInvariants.

(** C9. Once [ParseFile] has returned a schema for a path, every later
    [ParseFile] of a path with the same absolute path returns that schema
    and leaves the parser as it is, whatever the file system then holds and
    whatever was parsed in between: nothing is read or parsed again. *)
Theorem C9_parse_cache_by_absolute_path `{GoMapRange} `{FilePath}
    (fuel : nat) (fs : parser.FS) (p p' : parser.Parser) (path : string)
    (s : schema.Schema) :
  parser.ParseFile fuel fs p path = Some (p', Ok s) →
  (∀ fuel' fs' path',
     Abs path' = Abs path →
     parser.ParseFile (S fuel') fs' p' path' = Some (p', Ok s))
  ∧ (∀ fuel1 fs1 path1 p1 r1,
       parser.ParseFile fuel1 fs1 p' path1 = Some (p1, r1) →
       ∀ fuel' fs' path',
         Abs path' = Abs path →
         parser.ParseFile (S fuel') fs' p1 path' = Some (p1, Ok s)).
Proof.
  intros (absPath & Ha & Hc)%ParseFile_Ok_cached. split.
  - intros fuel' fs' path' Heq. eapply ParseFile_hit; [by rewrite Heq|done].
  - intros fuel1 fs1 path1 p1 r1 Hrun fuel' fs' path' Heq.
    eapply ParseFile_hit; [by rewrite Heq|]. by eapply ParseFile_cache_kept.
Qed.

(** C10. No schema that [Parse] or [ParseFile] produces has an enum; an
    enum block of the input leaves no trace in the schema. *)
Theorem C10_enums_always_empty `{GoMapRange} `{FilePath} :
  (∀ parseFile p content p' s,
     parser.Parse parseFile p content = Some (p', Ok s) → schema.Enums s = [])
  ∧ (∀ fuel fs path p' s,
       parser.ParseFile fuel fs parser.New path = Some (p', Ok s) → schema.Enums s = [])
  ∧ (∃ p s, parser.Parse examples.noIncludes parser.New examples.enumFile = Some (p, Ok s)
            ∧ schema.Enums s = []
            ∧ schema.TypeName <$> schema.Types s = ["Contact"]
            ∧ schema.Inputs s = [] ∧ schema.Calls s = []).
Proof.
  split; [|split].
  - intros parseFile p content p' s Hs. by apply Parse_Ok in Hs as (_ & _ & ?).
  - intros fuel fs path p' s Hrun.
    eapply ParseFile_no_enums in Hrun as [_ Hr]; [by apply Hr|done].
  - set (r := parser.Parse _ _ _). vm_compute in r. subst r. by eexists _, _.
Qed.

(** ** The directive scanner *)

Lemma findFrom_head (r : regexp.regex) (pos : nat) (s : string) :
  regexp.findFrom r pos s = head (regexp.findAllFrom r pos 0 s).
Proof.
  revert pos. induction s as [|c s IH]; intros pos; simpl.
  - by destruct (regexp.matchAt r pos EmptyString).
  - destruct (regexp.matchAt r pos (String c s)); [done|]. apply IH.
Qed.

(** [FindStringSubmatch] returns the first of the matches that
    [FindAllStringSubmatch] returns. *)
Lemma Find_first (r : regexp.regex) (s : string) :
  regexp.Find r s = head (regexp.FindAll r s).
Proof. apply findFrom_head. Qed.

Lemma directive_first (re : regexp.regex) (content : string) :
  match regexp.Find re content with
  | Some m => regexp.submatch content m 1
  | None => EmptyString
  end = default EmptyString (head (spec.directiveArgs re content)).
Proof.
  rewrite Find_first /spec.directiveArgs. by destruct (regexp.FindAll re content).
Qed.

(** C7, as amended. The base path and the package reference of a schema
    are those of the first base-path directive and of the first
    package-reference directive of the file, and empty when the file has
    none. *)
Theorem C7_first_directive_wins `{GoMapRange} `{FilePath}
    (parseFile : parser.Parser → string → parser.run schema.Schema)
    (p p' : parser.Parser) (content : string) (s : schema.Schema) :
  parser.Parse parseFile p content = Some (p', Ok s) →
  schema.Base s = default EmptyString (head (spec.directiveArgs parser.baseRe content))
  ∧ schema.Models s = default EmptyString (head (spec.directiveArgs parser.modelsRe content)).
Proof.
  intros (-> & -> & _)%Parse_Ok. by rewrite !directive_first.
Qed.

(** C7, as stated, fails: of two base-path directives and two
    package-reference directives the schema has the first ones, not the
    last ones. *)
Lemma C7_last_directive_does_not_win :
  ∃ p s,
    @parser.Parse examples.rangeInOrder (unixFilePath "/proj")
      examples.noIncludes parser.New examples.twoBases = Some (p, Ok s)
    ∧ spec.directiveArgs parser.baseRe examples.twoBases = ["/v1"; "/v2"]
    ∧ spec.directiveArgs parser.modelsRe examples.twoBases
      = ["example.com/first"; "example.com/second"]
    ∧ Some (schema.Base s) ≠ last (spec.directiveArgs parser.baseRe examples.twoBases)
    ∧ Some (schema.Models s) ≠ last (spec.directiveArgs parser.modelsRe examples.twoBases).
Proof.
  set (r := parser.Parse _ _ _). vm_compute in r. subst r. eexists _, _.
  split; [reflexivity|]. by vm_compute.
Qed.

Lemma C7_first_directive_wins_witness :
  ∃ p s,
    @parser.Parse examples.rangeInOrder (unixFilePath "/proj")
      examples.noIncludes parser.New examples.twoBases = Some (p, Ok s)
    ∧ schema.Base s = "/v1" ∧ schema.Models s = "example.com/first".
Proof.
  assert (∃ p s, @parser.Parse examples.rangeInOrder (unixFilePath "/proj")
      examples.noIncludes parser.New examples.twoBases = Some (p, Ok s)) as (p & s & Hs).
  { set (r := parser.Parse _ _ _). vm_compute in r. subst r. by eexists _, _. }
  exists p, s. split; [done|].
  exact (C7_first_directive_wins _ _ _ _ _ Hs).
Defined.

Lemma C9_parse_cache_by_absolute_path_witness :
  ∃ p s,
    @parser.ParseFile examples.rangeInOrder (unixFilePath "/proj") 2
      examples.projectFiles parser.New "sub/a.sdl" = Some (p, Ok s)
    ∧ @parser.ParseFile examples.rangeInOrder (unixFilePath "/proj") 1
        ∅ p "/proj/sub/../sub/a.sdl" = Some (p, Ok s).
Proof.
  assert (∃ p s, @parser.ParseFile examples.rangeInOrder (unixFilePath "/proj") 2
      examples.projectFiles parser.New "sub/a.sdl" = Some (p, Ok s)) as (p & s & Hs).
  { set (r := parser.ParseFile _ _ _ _). vm_compute in r. subst r. by eexists _, _. }
  exists p, s. split; [done|].
  apply (proj1 (C9_parse_cache_by_absolute_path _ _ _ _ _ _ Hs)).
  by vm_compute.
Defined.

(** C6, on the code. The main file of [projectFiles], in [/proj], includes
    [sub/a.sdl] and then [b.sdl]: the second directive is resolved in
    [/proj/sub], the directory of the first included file, where [ParseFile]
    left [baseDir], and not in [/proj]. *)
Lemma C6_second_include_resolved_in_directory_of_first :
  ∃ p s,
    @parser.ParseFile examples.rangeInOrder (unixFilePath "/proj") 2
      examples.projectFiles parser.New "/proj/main.sdl" = Some (p, Ok s)
    ∧ schema.Includes s
      = [ {| schema.IncPath := "sub/a.sdl"; schema.IncNamespace := "a";
             schema.IncModels := "example.com/a" |};
          {| schema.IncPath := "b.sdl"; schema.IncNamespace := "b";
             schema.IncModels := "example.com/other" |} ]
    ∧ is_Some (parser.cache p !! "/proj/sub/b.sdl")
    ∧ parser.cache p !! "/proj/b.sdl" = None
    ∧ parser.baseDir p = "/proj/sub".
Proof.
  set (r := parser.ParseFile _ _ _ _). vm_compute in r. subst r. eexists _, _.
  split; [reflexivity|]. split; [reflexivity|].
  split; [vm_compute; by eexists|]. split; by vm_compute.
Qed.

(** ** The merge on the sample files *)

Lemma C4_merge_is_noop_on_unmodified_stubs_witness :
  let A := examples.generatedFile in
  @merger.Merge examples.rangeInOrder examples.sampleGoParser
    examples.noExistingFile A "routes/contacts_routes.go"
  = Ok {| merger.Content := A; merger.PreservedMethods := []; merger.RemovedMethods := [] |}
  ∧ @merger.MergeContent examples.rangeInOrder examples.sampleGoParser A A
    = {| merger.Content :=
           examples.aboveMarker "// add dependencies here" +:+ nl +:+ merger.marker
           +:+ merger.handlersHeader
           +:+ merger.concatMap (λ m, nl +:+ m)
                 [examples.decodingStub "CreateContact"; examples.plainStub "GetContact"]
           +:+ (nl +:+ nl) +:+ merger.removedMarker;
         merger.PreservedMethods := [];
         merger.RemovedMethods := [] |}.
Proof.
  assert (Forall (λ m, @merger.isGeneratedStub examples.sampleGoParser (merger.content m) = true)
            (merger.extractMethodsOrdered (spec.belowMarker examples.generatedFile)))
    as Hstubs.
  { set (l := merger.extractMethodsOrdered _). vm_compute in l. subst l.
    repeat (constructor; [vm_compute; reflexivity|]). constructor. }
  destruct (@C4_merge_is_noop_on_unmodified_stubs
              examples.rangeInOrder examples.sampleGoParser
              examples.noExistingFile examples.generatedFile
              "routes/contacts_routes.go" (PathError "open" "routes/contacts_routes.go")
              eq_refl Hstubs) as [Hfirst Hsecond].
  split; [exact Hfirst|]. rewrite Hsecond. by vm_compute.
Defined.

(** ** Matching a pattern, piece by piece *)

Section RegexRuns.
Import regexp spec.

Lemma run_Seq (r1 r2 : regex) (pos : nat) (s : string) (cs : caps) (k : cont) :
  regexp.run (Seq r1 r2) pos s cs k
  = regexp.run r1 pos s cs (λ pos' s' cs', regexp.run r2 pos' s' cs' k).
Proof. done. Qed.

Lemma run_Group (i : nat) (r : regex) (pos : nat) (s : string) (cs : caps) (k : cont) :
  regexp.run (Group i r) pos s cs k
  = regexp.run r pos s cs (λ pos' s' cs', k pos' s' ((i, (pos, pos')) :: cs')).
Proof. done. Qed.

Lemma run_Lit_app (l : string) (pos : nat) (s : string) (cs : caps) (k : cont) :
  regexp.run (Lit l) pos (l +:+ s) cs k = k (pos + String.length l) s cs.
Proof.
  cbn [regexp.run]. revert pos. induction l as [|c l IH]; intros pos.
  - by rewrite app_empty_l /= Nat.add_0_r.
  - rewrite app_cons. cbn [lit String.length]. by rewrite Ascii.eqb_refl IH Nat.add_succ_r.
Qed.

Lemma run_Lit_mismatch (c d : ascii) (l s : string) (pos : nat) (cs : caps) (k : cont) :
  c ≠ d → regexp.run (Lit (String c l)) pos (String d s) cs k = None.
Proof. intros Hne. cbn [regexp.run lit]. by destruct (Ascii.eqb_spec c d). Qed.

(** The greedy repetition takes all of [t] when what follows [t] does not
    go on, and the rest of the pattern then matches. *)
Lemma star_app (p : ascii → bool) (t s : string) (pos : nat) (cs : caps) (k : cont)
    (r : nat * caps) :
  allChars p t = true →
  match s with EmptyString => true | String d _ => negb (p d) end = true →
  k (pos + String.length t) s cs = Some r →
  star p pos (t +:+ s) cs k = Some r.
Proof.
  intros Ht Hs. revert pos. induction t as [|c t IH]; intros pos Hk.
  - rewrite app_empty_l. rewrite /= Nat.add_0_r in Hk.
    destruct s as [|d s']; [done|]. cbn [star].
    apply negb_true_iff in Hs. by rewrite Hs.
  - simpl in Ht. apply andb_true_iff in Ht as [Hc Ht].
    rewrite app_cons. cbn [star]. rewrite Hc IH //.
    by rewrite /= Nat.add_succ_r in Hk.
Qed.

Lemma run_Star_app (p : ascii → bool) (t s : string) (pos : nat) (cs : caps) (k : cont)
    (r : nat * caps) :
  allChars p t = true →
  match s with EmptyString => true | String d _ => negb (p d) end = true →
  k (pos + String.length t) s cs = Some r →
  regexp.run (Star p) pos (t +:+ s) cs k = Some r.
Proof. apply star_app. Qed.

Lemma run_Plus_app (p : ascii → bool) (t s : string) (pos : nat) (cs : caps) (k : cont)
    (r : nat * caps) :
  t ≠ EmptyString → allChars p t = true →
  match s with EmptyString => true | String d _ => negb (p d) end = true →
  k (pos + String.length t) s cs = Some r →
  regexp.run (Plus p) pos (t +:+ s) cs k = Some r.
Proof.
  intros Hne Ht Hs Hk. destruct t as [|c t]; [done|].
  simpl in Ht. apply andb_true_iff in Ht as [Hc Ht].
  rewrite app_cons. cbn [regexp.run]. rewrite Hc.
  apply star_app; [done|done|]. by rewrite /= Nat.add_succ_r in Hk.
Qed.

Lemma run_Opt_take (r1 : regex) (pos : nat) (s : string) (cs : caps) (k : cont)
    (r : nat * caps) :
  regexp.run r1 pos s cs k = Some r → regexp.run (Opt r1) pos s cs k = Some r.
Proof. intros Hr. cbn [regexp.run]. by rewrite Hr. Qed.

Lemma run_Opt_skip (c d : ascii) (l s : string) (pos : nat) (cs : caps) (k : cont) :
  c ≠ d →
  regexp.run (Opt (Lit (String c l))) pos (String d s) cs k = k pos (String d s) cs.
Proof.
  intros Hne. change (regexp.run (Opt (Lit (String c l))) pos (String d s) cs k)
    with (match regexp.run (Lit (String c l)) pos (String d s) cs k with
          | Some x => Some x
          | None => k pos (String d s) cs
          end).
  by rewrite run_Lit_mismatch.
Qed.

Lemma run_Alt_left (r1 r2 : regex) (pos : nat) (s : string) (cs : caps) (k : cont)
    (r : nat * caps) :
  regexp.run r1 pos s cs k = Some r → regexp.run (Alt r1 r2) pos s cs k = Some r.
Proof. intros Hr. cbn [regexp.run]. by rewrite Hr. Qed.

(** After a match that reaches the end of the text there is no other, for
    a pattern that does not match the empty text. *)
Lemma findAllFrom_skip (r : regex) (pos skip : nat) (s : string) :
  (∀ n, matchAt r n EmptyString = None) →
  String.length s ≤ skip → findAllFrom r pos skip s = [].
Proof.
  intros Hempty. revert pos skip. induction s as [|c s IH]; intros pos skip Hlen.
  - destruct skip; [|done]. cbn [findAllFrom]. by rewrite Hempty.
  - destruct skip as [|skip]; [simpl in Hlen; lia|].
    cbn [findAllFrom]. apply IH. simpl in Hlen. lia.
Qed.

End RegexRuns.

(** ** Type references *)

Section TypeReferences.
Import schema parser spec.

Lemma HasPrefix_cons_ne (c d : ascii) (s p : string) :
  c ≠ d → strings.HasPrefix (String d s) (String c p) = false.
Proof.
  intros Hne. cbn [strings.HasPrefix]. by destruct (Ascii.eqb_spec c d).
Qed.

Lemma snoc_decompose (s : string) :
  s ≠ EmptyString → ∃ t c, s = t +:+ String c EmptyString.
Proof.
  induction s as [|d s IH]; [done|]. intros _.
  destruct s as [|d' s'].
  - by exists EmptyString, d.
  - destruct IH as (t & c & ->); [done|]. by exists (String d t), c.
Qed.

Lemma HasSuffix_app (s suf : string) : strings.HasSuffix (s +:+ suf) suf = true.
Proof.
  apply bool_decide_eq_true. rewrite length_app_s. split; [|lia].
  replace (String.length s + String.length suf - String.length suf) with (String.length s)
    by lia.
  apply drop_app_length.
Qed.

Lemma TrimSuffix_app (s suf : string) : strings.TrimSuffix (s +:+ suf) suf = s.
Proof.
  rewrite /strings.TrimSuffix HasSuffix_app length_app_s.
  replace (String.length s + String.length suf - String.length suf) with (String.length s)
    by lia.
  apply take_app_length.
Qed.

Lemma HasSuffix_snoc_ne (s : string) (c d : ascii) :
  c ≠ d → strings.HasSuffix (s +:+ String c EmptyString) (String d EmptyString) = false.
Proof.
  intros Hne. apply bool_decide_eq_false. rewrite length_app_s /=.
  replace (String.length s + 1 - 1) with (String.length s) by lia.
  rewrite drop_app_length. intros [[= ?] _]. done.
Qed.

Lemma TrimSuffix_snoc_ne (s : string) (c d : ascii) :
  c ≠ d →
  strings.TrimSuffix (s +:+ String c EmptyString) (String d EmptyString)
  = s +:+ String c EmptyString.
Proof. intros Hne. by rewrite /strings.TrimSuffix HasSuffix_snoc_ne. Qed.

Lemma allChars_snoc (P : ascii → bool) (s : string) (c : ascii) :
  allChars P (s +:+ String c EmptyString) = true → allChars P s = true ∧ P c = true.
Proof.
  rewrite allChars_app /= andb_true_r. by intros [??]%andb_true_iff.
Qed.

Lemma slice_brackets (x : string) :
  strings.slice ("[" +:+ x +:+ "]") 1 (String.length ("[" +:+ x +:+ "]") - 1) = x.
Proof.
  rewrite /strings.slice !length_app_s.
  change (strings.drop 1 ("[" +:+ x +:+ "]")) with (x +:+ "]").
  change (String.length "[") with 1. change (String.length "]") with 1.
  replace (1 + (String.length x + 1) - 1 - 1) with (String.length x) by lia.
  apply take_app_length.
Qed.

(** The three steps of [parseTypeStr], one at a time. *)
Lemma parseTypeStr_steps (typeStr inner bare : string) (required isList : bool) :
  strings.HasSuffix typeStr "!" = required →
  (if required then strings.TrimSuffix typeStr "!" else typeStr) = inner →
  strings.HasPrefix inner "[" && strings.HasSuffix inner "]" = isList →
  (if isList then strings.slice inner 1 (String.length inner - 1) else inner) = bare →
  parseTypeStr typeStr = (strings.TrimSuffix bare "!", required, isList).
Proof. by intros <- <- <- <-. Qed.

(** Parsing the canonical text of a type reference gives back its name and
    its flags. *)
Lemma parseTypeStr_canonical (required isList : bool) (T : string) :
  typeName T → parseTypeStr (canonicalTypeRef required isList T) = (T, required, isList).
Proof.
  intros [Hne Hchars].
  destruct (snoc_decompose T Hne) as (t & c & HT).
  assert (wordOrDot c = true) as Hc
    by (rewrite HT in Hchars; apply allChars_snoc in Hchars as [_ ?]; done).
  assert (c ≠ "!"%char ∧ c ≠ "]"%char) as [Hbang Hbracket].
  { split; intros ->; by vm_compute in Hc. }
  assert (strings.HasPrefix T "[" = false) as Hprefix.
  { destruct T as [|d T']; [done|]. simpl in Hchars. apply andb_true_iff in Hchars as [Hd _].
    apply HasPrefix_cons_ne. intros <-. by vm_compute in Hd. }
  assert (strings.HasSuffix T "!" = false) as HTbang by (rewrite HT; by apply HasSuffix_snoc_ne).
  assert (strings.TrimSuffix T "!" = T) as HTtrim by by rewrite /strings.TrimSuffix HTbang.
  rewrite /canonicalTypeRef. destruct isList, required.
  - rewrite (parseTypeStr_steps _ ("[" +:+ T +:+ "!]") (T +:+ "!") true true).
    + by rewrite TrimSuffix_app.
    + replace ("[" +:+ T +:+ "!]!") with (("[" +:+ T +:+ "!]") +:+ "!")
        by by rewrite !app_assoc_s.
      apply HasSuffix_app.
    + replace ("[" +:+ T +:+ "!]!") with (("[" +:+ T +:+ "!]") +:+ "!")
        by by rewrite !app_assoc_s.
      apply TrimSuffix_app.
    + rewrite HasPrefix_app /=.
      replace ("[" +:+ T +:+ "!]") with (("[" +:+ T +:+ "!") +:+ "]")
        by by rewrite !app_assoc_s.
      apply HasSuffix_app.
    + replace ("[" +:+ T +:+ "!]") with ("[" +:+ (T +:+ "!") +:+ "]")
        by by rewrite !app_assoc_s.
      apply slice_brackets.
  - rewrite (parseTypeStr_steps _ ("[" +:+ T +:+ "]") T false true).
    + by rewrite HTtrim.
    + replace ("[" +:+ T +:+ "]") with (("[" +:+ T) +:+ String "]" EmptyString)
        by by rewrite !app_assoc_s.
      by apply HasSuffix_snoc_ne.
    + done.
    + rewrite HasPrefix_app /=.
      replace ("[" +:+ T +:+ "]") with (("[" +:+ T) +:+ "]") by by rewrite !app_assoc_s.
      apply HasSuffix_app.
    + apply slice_brackets.
  - rewrite (parseTypeStr_steps _ T T true false).
    + by rewrite HTtrim.
    + apply HasSuffix_app.
    + apply TrimSuffix_app.
    + by rewrite Hprefix.
    + done.
  - rewrite (parseTypeStr_steps _ T T false false).
    + by rewrite HTtrim.
    + done.
    + done.
    + by rewrite Hprefix.
    + done.
Qed.

(** *** Arguments and fields *)

Lemma allChars_impl (P Q : ascii → bool) (s : string) :
  (∀ c, P c = true → Q c = true) → allChars P s = true → allChars Q s = true.
Proof.
  intros HPQ. induction s as [|c s IH]; [done|]. simpl.
  intros [Hc Hs]%andb_true_iff. by rewrite (HPQ _ Hc) IH.
Qed.

Lemma TrimRightSpace_snoc (s : string) (c : ascii) :
  strings.isSpace c = false →
  strings.TrimRightSpace (s +:+ String c EmptyString) = s +:+ String c EmptyString.
Proof.
  intros Hc. induction s as [|d s IH].
  - by rewrite app_empty_l /= Hc.
  - rewrite app_cons. cbn [strings.TrimRightSpace]. rewrite IH.
    by destruct s.
Qed.

Lemma TrimSpace_id (a c : ascii) (r t : string) :
  strings.isSpace a = false → strings.isSpace c = false →
  String a r = t +:+ String c EmptyString →
  strings.TrimSpace (String a r) = String a r.
Proof.
  intros Ha Hc Heq. rewrite /strings.TrimSpace. cbn [strings.TrimLeftSpace].
  rewrite Ha Heq. by apply TrimRightSpace_snoc.
Qed.

Lemma TrimSpace_blank (a c : ascii) (r t : string) :
  strings.isSpace a = false → strings.isSpace c = false →
  String a r = t +:+ String c EmptyString →
  strings.TrimSpace (" " +:+ String a r) = String a r.
Proof.
  intros Ha Hc Heq. rewrite /strings.TrimSpace.
  change (" " +:+ String a r) with (String " " (String a r)).
  cbn [strings.TrimLeftSpace]. change (strings.isSpace " ") with true. cbn iota.
  rewrite Ha Heq. by apply TrimRightSpace_snoc.
Qed.

Lemma Index_first_char (s rest : string) (c : ascii) :
  allChars (λ d, negb (Ascii.eqb c d)) s = true →
  strings.Index (s +:+ String c rest) (String c EmptyString) = Some (String.length s).
Proof.
  induction s as [|d s IH]; intros Hs.
  - rewrite app_empty_l. cbn [strings.Index strings.HasPrefix]. by rewrite Ascii.eqb_refl.
  - simpl in Hs. apply andb_true_iff in Hs as [Hd Hs].
    rewrite app_cons. cbn [strings.Index strings.HasPrefix].
    apply negb_true_iff in Hd. rewrite Hd IH //.
Qed.

Lemma splitArgsLoop_no_comma (s current : string) (depth : Z) (parts : list string) :
  allChars (λ c, negb (Ascii.eqb c ",")) s = true →
  splitArgsLoop s depth current parts
  = if bool_decide (0 < String.length (current +:+ s)) then parts ++ [current +:+ s]
    else parts.
Proof.
  revert current depth. induction s as [|ch s IH]; intros current depth Hs.
  - by rewrite app_empty_r.
  - simpl in Hs. apply andb_true_iff in Hs as [Hch Hs]. apply negb_true_iff in Hch.
    cbn [splitArgsLoop]. rewrite Hch.
    destruct (Ascii.eqb ch "["), (Ascii.eqb ch "]"); rewrite IH // app_snoc //.
Qed.

Lemma SplitChar_none (s : string) (sep : ascii) :
  allChars (λ c, negb (Ascii.eqb c sep)) s = true → strings.SplitChar s sep = [s].
Proof.
  induction s as [|c s IH]; [done|]. simpl.
  intros [Hc Hs]%andb_true_iff. apply negb_true_iff in Hc. by rewrite Hc IH.
Qed.

(** One turn of the loop of [parseArgs] on a part with a colon. *)
Lemma parseArgsLoop_step (part trimmed : string) (parts : list string) (args : list Arg)
    (colonIdx : nat) :
  strings.TrimSpace part = trimmed → trimmed ≠ EmptyString →
  strings.Index trimmed ":" = Some colonIdx →
  parseArgsLoop (part :: parts) args
  = let '(ty, required, isList) :=
      parseTypeStr (strings.TrimSpace (strings.drop (S colonIdx) trimmed)) in
    parseArgsLoop parts
      (args ++ [{| ArgName := strings.TrimSpace (strings.take colonIdx trimmed);
                   ArgType := ty; ArgRequired := required; ArgIsList := isList |}]).
Proof.
  intros Ht Hne Hi. cbn [parseArgsLoop]. rewrite Ht bool_decide_eq_false_2 // Hi //.
Qed.

(** One turn of the loop of [parseFields] on a line with a colon. *)
Lemma parseFieldsLoop_step (line trimmed : string) (lines : list string)
    (fields : list Field) (colonIdx : nat) :
  strings.TrimSpace line = trimmed → trimmed ≠ EmptyString →
  strings.HasPrefix trimmed "#" = false →
  strings.Index trimmed ":" = Some colonIdx →
  parseFieldsLoop (line :: lines) fields
  = let '(ty, required, isList) :=
      parseTypeStr (strings.TrimSpace (strings.drop (S colonIdx) trimmed)) in
    parseFieldsLoop lines
      (fields ++ [{| FieldName := strings.TrimSpace (strings.take colonIdx trimmed);
                     FieldType := ty; FieldRequired := required; FieldIsList := isList |}]).
Proof.
  intros Ht Hne Hp Hi. cbn [parseFieldsLoop].
  rewrite Ht bool_decide_eq_false_2 // Hp Hi //.
Qed.

(** *** The characters of names and of canonical type references *)

Lemma wordOrDot_plain :
  ∀ c, wordOrDot c = true →
       strings.isSpace c = false ∧ negb (Ascii.eqb c ",") = true
       ∧ negb (Ascii.eqb c "010") = true ∧ c ≠ "#"%char.
Proof. by_ascii_cases. Qed.

Lemma word_plain :
  ∀ c, regexp.word c = true →
       wordOrDot c = true ∧ negb (Ascii.eqb ":" c) = true.
Proof. by_ascii_cases. Qed.

(** A predicate that holds of the characters of names, of the brackets and
    of the exclamation mark holds of the characters of a canonical type
    reference. *)
Lemma allChars_canonical (Q : ascii → bool) (required isList : bool) (T : string) :
  (∀ c, wordOrDot c = true → Q c = true) →
  Q "["%char = true → Q "]"%char = true → Q "!"%char = true →
  typeName T → allChars Q (canonicalTypeRef required isList T) = true.
Proof.
  intros Hw Hopen Hclose Hbang [_ HT].
  pose proof (allChars_impl _ Q T Hw HT) as HQ.
  rewrite /canonicalTypeRef.
  destruct isList, required; rewrite ?allChars_app /= ?HQ ?Hopen ?Hclose ?Hbang //.
Qed.

Lemma canonical_first (required isList : bool) (T : string) :
  typeName T →
  ∃ a r, canonicalTypeRef required isList T = String a r ∧ strings.isSpace a = false.
Proof.
  intros [Hne HT]. destruct T as [|a T']; [done|].
  simpl in HT. apply andb_true_iff in HT as [Ha _].
  apply wordOrDot_plain in Ha as (Ha & _).
  rewrite /canonicalTypeRef. destruct isList, required; eauto.
Qed.

Lemma canonical_last (required isList : bool) (T : string) :
  typeName T →
  ∃ t c, canonicalTypeRef required isList T = t +:+ String c EmptyString
         ∧ strings.isSpace c = false.
Proof.
  intros [Hne HT]. destruct (snoc_decompose T Hne) as (t & c & ->).
  apply allChars_snoc in HT as [_ Hc]. apply wordOrDot_plain in Hc as (Hc & _).
  rewrite /canonicalTypeRef. destruct isList, required.
  - exists ("[" +:+ (t +:+ String c EmptyString) +:+ "!]"), "!"%char.
    split; [by rewrite !app_assoc_s|done].
  - exists ("[" +:+ (t +:+ String c EmptyString)), "]"%char.
    split; [by rewrite !app_assoc_s|done].
  - exists (t +:+ String c EmptyString), "!"%char. split; [done|done].
  - by exists t, c.
Qed.

Lemma drop_S_app (x rest : string) (c : ascii) :
  strings.drop (S (String.length x)) (x +:+ String c rest) = rest.
Proof. induction x as [|d x IH]; [done|]. by rewrite app_cons. Qed.

(** What the parsers see of a declaration with a canonical type. *)
Lemma declaration_facts (x T : string) (required isList : bool) :
  identifier x → typeName T →
  let line := declaration x (canonicalTypeRef required isList T) in
  line ≠ EmptyString
  ∧ strings.TrimSpace line = line
  ∧ strings.HasPrefix line "#" = false
  ∧ strings.Index line ":" = Some (String.length x)
  ∧ strings.TrimSpace (strings.take (String.length x) line) = x
  ∧ strings.TrimSpace (strings.drop (S (String.length x)) line)
    = canonicalTypeRef required isList T
  ∧ allChars (λ c, negb (Ascii.eqb c ",")) line = true
  ∧ allChars (λ c, negb (Ascii.eqb c "010")) line = true.
Proof.
  intros [Hx Hxc] HT line.
  destruct (canonical_first required isList T HT) as (a & r & Hfirst & Ha).
  destruct (canonical_last required isList T HT) as (t & c & Hlast & Hc).
  destruct x as [|b x']; [done|].
  assert (regexp.word b = true) as Hb by (simpl in Hxc; by apply andb_true_iff in Hxc as [? _]).
  apply word_plain in Hb as [Hb _]. apply wordOrDot_plain in Hb as (Hbs & _ & _ & Hbh).
  destruct (snoc_decompose (String b x') Hx) as (tx & cx & Hxlast).
  assert (strings.isSpace cx = false) as Hcx.
  { rewrite Hxlast in Hxc. apply allChars_snoc in Hxc as [_ Hcx].
    apply word_plain in Hcx as [Hcx _]. by apply wordOrDot_plain in Hcx as (? & _). }
  assert (line = String b (x' +:+ String ":" (" " +:+ canonicalTypeRef required isList T)))
    as Hline by done.
  assert (line = (String b x' +:+ ": " +:+ t) +:+ String c EmptyString) as Hline'.
  { rewrite /line /declaration Hlast. by rewrite !app_assoc_s. }
  assert (allChars (λ d, negb (Ascii.eqb ":" d)) (String b x') = true) as Hcolon.
  { eapply allChars_impl; [|exact Hxc]. intros d Hd. by apply word_plain in Hd as [_ ?]. }
  split; [by rewrite Hline|].
  split.
  { rewrite Hline. eapply TrimSpace_id; [done|exact Hc|]. by rewrite -Hline. }
  split.
  { rewrite Hline. apply HasPrefix_cons_ne. by intros <-. }
  split.
  { rewrite Hline -app_cons. by apply Index_first_char. }
  split.
  { rewrite Hline -app_cons take_app_length.
    exact (TrimSpace_id b cx x' tx Hbs Hcx Hxlast). }
  split.
  { rewrite Hline -app_cons drop_S_app Hfirst. rewrite Hfirst in Hlast.
    exact (TrimSpace_blank a c r t Ha Hc Hlast). }
  assert (∀ Q : ascii → bool,
            (∀ c, wordOrDot c = true → Q c = true) →
            Q "["%char = true → Q "]"%char = true → Q "!"%char = true → Q ":"%char = true → Q " "%char = true →
            allChars Q line = true) as Hall.
  { intros Q Hw Ho Hcl Hbg Hcol Hsp. rewrite /line /declaration !allChars_app.
    rewrite (allChars_impl _ Q _ (λ d Hd, Hw d (proj1 (word_plain d Hd))) Hxc).
    rewrite (allChars_canonical Q) //=. by rewrite Hcol Hsp. }
  split; apply Hall; try done; intros d Hd; by apply wordOrDot_plain in Hd as (_ & ? & ? & _).
Qed.

(** An argument written with a canonical type reference parses to that
    name, that type name and those flags. *)
Lemma parseArgs_canonical (x T : string) (required isList : bool) :
  identifier x → typeName T →
  parseArgs (declaration x (canonicalTypeRef required isList T))
  = Ok [{| ArgName := x; ArgType := T; ArgRequired := required; ArgIsList := isList |}].
Proof.
  intros Hx HT.
  destruct (declaration_facts x T required isList Hx HT)
    as (Hne & Htrim & _ & Hidx & Hname & Htype & Hcomma & _).
  rewrite /parseArgs Htrim bool_decide_eq_false_2 //.
  assert (0 < String.length (declaration x (canonicalTypeRef required isList T))) as Hlen
    by (destruct (declaration _ _); [done|simpl; lia]).
  rewrite /splitArgs splitArgsLoop_no_comma // app_empty_l bool_decide_eq_true_2 //.
  rewrite (parseArgsLoop_step _ _ _ _ _ Htrim Hne Hidx).
  by rewrite Hname Htype parseTypeStr_canonical.
Qed.

(** A field written with a canonical type reference parses to that name,
    that type name and those flags. *)
Lemma parseFields_canonical (x T : string) (required isList : bool) :
  identifier x → typeName T →
  parseFields (declaration x (canonicalTypeRef required isList T))
  = Ok [{| FieldName := x; FieldType := T; FieldRequired := required;
           FieldIsList := isList |}].
Proof.
  intros Hx HT.
  destruct (declaration_facts x T required isList Hx HT)
    as (Hne & Htrim & Hhash & Hidx & Hname & Htype & _ & Hnl).
  rewrite /parseFields SplitChar_none //.
  rewrite (parseFieldsLoop_step _ _ _ _ _ Htrim Hne Hhash Hidx).
  by rewrite Hname Htype parseTypeStr_canonical.
Qed.

End TypeReferences.

Section ReturnTypes.
Import regexp schema parser spec.

(** The return-type group of [callRe] takes a canonical type reference whole
    when a blank follows it. *)
Lemma run_returnType (required isList : bool) (T tail : string) (pos : nat) (cs : caps)
    (k : cont) (r : nat * caps) :
  typeName T →
  let canon := canonicalTypeRef required isList T in
  k (pos + String.length canon) (String " " tail)
    ((3, (pos, pos + String.length canon)) :: cs) = Some r →
  regexp.run (Group 3 returnTypeRe) pos (canon +:+ String " " tail) cs k = Some r.
Proof.
  intros [Hne HT] canon Hk.
  assert (∃ c T', T = String c T' ∧ c ≠ "["%char) as (c & T' & HTc & Hc).
  { destruct T as [|c T']; [done|]. exists c, T'. split; [done|].
    simpl in HT. apply andb_true_iff in HT as [Hc _]. intros ->. by vm_compute in Hc. }
  rewrite run_Group /returnTypeRe /seq. cbn [foldr].
  rewrite /canon /canonicalTypeRef in Hk |- *.
  destruct isList, required; rewrite ?app_assoc_s.
  - rewrite run_Seq. apply run_Opt_take. rewrite run_Lit_app.
    rewrite run_Seq. apply run_Plus_app; [done|done|done|].
    rewrite run_Seq. apply run_Opt_take. rewrite (run_Lit_app "!").
    rewrite run_Seq. apply run_Opt_take. rewrite (run_Lit_app "]").
    rewrite run_Seq. apply run_Opt_take. rewrite (run_Lit_app "!").
    rewrite (run_Lit_app EmptyString). rewrite -Hk. f_equal; [|do 3 f_equal];
      rewrite !length_app_s /=; lia.
  - rewrite run_Seq. apply run_Opt_take. rewrite run_Lit_app.
    rewrite run_Seq. apply run_Plus_app; [done|done|done|].
    rewrite run_Seq. change ("]" +:+ String " " tail) with (String "]" (String " " tail)).
    rewrite run_Opt_skip; [|done].
    rewrite run_Seq. apply run_Opt_take.
    change (String "]" (String " " tail)) with ("]" +:+ String " " tail).
    rewrite (run_Lit_app "]").
    rewrite run_Seq. rewrite run_Opt_skip; [|done].
    rewrite (run_Lit_app EmptyString). rewrite -Hk. f_equal; [|do 3 f_equal];
      rewrite !length_app_s /=; lia.
  - rewrite {1}HTc app_cons. rewrite run_Seq run_Opt_skip; [|congruence]. rewrite -app_cons -HTc.
    rewrite run_Seq. apply run_Plus_app; [done|done|done|].
    rewrite run_Seq. apply run_Opt_take. rewrite (run_Lit_app "!").
    rewrite run_Seq run_Opt_skip; [|done].
    rewrite run_Seq run_Opt_skip; [|done].
    rewrite (run_Lit_app EmptyString). rewrite -Hk. f_equal; [|do 3 f_equal];
      rewrite !length_app_s /=; lia.
  - rewrite {1}HTc app_cons. rewrite run_Seq run_Opt_skip; [|congruence]. rewrite -app_cons -HTc.
    rewrite run_Seq. apply run_Plus_app; [done|done|done|].
    rewrite run_Seq run_Opt_skip; [|done].
    rewrite run_Seq run_Opt_skip; [|done].
    rewrite run_Seq run_Opt_skip; [|done].
    rewrite (run_Lit_app EmptyString). rewrite -Hk. f_equal; [|do 3 f_equal];
      rewrite ?length_app_s /=; lia.
Qed.

Lemma run_Star_stop (p : ascii → bool) (s : string) (pos : nat) (cs : caps) (k : cont) :
  match s with EmptyString => true | String d _ => negb (p d) end = true →
  regexp.run (Star p) pos s cs k = k pos s cs.
Proof.
  intros Hs. cbn [regexp.run]. destruct s as [|d s]; [done|].
  cbn [star]. apply negb_true_iff in Hs. by rewrite Hs.
Qed.

Lemma slice_at (pre mid post : string) (a b : nat) :
  a = String.length pre → b = a + String.length mid →
  strings.slice (pre +:+ mid +:+ post) a b = mid.
Proof.
  intros -> ->. rewrite /strings.slice drop_app_length.
  replace (String.length pre + String.length mid - String.length pre)
    with (String.length mid) by lia.
  apply take_app_length.
Qed.

(** [callRe] matches the whole of a call [list] with a canonical return
    type, and its groups are the name, the empty argument list, the return
    type, the verb and the path. *)
Lemma matchAt_listCall (required isList : bool) (T : string) :
  typeName T →
  let canon := canonicalTypeRef required isList T in
  let n := String.length canon in
  matchAt callRe 0 (listCall canon)
  = Some {| m_start := 0; m_end := 18 + n;
            m_caps := [(5, (15 + n, 16 + n)); (4, (10 + n, 13 + n)); (3, (8, 8 + n));
                       (2, (5, 5)); (1, (0, 4))] |}.
Proof.
  intros HT canon n.
  destruct (canonical_first required isList T HT) as (a & rest & Hfirst & Ha).
  assert (space a = false) as Hspace.
  { revert Ha. clear. destruct a as [[] [] [] [] [] [] [] []]; by vm_compute. }
  assert (listCall canon
          = "list" +:+ "(" +:+ ")" +:+ ":" +:+ " " +:+ canon
            +:+ String " " ("@" +:+ "get" +:+ "(" +:+ dq +:+ "/" +:+ dq +:+ ")")) as ->.
  { done. }
  rewrite /matchAt.
  assert (regexp.run callRe 0
            ("list" +:+ "(" +:+ ")" +:+ ":" +:+ " " +:+ canon
             +:+ String " " ("@" +:+ "get" +:+ "(" +:+ dq +:+ "/" +:+ dq +:+ ")"))
            [] (λ e _ cs, Some (e, cs))
          = Some (18 + n, [(5, (15 + n, 16 + n)); (4, (10 + n, 13 + n)); (3, (8, 8 + n));
                           (2, (5, 5)); (1, (0, 4))])) as ->; [|done].
  rewrite /callRe /seq. cbn [foldr].
  rewrite run_Seq run_Group. apply run_Plus_app; [done|done|done|].
  rewrite run_Seq run_Star_stop; [|done].
  rewrite run_Seq (run_Lit_app "(").
  rewrite run_Seq run_Group run_Star_stop; [|done].
  rewrite run_Seq (run_Lit_app ")").
  rewrite run_Seq run_Star_stop; [|done].
  rewrite run_Seq (run_Lit_app ":").
  rewrite run_Seq. apply (run_Star_app space " "); [done| |].
  { rewrite /canon Hfirst app_cons. by rewrite Hspace. }
  rewrite run_Seq. apply run_returnType; [done|].
  rewrite run_Seq. apply (run_Star_app space " " _); [done|done|].
  rewrite run_Seq (run_Lit_app "@").
  rewrite run_Seq run_Group. apply run_Alt_left. rewrite (run_Lit_app "get").
  rewrite run_Seq run_Star_stop; [|done].
  rewrite run_Seq (run_Lit_app "(").
  rewrite run_Seq run_Star_stop; [|done].
  rewrite run_Seq (run_Lit_app dq).
  rewrite run_Seq run_Group. apply (run_Plus_app _ "/"); [done|done|done|].
  rewrite run_Seq (run_Lit_app dq).
  rewrite run_Seq run_Star_stop; [|done].
  rewrite run_Seq (run_Lit_app ")").
  rewrite (run_Lit_app EmptyString).
  rewrite /dq. cbn [String.length]. fold canon. fold n.
  repeat first [lia | f_equal].
Qed.

Lemma callRe_not_empty (n : nat) : matchAt callRe n EmptyString = None.
Proof. done. Qed.

Lemma FindAll_single (r : regex) (s : string) (m : match_) :
  (∀ n, matchAt r n EmptyString = None) →
  matchAt r 0 s = Some m → 0 < String.length s ≤ m_end m →
  FindAll r s = [m].
Proof.
  intros Hempty Hm [Hpos Hlen]. destruct s as [|c s]; [simpl in Hpos; lia|].
  rewrite /FindAll. cbn [findAllFrom]. rewrite Hm. f_equal.
  apply findAllFrom_skip; [done|]. simpl in Hlen. lia.
Qed.

(** A call written with a canonical return type parses to that type name
    and those flags. *)
Lemma parseCalls_canonical `{GoMapRange} (required isList : bool) (T : string) :
  typeName T →
  parseCalls (listCall (canonicalTypeRef required isList T))
  = Ok [{| CallName := "list"; Method := "GET"; Path := "/"; Args := [];
           ReturnType := T; ReturnRequired := required; ReturnIsList := isList |}].
Proof.
  intros HT.
  pose proof (matchAt_listCall required isList T HT) as Hm. cbv zeta in Hm.
  set (canon := canonicalTypeRef required isList T) in *.
  set (n := String.length canon) in *.
  set (m := {| m_start := 0; m_end := 18 + n; m_caps := _ |}) in Hm.
  assert (String.length (listCall canon) = 18 + n) as Hlen.
  { rewrite /listCall !length_app_s /dq /=. fold n. lia. }
  rewrite /parseCalls (FindAll_single _ _ m callRe_not_empty Hm); [|rewrite Hlen /=; lia].
  assert (submatch (listCall canon) m 1 = "list") as H1.
  { rewrite /submatch /=. by apply (slice_at EmptyString "list"). }
  assert (submatch (listCall canon) m 2 = EmptyString) as H2.
  { rewrite /submatch /= /strings.slice. by rewrite Nat.sub_diag. }
  assert (submatch (listCall canon) m 3 = canon) as H3.
  { rewrite /submatch /=.
    replace (listCall canon) with ("list(): " +:+ canon +:+ " @get(" +:+ dq +:+ "/" +:+ dq +:+ ")")
      by done.
    by apply slice_at. }
  assert (submatch (listCall canon) m 4 = "get") as H4.
  { rewrite /submatch /=.
    replace (listCall canon) with (("list(): " +:+ canon +:+ " @") +:+ "get" +:+ ("(" +:+ dq +:+ "/" +:+ dq +:+ ")"))
      by by rewrite /listCall !app_assoc_s.
    apply slice_at; [rewrite !length_app_s /=; fold n; lia|simpl; lia]. }
  assert (submatch (listCall canon) m 5 = "/") as H5.
  { rewrite /submatch /=.
    replace (listCall canon) with (("list(): " +:+ canon +:+ " @get(" +:+ dq) +:+ "/" +:+ (dq +:+ ")"))
      by by rewrite /listCall !app_assoc_s.
    apply slice_at; [rewrite !length_app_s /dq /=; fold n; lia|simpl; lia]. }
  cbn [parseCallsLoop]. rewrite /parseCall H1 H2 H3 H4 H5.
  rewrite /canon parseTypeStr_canonical //.
  change (parseArgs EmptyString) with (@Ok (list Arg) []). cbn iota.
  change (strings.ToUpper "get") with "GET".
  rewrite (Validate_None_irrel examples.rangeInOrder) //.
Qed.

End ReturnTypes.

(** C8. For each of the four combinations of the required flag and the list
    flag, the canonical text of a type reference ([T], [T!], [[T]],
    [[T!]!]) parses, as the type of an argument, of a field and as a return
    type, to exactly these flags and the bare type name, and rendering the
    parsed flags and name canonically gives the text back. *)
Theorem C8_type_reference_round_trip `{GoMapRange} (required isList : bool) (x T : string) :
  spec.identifier x → spec.typeName T →
  let text := spec.canonicalTypeRef required isList T in
  (∃ a, parser.parseArgs (spec.declaration x text) = Ok [a]
        ∧ schema.ArgName a = x ∧ schema.ArgType a = T
        ∧ schema.ArgRequired a = required ∧ schema.ArgIsList a = isList
        ∧ spec.canonicalTypeRef (schema.ArgRequired a) (schema.ArgIsList a) (schema.ArgType a)
          = text)
  ∧ (∃ f, parser.parseFields (spec.declaration x text) = Ok [f]
          ∧ schema.FieldName f = x ∧ schema.FieldType f = T
          ∧ schema.FieldRequired f = required ∧ schema.FieldIsList f = isList
          ∧ spec.canonicalTypeRef (schema.FieldRequired f) (schema.FieldIsList f)
              (schema.FieldType f) = text)
  ∧ (∃ c, parser.parseCalls (spec.listCall text) = Ok [c]
          ∧ schema.ReturnType c = T
          ∧ schema.ReturnRequired c = required ∧ schema.ReturnIsList c = isList
          ∧ spec.canonicalTypeRef (schema.ReturnRequired c) (schema.ReturnIsList c)
              (schema.ReturnType c) = text).
Proof.
  intros Hx HT text. split; [|split].
  - eexists. split; [by apply parseArgs_canonical|done].
  - eexists. split; [by apply parseFields_canonical|done].
  - eexists. split; [by apply parseCalls_canonical|done].
Qed.

Lemma C8_type_reference_round_trip_witness :
  (∃ a, parser.parseArgs "items: [geo.Location!]!" = Ok [a]
        ∧ schema.ArgName a = "items" ∧ schema.ArgType a = "geo.Location"
        ∧ schema.ArgRequired a = true ∧ schema.ArgIsList a = true
        ∧ spec.canonicalTypeRef (schema.ArgRequired a) (schema.ArgIsList a) (schema.ArgType a)
          = "[geo.Location!]!")
  ∧ (∃ f, parser.parseFields "items: [geo.Location!]!" = Ok [f]
          ∧ schema.FieldName f = "items" ∧ schema.FieldType f = "geo.Location"
          ∧ schema.FieldRequired f = true ∧ schema.FieldIsList f = true
          ∧ spec.canonicalTypeRef (schema.FieldRequired f) (schema.FieldIsList f)
              (schema.FieldType f) = "[geo.Location!]!")
  ∧ (∃ c, @parser.parseCalls examples.rangeInOrder (spec.listCall "[geo.Location!]!") = Ok [c]
          ∧ schema.ReturnType c = "geo.Location"
          ∧ schema.ReturnRequired c = true ∧ schema.ReturnIsList c = true
          ∧ spec.canonicalTypeRef (schema.ReturnRequired c) (schema.ReturnIsList c)
              (schema.ReturnType c) = "[geo.Location!]!").
Proof.
  apply (@C8_type_reference_round_trip examples.rangeInOrder true true "items" "geo.Location").
  - split; [done|by vm_compute].
  - split; [done|by vm_compute].
Defined.

(** ** The merge on the sample files, round after round *)

(** The generated file merged with the edited one: the handler fields and
    the written [GetContact] are kept, [CreateContact] is still its stub,
    and [ListContacts], which the schema no longer has, is archived. *)
Example merge_sample :
  @merger.MergeContent examples.rangeInOrder examples.sampleGoParser
    examples.generatedFile examples.editedFile
  = {| merger.Content :=
         examples.aboveMarker "db *sql.DB" +:+ nl +:+ merger.marker +:+ merger.handlersHeader
         +:+ merger.concatMap (λ m, nl +:+ m)
               [examples.decodingStub "CreateContact"; examples.written "GetContact"]
         +:+ (nl +:+ nl) +:+ merger.removedMarker
         +:+ merger.writeRemoved
               {| merger.name := "ListContacts";
                  merger.content := examples.written "ListContacts" |};
       merger.PreservedMethods := ["GetContact"];
       merger.RemovedMethods := ["ListContacts"] |}.
Proof. by vm_compute. Qed.

(** Merging again with that output as the existing file gives the same
    output.  [extractRemovedSection] finds no entry in the archive the merge
    wrote (its pattern allows no [/] before the comment opens and no [*]
    in the body); the archived method is found again by
    [extractMethods], inside its comment, and archived anew. *)
Example merge_sample_again :
  let first := @merger.MergeContent examples.rangeInOrder examples.sampleGoParser
                 examples.generatedFile examples.editedFile in
  @merger.MergeContent examples.rangeInOrder examples.sampleGoParser
    examples.generatedFile (merger.Content first) = first
  ∧ merger.extractRemovedSection (spec.belowMarker (merger.Content first)) = []
  ∧ merger.extractMethods (spec.belowMarker (merger.Content first)) !! "ListContacts"
    = Some (examples.written "ListContacts").
Proof. by vm_compute. Qed.

(** The methods of the output of a merge of the generated file with itself
    are the methods of the generated file. *)
Example merge_sample_unchanged :
  merger.extractMethodsOrdered
    (spec.belowMarker
       (merger.Content
          (@merger.MergeContent examples.rangeInOrder examples.sampleGoParser
             examples.generatedFile examples.generatedFile)))
  = merger.extractMethodsOrdered (spec.belowMarker examples.generatedFile).
Proof. by vm_compute. Qed.

(** * Further properties of the code *)

(** ** Patterns: what a match is *)

Section MatchSoundness.
Import regexp matching spec.

Lemma lit_sound (l : string) (pos : nat) (s : string) (cs : caps) (k : cont)
    (res : nat * caps) :
  lit l pos s cs k = Some res →
  ∃ rest, s = l +:+ rest ∧ k (pos + String.length l) rest cs = Some res.
Proof.
  revert pos s. induction l as [|c l IH]; intros pos s; simpl.
  - intros Hk. exists s. by rewrite Nat.add_0_r app_empty_l.
  - destruct s as [|d s]; [done|]. destruct (Ascii.eqb c d) eqn:E; [|done].
    apply Ascii.eqb_eq in E as ->. intros [rest [-> Hk]]%IH.
    exists rest. split; [by rewrite app_cons|]. by rewrite -Nat.add_succ_comm.
Qed.

Lemma star_sound (p : ascii → bool) (pos : nat) (s : string) (cs : caps) (k : cont)
    (res : nat * caps) :
  star p pos s cs k = Some res →
  ∃ w rest, s = w +:+ rest ∧ allChars p w = true
            ∧ k (pos + String.length w) rest cs = Some res.
Proof.
  revert pos. induction s as [|c s IH]; intros pos; simpl.
  - intros Hk. exists EmptyString, EmptyString. by rewrite Nat.add_0_r.
  - assert (k pos (String c s) cs = Some res →
            ∃ w rest, String c s = w +:+ rest ∧ allChars p w = true
                      ∧ k (pos + String.length w) rest cs = Some res) as Hstop.
    { intros Hk. exists EmptyString, (String c s). by rewrite Nat.add_0_r app_empty_l. }
    destruct (p c) eqn:Hc; [|done].
    destruct (star p (S pos) s cs k) as [r|] eqn:Hs; [|done].
    intros [= ->]. apply IH in Hs as (w & rest & -> & Hw & Hk).
    exists (String c w), rest. rewrite app_cons /= Hc Hw. split; [done|].
    split; [done|]. by rewrite -Nat.add_succ_comm.
Qed.

Lemma run_sound (r : regex) (pos : nat) (s : string) (cs : caps) (k : cont)
    (res : nat * caps) :
  regexp.run r pos s cs k = Some res →
  ∃ w rest cs', s = w +:+ rest ∧ Matches r pos w cs cs'
                ∧ k (pos + String.length w) rest cs' = Some res.
Proof.
  revert pos s cs k res.
  induction r as [l|p|p|p|r IH|r1 IH1 r2 IH2|r1 IH1 r2 IH2|i r IH];
    intros pos s cs k res; cbn [regexp.run].
  - intros (rest & -> & Hk)%lit_sound. exists l, rest, cs. split; [done|].
    split; [constructor|done].
  - destruct s as [|c s]; [done|]. destruct (p c) eqn:Hc; [|done]. intros Hk.
    exists (String c EmptyString), s, cs. rewrite app_cons app_empty_l.
    split; [done|]. split; [by constructor|]. by rewrite /= Nat.add_1_r.
  - intros (w & rest & -> & Hw & Hk)%star_sound. exists w, rest, cs.
    split; [done|]. split; [by constructor|done].
  - destruct s as [|c s]; [done|]. destruct (p c) eqn:Hc; [|done].
    intros (w & rest & -> & Hw & Hk)%star_sound.
    exists (String c w), rest, cs. rewrite app_cons. split; [done|].
    split; [constructor; [done|by rewrite /= Hc Hw]|].
    by rewrite /= -Nat.add_succ_comm.
  - destruct (regexp.run r pos s cs k) as [x|] eqn:Hr.
    + intros [= ->]. apply IH in Hr as (w & rest & cs' & -> & Hm & Hk).
      exists w, rest, cs'. split; [done|]. split; [by apply M_Opt_some|done].
    + intros Hk. exists EmptyString, s, cs. rewrite app_empty_l Nat.add_0_r.
      split; [done|]. split; [apply M_Opt_none|done].
  - destruct (regexp.run r1 pos s cs k) as [x|] eqn:Hr.
    + intros [= ->]. apply IH1 in Hr as (w & rest & cs' & -> & Hm & Hk).
      exists w, rest, cs'. split; [done|]. split; [by apply M_Alt_left|done].
    + intros (w & rest & cs' & -> & Hm & Hk)%IH2.
      exists w, rest, cs'. split; [done|]. split; [by apply M_Alt_right|done].
  - intros (w1 & rest1 & cs1 & -> & Hm1 & (w2 & rest & cs2 & -> & Hm2 & Hk)%IH2)%IH1.
    exists (w1 +:+ w2), rest, cs2. rewrite app_assoc_s. split; [done|].
    split; [by econstructor|]. by rewrite length_app_s Nat.add_assoc.
  - intros (w & rest & cs' & -> & Hm & Hk)%IH.
    exists w, rest, ((i, (pos, pos + String.length w)) :: cs').
    split; [done|]. split; [by constructor|done].
Qed.

(** A match at a position: the text from there on begins with a text the
    pattern matches, and the match ends where that text ends. *)
Lemma matchAt_sound (r : regex) (pos : nat) (s : string) (m : match_) :
  matchAt r pos s = Some m →
  ∃ w rest, s = w +:+ rest ∧ Matches r pos w [] (m_caps m)
            ∧ m_start m = pos ∧ m_end m = pos + String.length w.
Proof.
  rewrite /matchAt.
  destruct (regexp.run r pos s [] _) as [[e cs]|] eqn:Hr; [|done].
  intros [= <-]. apply run_sound in Hr as (w & rest & cs' & -> & Hm & [= <- <-]).
  by exists w, rest.
Qed.

Lemma findAllFrom_sound (r : regex) (pos skip : nat) (s : string) (m : match_) :
  m ∈ findAllFrom r pos skip s →
  ∃ a b, s = a +:+ b ∧ matchAt r (pos + String.length a) b = Some m.
Proof.
  revert pos skip. induction s as [|c s IH]; intros pos skip.
  - destruct skip as [|skip]; cbn [findAllFrom]; [|by intros ?%elem_of_nil].
    destruct (matchAt r pos EmptyString) as [m'|] eqn:Hm; [|by intros ?%elem_of_nil].
    intros ->%list_elem_of_singleton. exists EmptyString, EmptyString.
    by rewrite Nat.add_0_r.
  - assert (∀ skip', m ∈ findAllFrom r (S pos) skip' s →
              ∃ a b, String c s = a +:+ b ∧ matchAt r (pos + String.length a) b = Some m)
      as Hnext.
    { intros skip' (a & b & -> & Hm)%IH. exists (String c a), b.
      split; [by rewrite app_cons|]. by rewrite /= -Nat.add_succ_comm. }
    destruct skip as [|skip]; cbn [findAllFrom]; [|by apply Hnext].
    destruct (matchAt r pos (String c s)) as [m'|] eqn:Hm; [|by apply Hnext].
    intros [->|Hin]%elem_of_cons; [|by eapply Hnext].
    exists EmptyString, (String c s). by rewrite app_empty_l Nat.add_0_r.
Qed.

(** Every match [FindAll] returns: the text is [a +:+ w +:+ rest], the
    pattern matches [w], and the match spans [w]. *)
Lemma FindAll_sound (r : regex) (s : string) (m : match_) :
  m ∈ FindAll r s →
  ∃ a w rest, s = a +:+ w +:+ rest
              ∧ Matches r (String.length a) w [] (m_caps m)
              ∧ m_start m = String.length a
              ∧ m_end m = String.length a + String.length w.
Proof.
  intros (a & b & -> & (w & rest & -> & Hm & Hs & He)%matchAt_sound)%findAllFrom_sound.
  by exists a, w, rest.
Qed.

End MatchSoundness.

(** ** The methods the merge finds *)

Section ExtractedMethods.
Import regexp matching spec merger.

Lemma Matches_methodRe (pos : nat) (w : string) (cs : caps) :
  Matches methodRe pos w [] cs →
  ∃ h n, w = "func (h *" +:+ h +:+ "Handler) " +:+ n +:+ "("
         ∧ identifier h ∧ identifier n
         ∧ cs = [(1, (pos + 9 + String.length h + 9,
                      pos + 9 + String.length h + 9 + String.length n))].
Proof.
  rewrite /methodRe. cbn [seq foldr]. intros Hm. invert_Matches.
  eexists _, _. split; [by rewrite app_empty_r|]. by cbn [String.length].
Qed.

Lemma Index_char_Some (s : string) (c : ascii) (i : nat) :
  strings.Index s (String c EmptyString) = Some i →
  ∃ t b, s = t +:+ String c b ∧ String.length t = i ∧ allChars (notChar c) t = true.
Proof.
  revert i. induction s as [|d s IH]; intros i; cbn [strings.Index strings.HasPrefix]; [done|].
  destruct (Ascii.eqb c d) eqn:E.
  - apply Ascii.eqb_eq in E as ->. intros [= <-]. exists EmptyString, s.
    by rewrite app_empty_l.
  - destruct (strings.Index s (String c EmptyString)) as [j|]; [|done].
    intros [= <-]. destruct (IH j eq_refl) as (t & b & -> & <- & Ht).
    exists (String d t), b. rewrite app_cons. split; [done|]. split; [done|].
    by rewrite /= /notChar E Ht.
Qed.

Lemma prefix_before_char (w rest t b : string) (c : ascii) :
  w +:+ rest = t +:+ String c b → allChars (notChar c) w = true →
  ∃ t', t = w +:+ t' ∧ rest = t' +:+ String c b.
Proof.
  revert t. induction w as [|d w IH]; intros t.
  - rewrite app_empty_l. intros -> _. exists t. by rewrite app_empty_l.
  - rewrite app_cons. intros Heq [Hd Hw]%andb_prop. destruct t as [|e t].
    + rewrite app_empty_l in Heq. injection Heq as -> _.
      by rewrite /notChar Ascii.eqb_refl in Hd.
    + rewrite app_cons in Heq. injection Heq as -> Heq.
      destruct (IH t Heq Hw) as (t' & -> & ->). exists t'. by rewrite app_cons.
Qed.

Lemma closingBrace_sound (s : string) (depth i j : nat) :
  parser.closingBrace s depth i = Some j →
  ∃ s1 s2, s = s1 +:+ String "}" s2 ∧ j = i + String.length s1.
Proof.
  revert depth i. induction s as [|ch s IH]; intros depth i; cbn [parser.closingBrace]; [done|].
  assert (∀ d, parser.closingBrace s d (S i) = Some j →
            ∃ s1 s2, String ch s = s1 +:+ String "}" s2 ∧ j = i + String.length s1) as Hnext.
  { intros d (s1 & s2 & -> & ->)%IH. exists (String ch s1), s2.
    rewrite app_cons. split; [done|]. simpl. lia. }
  destruct (Ascii.eqb ch "{"); [by apply Hnext|].
  destruct (Ascii.eqb ch "}") eqn:E; [|by apply Hnext].
  apply Ascii.eqb_eq in E as ->.
  assert (Some i = Some j →
          ∃ s1 s2, String "}" s = s1 +:+ String "}" s2 ∧ j = i + String.length s1) as Hhere.
  { intros [= <-]. exists EmptyString, s. by rewrite app_empty_l Nat.add_0_r. }
  destruct depth as [|[|d]]; [done|done|by apply Hnext].
Qed.

Lemma drop_app_s (a b : string) (n : nat) :
  n = String.length a → strings.drop n (a +:+ b) = b.
Proof. intros ->. apply drop_app_length. Qed.

Lemma take_app_s (a b : string) (n : nat) :
  n = String.length a → strings.take n (a +:+ b) = a.
Proof. intros ->. apply take_app_length. Qed.

Lemma word_not_brace (s : string) :
  allChars word s = true → allChars (notChar "{") s = true.
Proof. apply allChars_impl. by_ascii_cases. Qed.

Lemma extractMethodsOrdered_shape (text : string) (m : methodBlock) :
  m ∈ extractMethodsOrdered text →
  ∃ a rest h t mid,
    text = a +:+ content m +:+ rest
    ∧ content m
      = "func (h *" +:+ h +:+ "Handler) " +:+ name m +:+ "(" +:+ t +:+ "{" +:+ mid
    ∧ identifier h ∧ identifier (name m)
    ∧ allChars (notChar "{") t = true
    ∧ (mid = EmptyString ∨ ∃ inner, mid = inner +:+ "}").
Proof.
  rewrite /extractMethodsOrdered. intros (mt & Hmt & Hf)%list_elem_of_omap.
  apply FindAll_sound in Hmt as (a & w & rest & Htext & HM & Hs & He).
  apply Matches_methodRe in HM as (h & n & -> & Hh & Hn & Hcaps).
  set (sig := "func (h *" +:+ h +:+ "Handler) " +:+ n +:+ "(") in *.
  assert (allChars (notChar "{") sig = true) as Hsig.
  { rewrite /sig !allChars_app.
    rewrite (word_not_brace h); [|apply Hh]. by rewrite (word_not_brace n); [|apply Hn]. }
  rewrite Hs in Hf.
  assert (strings.drop (String.length a) text = sig +:+ rest) as Hdrop.
  { by rewrite Htext drop_app_length. }
  rewrite Hdrop in Hf.
  destruct (strings.Index (sig +:+ rest) "{") as [bi|] eqn:Hi; [|done].
  apply Index_char_Some in Hi as (t0 & b & Heq & Hbi & Ht0).
  destruct (prefix_before_char _ _ _ _ _ Heq Hsig) as (t & -> & ->).
  rewrite allChars_app in Ht0. apply andb_prop in Ht0 as [_ Ht].
  assert (submatch text mt 1 = n) as Hname.
  { rewrite /submatch Hcaps. cbn [capSpan Nat.eqb].
    rewrite Htext /sig.
    replace (a +:+ ("func (h *" +:+ h +:+ "Handler) " +:+ n +:+ "(") +:+ t +:+ String "{" b)
      with ((a +:+ "func (h *" +:+ h +:+ "Handler) ") +:+ n +:+ ("(" +:+ t +:+ String "{" b))
      by (by rewrite !app_assoc_s).
    apply slice_at; [|done]. rewrite !length_app_s /=. lia. }
  assert (text = (a +:+ (sig +:+ t) +:+ "{") +:+ b) as Htext'.
  { by rewrite Htext !app_assoc_s. }
  assert (strings.drop (bi + String.length a + 1) text = b) as Hb.
  { rewrite Htext'. apply drop_app_s. rewrite !length_app_s -Hbi !length_app_s /=. lia. }
  rewrite Hb in Hf.
  destruct (parser.closingBrace b 1 (bi + String.length a + 1)) as [j|] eqn:Hj.
  - apply closingBrace_sound in Hj as (s1 & s2 & -> & ->).
    injection Hf as <-. exists a, s2, h, t, (s1 +:+ "}").
    assert (strings.slice text (String.length a)
              (bi + String.length a + 1 + String.length s1 + 1)
            = sig +:+ t +:+ "{" +:+ s1 +:+ "}") as Hslice.
    { rewrite Htext.
      replace (a +:+ sig +:+ t +:+ String "{" (s1 +:+ String "}" s2))
        with (a +:+ (sig +:+ t +:+ "{" +:+ s1 +:+ "}") +:+ s2).
      - apply slice_at; [done|]. rewrite -Hbi !length_app_s /=. lia.
      - by rewrite !app_assoc_s. }
    cbn [name content]. rewrite Hslice Hname.
    split; [by rewrite Htext' !app_assoc_s|].
    split; [by rewrite /sig !app_assoc_s|]. repeat split; try done; try apply Hh; try apply Hn.
    right. by exists s1.
  - injection Hf as <-. exists a, b, h, t, EmptyString.
    assert (strings.slice text (String.length a) (bi + String.length a + 1)
            = sig +:+ t +:+ "{") as Hslice.
    { rewrite Htext'.
      replace ((a +:+ (sig +:+ t) +:+ "{") +:+ b) with (a +:+ (sig +:+ t +:+ "{") +:+ b)
        by (by rewrite !app_assoc_s).
      apply slice_at; [done|]. rewrite -Hbi !length_app_s /=. lia. }
    cbn [name content]. rewrite Hslice Hname.
    split; [by rewrite Htext' !app_assoc_s|].
    split; [by rewrite /sig !app_assoc_s|]. repeat split; try done; try apply Hh; try apply Hn.
    by left.
Qed.

(** X1. Every method [extractMethodsOrdered] reports is a piece of the
    text it was given: it starts with a method signature that carries the
    reported name, runs to the first opening brace after the signature, and
    ends at that brace or at a closing brace. *)
Theorem extractMethodsOrdered_reports_pieces_of_the_text (text : string) (m : methodBlock) :
  m ∈ extractMethodsOrdered text →
  ∃ a rest h t mid,
    text = a +:+ content m +:+ rest
    ∧ content m
      = "func (h *" +:+ h +:+ "Handler) " +:+ name m +:+ "(" +:+ t +:+ "{" +:+ mid
    ∧ identifier h ∧ identifier (name m)
    ∧ allChars (notChar "{") t = true
    ∧ (mid = EmptyString ∨ ∃ inner, mid = inner +:+ "}").
Proof. apply extractMethodsOrdered_shape. Qed.


Lemma extractMethodsOrdered_reports_pieces_of_the_text_witness :
  ∃ a rest h t mid,
    "// routes" +:+ nl +:+ "func (h *ApiHandler) Get(w http.ResponseWriter) { w.Write(nil) }" +:+ nl
    = a +:+ "func (h *ApiHandler) Get(w http.ResponseWriter) { w.Write(nil) }" +:+ rest
    ∧ "func (h *ApiHandler) Get(w http.ResponseWriter) { w.Write(nil) }"
      = "func (h *" +:+ h +:+ "Handler) " +:+ "Get" +:+ "(" +:+ t +:+ "{" +:+ mid
    ∧ identifier h ∧ identifier "Get"
    ∧ allChars (notChar "{") t = true
    ∧ (mid = EmptyString ∨ ∃ inner, mid = inner +:+ "}").
Proof.
  apply (extractMethodsOrdered_reports_pieces_of_the_text
           ("// routes" +:+ nl
            +:+ "func (h *ApiHandler) Get(w http.ResponseWriter) { w.Write(nil) }" +:+ nl)
           {| name := "Get";
              content := "func (h *ApiHandler) Get(w http.ResponseWriter) { w.Write(nil) }" |}).
  vm_compute. apply list_elem_of_here.
Defined.

End ExtractedMethods.

Section RemovedSection.
Import regexp matching spec merger.

Lemma Matches_removedRe (pos : nat) (w : string) (cs : caps) :
  Matches removedRe pos w [] cs →
  ∃ n x sp y,
    w = "// " +:+ n +:+ " was removed from schema" +:+ x +:+ "/*" +:+ sp
        +:+ ("func " +:+ y) +:+ "*/"
    ∧ identifier n ∧ y ≠ EmptyString ∧ allChars (notChar "*") y = true
    ∧ cs = [(2, (pos + 3 + String.length n + 24 + String.length x + 2 + String.length sp,
                 pos + 3 + String.length n + 24 + String.length x + 2 + String.length sp
                 + String.length ("func " +:+ y)));
            (1, (pos + 3, pos + 3 + String.length n))].
Proof.
  rewrite /removedRe. cbn [seq foldr]. intros Hm. invert_Matches.
  eexists _, _, _, _. split; [by rewrite app_empty_r|]. by cbn [String.length].
Qed.

Lemma allChars_TrimLeftSpace (P : ascii → bool) (s : string) :
  allChars P s = true → allChars P (strings.TrimLeftSpace s) = true.
Proof.
  induction s as [|c s IH]; [done|]. cbn [strings.TrimLeftSpace].
  destruct (strings.isSpace c); [|done]. by intros [_ ?]%andb_prop; apply IH.
Qed.

Lemma TrimRightSpace_cons (c : ascii) (s : string) :
  strings.isSpace c = false →
  strings.TrimRightSpace (String c s) = String c (strings.TrimRightSpace s).
Proof. intros Hc. cbn [strings.TrimRightSpace]. rewrite Hc. by case_match. Qed.

Lemma allChars_TrimRightSpace (P : ascii → bool) (s : string) :
  allChars P s = true → allChars P (strings.TrimRightSpace s) = true.
Proof.
  induction s as [|c s IH]; [done|]. intros [Hc Hs]%andb_prop.
  cbn [strings.TrimRightSpace]. specialize (IH Hs).
  destruct (strings.TrimRightSpace s) as [|d t].
  - destruct (strings.isSpace c); [done|]. by rewrite /= Hc.
  - cbn [allChars] in *. by rewrite Hc IH.
Qed.

Lemma allChars_TrimSpace (P : ascii → bool) (s : string) :
  allChars P s = true → allChars P (strings.TrimSpace s) = true.
Proof. intros Hs. by apply allChars_TrimRightSpace, allChars_TrimLeftSpace. Qed.

Lemma extractRemovedSection_shape (text : string) (e : methodBlock) :
  e ∈ extractRemovedSection text →
  identifier (name e)
  ∧ ∃ y, content e = strings.TrimSpace ("func " +:+ y) ∧ allChars (notChar "*") y = true.
Proof.
  rewrite /extractRemovedSection.
  destruct (strings.Index text removedMarker) as [idx|]; [|by intros ?%elem_of_nil].
  set (removed := strings.drop _ text).
  intros (mt & -> & Hmt)%list_elem_of_fmap.
  apply FindAll_sound in Hmt as (a & w & rest & Hrem & HM & Hs & He).
  apply Matches_removedRe in HM as (n & x & sp & y & -> & Hn & Hy & Hstar & Hcaps).
  cbn [name content]. rewrite /submatch Hcaps. cbn [capSpan Nat.eqb].
  split.
  - replace (strings.slice removed _ _) with n; [done|]. symmetry.
    rewrite Hrem.
    replace (a +:+ ("// " +:+ n +:+ " was removed from schema" +:+ x +:+ "/*" +:+ sp
                    +:+ ("func " +:+ y) +:+ "*/") +:+ rest)
      with ((a +:+ "// ") +:+ n
            +:+ (" was removed from schema" +:+ x +:+ "/*" +:+ sp
                 +:+ ("func " +:+ y) +:+ "*/" +:+ rest))
      by (by rewrite !app_assoc_s).
    apply slice_at; [|done]. by rewrite !length_app_s.
  - exists y. split; [|done]. f_equal.
    rewrite Hrem.
    replace (a +:+ ("// " +:+ n +:+ " was removed from schema" +:+ x +:+ "/*" +:+ sp
                    +:+ ("func " +:+ y) +:+ "*/") +:+ rest)
      with ((a +:+ "// " +:+ n +:+ " was removed from schema" +:+ x +:+ "/*" +:+ sp)
            +:+ ("func " +:+ y) +:+ ("*/" +:+ rest))
      by (by rewrite !app_assoc_s).
    apply slice_at; [|done]. rewrite !length_app_s /=. lia.
Qed.

(** X2. No entry that [extractRemovedSection] reads back from an archive
    has an asterisk in its body.  A method as [extractMethodsOrdered] finds
    it, and as [MergeContent] archives it, has a pointer receiver; so no
    such method is ever read back by [extractRemovedSection]. *)
Theorem extractRemovedSection_reads_no_pointer_receiver (text : string) (e : methodBlock) :
  e ∈ extractRemovedSection text →
  identifier (name e)
  ∧ strings.HasPrefix (content e) "func" = true
  ∧ allChars (notChar "*") (content e) = true
  ∧ ∀ text' m, m ∈ extractMethodsOrdered text' → content m ≠ content e.
Proof.
  intros (Hn & y & Hc & Hy)%extractRemovedSection_shape.
  assert (allChars (notChar "*") (content e) = true) as Hstar.
  { rewrite Hc. apply allChars_TrimSpace. by rewrite allChars_app Hy. }
  split; [done|]. split.
  { rewrite Hc /strings.TrimSpace !app_cons app_empty_l.
    cbn [strings.TrimLeftSpace strings.isSpace].
    by do 4 (rewrite TrimRightSpace_cons; [|done]). }
  split; [done|].
  intros text' m (a & rest & h & t & mid & _ & Hm & _)%extractMethodsOrdered_shape Heq.
  rewrite -Heq Hm allChars_app in Hstar. apply andb_prop in Hstar as [Hbad _].
  by vm_compute in Hbad.
Qed.

Lemma extractRemovedSection_reads_no_pointer_receiver_witness :
  identifier "Old"
  ∧ strings.HasPrefix "func Old() {}" "func" = true
  ∧ allChars (notChar "*") "func Old() {}" = true
  ∧ ∀ text' m, m ∈ extractMethodsOrdered text' → content m ≠ "func Old() {}".
Proof.
  apply (extractRemovedSection_reads_no_pointer_receiver
           (removedMarker +:+ nl +:+ nl +:+ "// Old was removed from schema" +:+ nl
            +:+ "/*" +:+ nl +:+ "func Old() {}" +:+ nl +:+ "*/")
           {| name := "Old"; content := "func Old() {}" |}).
  vm_compute. apply list_elem_of_here.
Defined.

End RemovedSection.

(** ** The calls the parser returns *)

Section ParsedCalls.
Import regexp matching spec schema parser.

Lemma Matches_returnTypeRe (pos : nat) (w : string) (cs cs' : caps) :
  Matches returnTypeRe pos w cs cs' → cs' = cs.
Proof. rewrite /returnTypeRe. cbn [seq foldr]. intros Hm. by invert_Matches. Qed.

Lemma slice_eq (text pre mid post : string) (a b : nat) :
  text = pre +:+ mid +:+ post → a = String.length pre → b = a + String.length mid →
  strings.slice text a b = mid.
Proof. intros -> ??. by apply slice_at. Qed.

Lemma Matches_callRe (pos : nat) (w : string) (cs : caps) :
  Matches callRe pos w [] cs →
  ∃ n sp1 args sp2 sp3 rt sp4 verb sp5 sp6 path sp7,
    w = n +:+ sp1 +:+ "(" +:+ args +:+ ")" +:+ sp2 +:+ ":" +:+ sp3 +:+ rt +:+ sp4
        +:+ "@" +:+ verb +:+ sp5 +:+ "(" +:+ sp6 +:+ dq +:+ path +:+ dq +:+ sp7 +:+ ")"
    ∧ identifier n ∧ verb ∈ verbs
    ∧ path ≠ EmptyString ∧ allChars (notChar "034") path = true
    ∧ capSpan cs 1 = Some (pos, pos + String.length n)
    ∧ capSpan cs 4
      = Some (pos + String.length (n +:+ sp1 +:+ "(" +:+ args +:+ ")" +:+ sp2 +:+ ":"
                                   +:+ sp3 +:+ rt +:+ sp4 +:+ "@"),
              pos + String.length (n +:+ sp1 +:+ "(" +:+ args +:+ ")" +:+ sp2 +:+ ":"
                                   +:+ sp3 +:+ rt +:+ sp4 +:+ "@")
              + String.length verb)
    ∧ capSpan cs 5
      = Some (pos + String.length (n +:+ sp1 +:+ "(" +:+ args +:+ ")" +:+ sp2 +:+ ":"
                                   +:+ sp3 +:+ rt +:+ sp4 +:+ "@" +:+ verb +:+ sp5
                                   +:+ "(" +:+ sp6 +:+ dq),
              pos + String.length (n +:+ sp1 +:+ "(" +:+ args +:+ ")" +:+ sp2 +:+ ":"
                                   +:+ sp3 +:+ rt +:+ sp4 +:+ "@" +:+ verb +:+ sp5
                                   +:+ "(" +:+ sp6 +:+ dq)
              + String.length path).
Proof.
  rewrite /callRe. cbn [seq foldr]. intros Hm. invert_Matches.
  all: repeat match goal with
       | H : Matches returnTypeRe _ _ _ _ |- _ => apply Matches_returnTypeRe in H; subst
       end.
  all: eexists _, _, _, _, _, _, _, _, _, _, _, _.
  all: split; [by rewrite app_empty_r|].
  all: split; [done|].
  all: split; [rewrite /verbs; set_solver|].
  all: split; [done|]. all: split; [done|].
  all: cbn [capSpan Nat.eqb].
  all: split; [done|].
  all: split; f_equal; f_equal; rewrite ?length_app_s /=; lia.
Qed.

Lemma parseCallsLoop_Ok `{GoMapRange} (body : string) (matches : list match_)
    (acc calls : list Call) :
  parseCallsLoop body matches acc = Ok calls →
  ∃ new, calls = acc ++ new ∧ Forall2 (λ m c, parseCall body m = Ok c) matches new.
Proof.
  revert acc. induction matches as [|m matches IH]; intros acc; cbn [parseCallsLoop].
  - intros [= <-]. exists []. by rewrite app_nil_r.
  - destruct (parseCall body m) as [c|e] eqn:Hc; [|done].
    intros (new & -> & Hnew)%IH. exists (c :: new).
    split; [by rewrite -app_assoc|]. by constructor.
Qed.

Lemma parseCall_Ok `{GoMapRange} (body a w rest : string) (m : match_) (c : Call) :
  body = a +:+ w +:+ rest → Matches callRe (String.length a) w [] (m_caps m) →
  parseCall body m = Ok c →
  identifier (CallName c) ∧ Method c ∈ methods
  ∧ Path c ≠ EmptyString ∧ allChars (notChar "034") (Path c) = true
  ∧ Validate c = None.
Proof.
  intros Hbody (n & sp1 & args & sp2 & sp3 & rt & sp4 & verb & sp5 & sp6 & path & sp7
                & -> & Hn & Hverb & Hpath & Hquote & H1 & H4 & H5)%Matches_callRe.
  assert (submatch body m 1 = n) as Hname.
  { rewrite /submatch H1. eapply (slice_eq _ a n); [|done|done].
    rewrite Hbody. by rewrite !app_assoc_s. }
  assert (submatch body m 4 = verb) as Hmethod.
  { rewrite /submatch H4.
    eapply (slice_eq _ (a +:+ n +:+ sp1 +:+ "(" +:+ args +:+ ")" +:+ sp2 +:+ ":"
                        +:+ sp3 +:+ rt +:+ sp4 +:+ "@") verb);
      [|by rewrite (length_app_s a)|done].
    by rewrite Hbody !app_assoc_s. }
  assert (submatch body m 5 = path) as Hp.
  { rewrite /submatch H5.
    eapply (slice_eq _ (a +:+ n +:+ sp1 +:+ "(" +:+ args +:+ ")" +:+ sp2 +:+ ":"
                        +:+ sp3 +:+ rt +:+ sp4 +:+ "@" +:+ verb +:+ sp5
                        +:+ "(" +:+ sp6 +:+ dq) path);
      [|by rewrite (length_app_s a)|done].
    by rewrite Hbody !app_assoc_s. }
  rewrite /parseCall Hname Hmethod Hp.
  destruct (parseArgs _) as [parsed|]; [|done].
  destruct (parseTypeStr _) as [[returnType returnRequired] returnIsList].
  destruct (Validate _) as [e|] eqn:Hv; [done|]. intros [= <-]. cbn.
  split; [done|]. split; [|done].
  rewrite /verbs in Hverb. rewrite /methods.
  repeat (apply elem_of_cons in Hverb as [->|Hverb]; [set_solver|]).
  by apply elem_of_nil in Hverb.
Qed.

(** X3. Whatever [parseCalls] returns has passed validation: there is one
    call for each match of the call pattern; every call has a name of
    letters, digits and underscores, one of the five verbs in upper case, a
    path that is not empty and holds no double quote, and [Validate]
    accepts it. *)
Theorem parseCalls_returns_validated_calls `{GoMapRange} (body : string)
    (calls : list Call) :
  parseCalls body = Ok calls →
  length calls = length (FindAll callRe body)
  ∧ ∀ c, c ∈ calls →
      identifier (CallName c) ∧ Method c ∈ methods
      ∧ Path c ≠ EmptyString ∧ allChars (notChar "034") (Path c) = true
      ∧ Validate c = None.
Proof.
  rewrite /parseCalls. intros (new & -> & Hnew)%parseCallsLoop_Ok.
  rewrite app_nil_l. split; [symmetry; by eapply Forall2_length|].
  intros c [i Hi]%list_elem_of_lookup.
  destruct (Forall2_lookup_r _ _ _ _ _ Hnew Hi) as (m & Hm%list_elem_of_lookup_2 & Hcall).
  apply FindAll_sound in Hm as (a & w & rest & Hbody & HM & _).
  by eapply parseCall_Ok.
Qed.

Lemma parseCalls_returns_validated_calls_witness :
  length [examples.updateContactCall]
  = length (FindAll callRe examples.updateContactLine)
  ∧ ∀ c, c ∈ [examples.updateContactCall] →
      identifier (CallName c) ∧ Method c ∈ methods
      ∧ Path c ≠ EmptyString ∧ allChars (notChar "034") (Path c) = true
      ∧ @Validate examples.rangeInOrder c = None.
Proof.
  apply (@parseCalls_returns_validated_calls examples.rangeInOrder
           examples.updateContactLine [examples.updateContactCall]).
  by vm_compute.
Defined.

End ParsedCalls.

(** ** The blocks of a schema file *)

Section Blocks.
Import regexp matching spec schema parser.

Lemma Matches_blockRe (pos : nat) (w : string) (cs : caps) :
  Matches blockRe pos w [] cs →
  ∃ k sp n sp',
    w = k +:+ sp +:+ n +:+ sp' +:+ "{"
    ∧ k ∈ ["type"; "input"] ∧ identifier n
    ∧ capSpan cs 1 = Some (pos, pos + String.length k)
    ∧ capSpan cs 2 = Some (pos + String.length (k +:+ sp),
                           pos + String.length (k +:+ sp) + String.length n).
Proof.
  rewrite /blockRe. cbn [seq foldr]. intros Hm. invert_Matches.
  all: eexists _, _, _, _.
  all: split; [by rewrite app_empty_r|].
  all: split; [set_solver|]. all: split; [done|].
  all: cbn [capSpan Nat.eqb].
  all: split; [done|].
  all: f_equal; f_equal; rewrite ?length_app_s /=; lia.
Qed.

Lemma extractBlocks_shape (content : string) (b : block) :
  b ∈ extractBlocks content →
  ∃ pre sp sp' rest,
    content = pre +:+ kind b +:+ sp +:+ name b +:+ sp' +:+ "{" +:+ body b +:+ rest
    ∧ kind b ∈ ["type"; "input"] ∧ identifier (name b)
    ∧ (body b = EmptyString ∨ strings.HasPrefix rest "}" = true).
Proof.
  rewrite /extractBlocks. intros (mt & -> & Hmt)%list_elem_of_fmap.
  apply FindAll_sound in Hmt as (a & w & rest & Hc & HM & Hs & He).
  apply Matches_blockRe in HM as (k & sp & n & sp' & -> & Hk & Hn & H1 & H2).
  assert (submatch content mt 1 = k) as Hkind.
  { rewrite /submatch H1. eapply (slice_eq _ a k); [|done|done].
    by rewrite Hc !app_assoc_s. }
  assert (submatch content mt 2 = n) as Hname.
  { rewrite /submatch H2.
    eapply (slice_eq _ (a +:+ k +:+ sp) n); [|by rewrite (length_app_s a)|done].
    by rewrite Hc !app_assoc_s. }
  cbn [kind name body]. rewrite Hkind Hname He.
  assert (strings.drop (String.length a + String.length (k +:+ sp +:+ n +:+ sp' +:+ "{"))
            content = rest) as Hdrop.
  { rewrite Hc.
    replace (a +:+ (k +:+ sp +:+ n +:+ sp' +:+ "{") +:+ rest)
      with ((a +:+ k +:+ sp +:+ n +:+ sp' +:+ "{") +:+ rest) by (by rewrite !app_assoc_s).
    apply drop_app_s. by rewrite (length_app_s a). }
  rewrite Hdrop.
  set (bodyStart := String.length a + _).
  destruct (closingBrace rest 1 bodyStart) as [j|] eqn:Hj.
  - apply closingBrace_sound in Hj as (s1 & s2 & -> & ->).
    exists a, sp, sp', (String "}" s2).
    assert (strings.slice content bodyStart (bodyStart + String.length s1) = s1) as ->.
    { eapply (slice_eq _ (a +:+ k +:+ sp +:+ n +:+ sp' +:+ "{") s1 (String "}" s2));
        [|by rewrite /bodyStart (length_app_s a)|done].
      by rewrite Hc !app_assoc_s. }
    split; [by rewrite Hc !app_assoc_s|]. split; [done|]. split; [done|]. by right.
  - exists a, sp, sp', rest.
    assert (strings.slice content bodyStart bodyStart = EmptyString) as ->.
    { by rewrite /strings.slice Nat.sub_diag. }
    split; [by rewrite Hc !app_assoc_s|]. split; [done|]. split; [done|]. by left.
Qed.



(** The type a block of kind [type] becomes, and the input a block of kind
    [input] becomes. *)
Lemma last_filter_cons {A} (P : A → Prop) `{∀ x, Decision (P x)} (x : A) (l : list A) :
  last (filter P (x :: l))
  = match last (filter P l) with
    | Some y => Some y
    | None => if decide (P x) then Some x else None
    end.
Proof.
  rewrite filter_cons. destruct (decide (P x)); [|by destruct (last _)].
  destruct (filter P l) as [|y l']; [done|].
  change (last (x :: y :: l')) with (last (y :: l')).
  destruct (last (y :: l')) eqn:E; [done|]. by apply last_None in E.
Qed.

Lemma parseBlocks_Ok `{GoMapRange} (blocks : list block) (s0 s : Schema) :
  parseBlocks blocks s0 = Ok s →
  Types s = Types s0 ++ (typeOf <$> filter (λ b, name b ≠ "Calls" ∧ kind b = "type") blocks)
  ∧ Inputs s
    = Inputs s0 ++ (inputOf <$> filter (λ b, name b ≠ "Calls" ∧ kind b = "input") blocks)
  ∧ match last (filter (λ b, name b = "Calls") blocks) with
    | Some b => parseCalls (body b) = Ok (Calls s)
    | None => Calls s = Calls s0
    end.
Proof.
  revert s0. induction blocks as [|b blocks IH]; intros s0.
  { intros [= <-]. by rewrite !app_nil_r. }
  cbn [parseBlocks]. rewrite !filter_cons last_filter_cons.
  destruct (bool_decide (name b = "Calls")) eqn:Hcalls.
  - apply bool_decide_eq_true in Hcalls.
    destruct (parseCalls (body b)) as [calls|] eqn:Hparse; [|done].
    intros (HT & HI & HC)%IH. cbn in HT, HI, HC.
    repeat case_decide; destruct_and?; try done.
    split; [done|]. split; [done|]. destruct (last _); [done|]. by rewrite HC.
  - apply bool_decide_eq_false in Hcalls.
    destruct (bool_decide (kind b = "type")) eqn:Htype.
    + apply bool_decide_eq_true in Htype.
      rewrite /parseTypeDef /parseFields. intros (HT & HI & HC)%IH. cbn in HT, HI, HC.
      repeat case_decide; destruct_and?; try done; try congruence; try tauto.
      split; [by rewrite HT -app_assoc|]. split; [done|]. by destruct (last _).
    + apply bool_decide_eq_false in Htype.
      destruct (bool_decide (kind b = "input")) eqn:Hinput.
      * apply bool_decide_eq_true in Hinput.
        rewrite /parseInputDef /parseFields. intros (HT & HI & HC)%IH. cbn in HT, HI, HC.
        repeat case_decide; destruct_and?; try done; try congruence; try tauto.
        split; [done|]. split; [by rewrite HI -app_assoc|]. by destruct (last _).
      * apply bool_decide_eq_false in Hinput. intros (HT & HI & HC)%IH.
        repeat case_decide; destruct_and?; try done; try congruence; try tauto.
        split; [done|]. split; [done|]. by destruct (last _).
Qed.

(** X5. What [Parse] makes of the blocks of a file: the types are the
    blocks of kind [type] and the inputs the blocks of kind [input], each in
    the order of the text and with the fields of its body; a block named
    [Calls] is neither, whatever its kind, and the calls of the schema are
    those of the last such block (none when there is no such block); no
    block is left out. *)
Theorem Parse_lists_the_blocks_in_order `{GoMapRange} `{FilePath}
    (parseFile : Parser → string → run Schema) (p p' : Parser) (content : string)
    (s : Schema) :
  Parse parseFile p content = Some (p', Ok s) →
  let blocks := extractBlocks content in
  Types s = typeOf <$> filter (λ b, name b ≠ "Calls" ∧ kind b = "type") blocks
  ∧ Inputs s = inputOf <$> filter (λ b, name b ≠ "Calls" ∧ kind b = "input") blocks
  ∧ match last (filter (λ b, name b = "Calls") blocks) with
    | Some b => parseCalls (body b) = Ok (Calls s)
    | None => Calls s = []
    end
  ∧ length (Types s) + length (Inputs s) + length (filter (λ b, name b = "Calls") blocks)
    = length blocks.
Proof.
  rewrite /Parse. destruct (parseIncludes _ _ _ _) as [[p1 [includes|]]|]; [|done..].
  intros [= <- Hblocks]. apply parseBlocks_Ok in Hblocks as (HT & HI & HC).
  cbn in HT, HI, HC. cbv zeta. split; [done|]. split; [done|]. split; [done|].
  rewrite HT HI (length_fmap typeOf) (length_fmap inputOf).
  assert (Forall (λ b, kind b ∈ ["type"; "input"]) (extractBlocks content)) as Hkinds.
  { apply Forall_forall. by intros b (? & ? & ? & ? & _ & Hk & _)%extractBlocks_shape. }
  clear HT HI HC. revert Hkinds. generalize (extractBlocks content).
  intros blocks Hkinds.
  induction Hkinds as [|b blocks Hk _ IH]; [done|]. rewrite !filter_cons.
  apply elem_of_cons in Hk as [Hk|Hk%list_elem_of_singleton].
  all: repeat case_decide; destruct_and?; simpl; try lia; try congruence; try tauto.
Qed.

Lemma Parse_lists_the_blocks_in_order_witness :
  ∃ p s,
    @Parse examples.rangeInOrder (unixFilePath "/proj") examples.noIncludes parser.New
      examples.contactsFile = Some (p, Ok s)
    ∧ let blocks := extractBlocks examples.contactsFile in
      Types s = typeOf <$> filter (λ b, name b ≠ "Calls" ∧ kind b = "type") blocks
      ∧ Inputs s = inputOf <$> filter (λ b, name b ≠ "Calls" ∧ kind b = "input") blocks
      ∧ match last (filter (λ b, name b = "Calls") blocks) with
        | Some b => @parseCalls examples.rangeInOrder (body b) = Ok (Calls s)
        | None => Calls s = []
        end
      ∧ length (Types s) + length (Inputs s)
        + length (filter (λ b, name b = "Calls") blocks)
        = length blocks.
Proof.
  eexists _, _. split; [by vm_compute|].
  apply (@Parse_lists_the_blocks_in_order examples.rangeInOrder (unixFilePath "/proj")
           examples.noIncludes parser.New parser.New examples.contactsFile).
  by vm_compute.
Defined.

End Blocks.

(** ** Where the arguments of a call go *)

Section Routing.
Import spec schema.
Context `{GoMapRange}.

Lemma rangeSet_elem_of (X : gset string) (x : string) : x ∈ rangeSet X ↔ x ∈ X.
Proof. by rewrite rangeSet_perm elem_of_elements. Qed.

Lemma filter_singleton {A} (P : A → Prop) `{∀ x, Decision (P x)} (l : list A) (a : A) :
  a ∈ filter P l → length (filter P l) ≤ 1 → filter P l = [a].
Proof.
  destruct (filter P l) as [|b [|c k]]; [by intros ?%elem_of_nil| |simpl; lia].
  by intros ->%list_elem_of_singleton.
Qed.

(** X6. A call that [Validate] accepts has every argument routed: each
    path parameter is the name of a path argument, and each argument is a
    path argument, the body argument, or a query argument.  A call with a
    body verb has no query arguments, a call with another verb no body
    argument. *)
Theorem Validate_routes_every_argument (c : Call) :
  Validate c = None →
  (∀ param, param ∈ PathParams c → param ∈ PathArgNames c)
  ∧ (∀ a, a ∈ Args c →
       ArgName a ∈ PathArgNames c ∨ BodyArg c = Some a ∨ a ∈ QueryArgs c)
  ∧ (IsBodyMethod c = true → QueryArgs c = [])
  ∧ (IsBodyMethod c = false → BodyArg c = None).
Proof.
  rewrite /Validate. case_bool_decide as Hlen; [done|].
  destruct (unmatchedParam _ _) eqn:Hparams; [done|]. intros _.
  rewrite unmatchedParam_None in Hparams.
  split.
  { intros param Hp.
    destruct (Hparams param) as (a & Ha & <-).
    { apply rangeSet_elem_of. rewrite /PathParamSet. by apply elem_of_list_to_set. }
    rewrite /PathArgNames. apply list_elem_of_fmap. exists a. split; [done|].
    apply list_elem_of_filter. split; [|done].
    rewrite /PathParamSet. by apply elem_of_list_to_set. }
  split.
  { intros a Ha. destruct (decide (ArgName a ∈ PathParamSet c)) as [Hin|Hout].
    - left. rewrite /PathArgNames. apply list_elem_of_fmap. exists a. split; [done|].
      by apply list_elem_of_filter.
    - right. assert (a ∈ filter (λ a, ArgName a ∉ PathParamSet c) (Args c)) as Hfil.
      { by apply list_elem_of_filter. }
      rewrite /BodyArg /QueryArgs. destruct (IsBodyMethod c); [left|by right].
      rewrite length_fmap in Hlen.
      rewrite (filter_singleton _ _ a); [done|done|lia]. }
  rewrite /QueryArgs /BodyArg. split; by intros ->.
Qed.

End Routing.

Lemma Validate_routes_every_argument_witness :
  let c := examples.updateContactCall in
  (∀ param, param ∈ schema.PathParams c → param ∈ schema.PathArgNames c)
  ∧ (∀ a, a ∈ schema.Args c →
       schema.ArgName a ∈ schema.PathArgNames c ∨ schema.BodyArg c = Some a
       ∨ a ∈ schema.QueryArgs c)
  ∧ (schema.IsBodyMethod c = true → schema.QueryArgs c = [])
  ∧ (schema.IsBodyMethod c = false → schema.BodyArg c = None).
Proof.
  apply (@Validate_routes_every_argument examples.rangeInOrder examples.updateContactCall).
  by vm_compute.
Defined.

(** ** The parameters of a path *)

Section PathParameters.
Import spec schema.

Lemma pathParamsLoop_literal (w rest : string) (params : list string) (current : string) :
  allChars notBrace w = true →
  pathParamsLoop (w +:+ rest) params false current
  = pathParamsLoop rest params false current.
Proof.
  induction w as [|ch w IH]; [by rewrite app_empty_l|].
  intros [Hch Hw]%andb_prop. rewrite app_cons. cbn [pathParamsLoop].
  apply andb_prop in Hch as [->%negb_true_iff ->%negb_true_iff]. by apply IH.
Qed.

Lemma pathParamsLoop_name (x rest : string) (params : list string) (current : string) :
  allChars notBrace x = true →
  pathParamsLoop (x +:+ rest) params true current
  = pathParamsLoop rest params true (current +:+ x).
Proof.
  revert current. induction x as [|ch x IH]; intros current.
  { by rewrite app_empty_l app_empty_r. }
  intros [Hch Hx]%andb_prop. rewrite app_cons. cbn [pathParamsLoop].
  apply andb_prop in Hch as [->%negb_true_iff ->%negb_true_iff].
  rewrite IH; [|done]. by rewrite app_snoc.
Qed.

Lemma pathParamsLoop_segment (x rest : string) (params : list string) (inParam : bool)
    (current : string) :
  x ≠ EmptyString → allChars notBrace x = true →
  pathParamsLoop ("{" +:+ x +:+ "}" +:+ rest) params inParam current
  = pathParamsLoop rest (params ++ [x]) false x.
Proof.
  intros Hne Hx. rewrite app_cons app_empty_l. cbn [pathParamsLoop Ascii.eqb].
  cbn. rewrite pathParamsLoop_name; [|done]. rewrite app_empty_l app_cons app_empty_l.
  cbn [pathParamsLoop]. cbn. by rewrite bool_decide_eq_true_2.
Qed.

Lemma pathParamsLoop_stray (rest : string) (params : list string) (current : string) :
  current ≠ EmptyString →
  pathParamsLoop ("}" +:+ rest) params false current
  = pathParamsLoop rest (params ++ [current]) false current.
Proof.
  intros Hne. rewrite app_cons app_empty_l. cbn [pathParamsLoop]. cbn.
  by rewrite bool_decide_eq_true_2.
Qed.

Lemma pathParamsLoop_segments (segments : list (string * string)) (rest : string)
    (params : list string) (current : string) :
  Forall (λ seg, allChars notBrace seg.1 = true
                 ∧ seg.2 ≠ EmptyString ∧ allChars notBrace seg.2 = true) segments →
  pathParamsLoop (pathOf segments rest) params false current
  = pathParamsLoop rest (params ++ segments.*2) false (default current (last segments.*2)).
Proof.
  intros Hsegs. revert params current.
  induction Hsegs as [|[lit x] segments (Hlit & Hne & Hx) _ IH]; intros params current.
  - rewrite /pathOf. change (merger.concatMap _ []) with EmptyString.
    by rewrite app_empty_l app_nil_r.
  - rewrite /pathOf /=. rewrite !app_assoc_s. rewrite pathParamsLoop_literal; [|done].
    rewrite pathParamsLoop_segment; [|done..].
    rewrite /pathOf in IH. rewrite IH -app_assoc. f_equal.
    rewrite last_cons. by destruct (last _).
Qed.

(** X7. For a path written as literal text and [{name}] segments,
    with no other brace and no empty name, [PathParams] returns the names
    in the order of the path. *)
Theorem PathParams_of_a_path_of_segments (c : Call) (segments : list (string * string))
    (tail : string) :
  Forall (λ seg, allChars notBrace seg.1 = true
                 ∧ seg.2 ≠ EmptyString ∧ allChars notBrace seg.2 = true) segments →
  allChars notBrace tail = true →
  Path c = pathOf segments tail →
  PathParams c = segments.*2.
Proof.
  intros Hsegs Htail Hpath.
  rewrite /PathParams Hpath pathParamsLoop_segments; [|done].
  by rewrite -(app_empty_r tail) pathParamsLoop_literal.
Qed.

Lemma PathParams_of_a_path_of_segments_witness :
  PathParams {| CallName := "getItem"; Method := "GET"; Path := "/{id}/items/{itemId}";
                Args := []; ReturnType := "Item"; ReturnRequired := false;
                ReturnIsList := false |}
  = ["id"; "itemId"].
Proof.
  apply (PathParams_of_a_path_of_segments _ [("/", "id"); ("/items/", "itemId")] EmptyString).
  - repeat constructor; by vm_compute.
  - done.
  - done.
Defined.

(** X8. A closing brace that closes nothing makes [PathParams]
    repeat the name of the parameter before it: the name is still the
    current one when the brace is read. *)
Theorem PathParams_repeats_the_name_at_a_stray_brace (c : Call)
    (segments : list (string * string)) (lit x stray tail : string) :
  Forall (λ seg, allChars notBrace seg.1 = true
                 ∧ seg.2 ≠ EmptyString ∧ allChars notBrace seg.2 = true) segments →
  allChars notBrace lit = true → x ≠ EmptyString → allChars notBrace x = true →
  allChars notBrace stray = true → allChars notBrace tail = true →
  Path c = pathOf (segments ++ [(lit, x)]) (stray +:+ "}" +:+ tail) →
  PathParams c = segments.*2 ++ [x; x].
Proof.
  intros Hsegs Hlit Hne Hx Hstray Htail Hpath.
  rewrite /PathParams Hpath pathParamsLoop_segments.
  2: { apply Forall_app. split; [done|]. by repeat constructor. }
  rewrite fmap_app /= last_snoc /=.
  rewrite pathParamsLoop_literal; [|done]. rewrite pathParamsLoop_stray; [|done].
  rewrite -(app_empty_r tail) pathParamsLoop_literal; [|done].
  by rewrite /= -app_assoc.
Qed.

Lemma PathParams_repeats_the_name_at_a_stray_brace_witness :
  PathParams {| CallName := "getItem"; Method := "GET"; Path := "/{id}/items}";
                Args := []; ReturnType := "Item"; ReturnRequired := false;
                ReturnIsList := false |}
  = ["id"; "id"].
Proof.
  apply (PathParams_repeats_the_name_at_a_stray_brace _ [] "/" "id" "/items" EmptyString);
    by vm_compute.
Defined.

End PathParameters.

(** ** Names of handlers and of types *)

Section Names.
Import regexp spec schema.

(** X9. [HandlerName] turns a first letter in lower case into
    its upper case and leaves the rest of the name as it is.  It subtracts
    32 from any other first byte just the same, so a name that starts with
    an upper-case letter, a digit or an underscore gets another first
    character; when the byte is below 32 or from 160 on, the result is one
    byte longer than the name. *)
Theorem HandlerName_subtracts_32_from_the_first_byte (c : Call) (b : ascii)
    (rest : string) :
  CallName c = String b rest →
  (97 ≤ nat_of_ascii b ≤ 122 → HandlerName c = String (strings.upperChar b) rest)
  ∧ (32 ≤ nat_of_ascii b < 160 →
     HandlerName c = String (ascii_of_nat (nat_of_ascii b - 32)) rest)
  ∧ (nat_of_ascii b < 32 ∨ 160 ≤ nat_of_ascii b →
     String.length (HandlerName c) = S (String.length (CallName c))).
Proof.
  intros Hname. rewrite /HandlerName Hname.
  destruct b as [[] [] [] [] [] [] [] []].
  all: split; [|split]; intros Hb; vm_compute in Hb |- *; try done; lia.
Qed.

Lemma HandlerName_subtracts_32_from_the_first_byte_witness :
  let c := examples.updateContactCall in
  (97 ≤ nat_of_ascii "u" ≤ 122 → HandlerName c = String (strings.upperChar "u") "pdateContact")
  ∧ (32 ≤ nat_of_ascii "u" < 160 →
     HandlerName c = String (ascii_of_nat (nat_of_ascii "u" - 32)) "pdateContact")
  ∧ (nat_of_ascii "u" < 32 ∨ 160 ≤ nat_of_ascii "u" →
     String.length (HandlerName c) = S (String.length (CallName c))).
Proof.
  by apply (HandlerName_subtracts_32_from_the_first_byte examples.updateContactCall
              "u" "pdateContact").
Defined.

(** X10. [ParseTypeRef] splits a type reference at its first dot: a
    reference with a dot is its namespace, which has no dot, the dot and
    the type name; a reference without a dot is a type name with the empty
    namespace.  Writing a namespace without dots, a dot and a name, and
    parsing it, gives the namespace and the name back. *)
Theorem ParseTypeRef_splits_at_the_first_dot (typeRef : string) :
  (IsNamespaced typeRef = true →
   typeRef = (ParseTypeRef typeRef).1 +:+ "." +:+ (ParseTypeRef typeRef).2
   ∧ allChars (notChar ".") (ParseTypeRef typeRef).1 = true)
  ∧ (IsNamespaced typeRef = false → ParseTypeRef typeRef = (EmptyString, typeRef))
  ∧ (∀ name, allChars (notChar ".") typeRef = true →
       ParseTypeRef (typeRef +:+ "." +:+ name) = (typeRef, name)
       ∧ IsNamespaced (typeRef +:+ "." +:+ name) = true).
Proof.
  rewrite /IsNamespaced /strings.Contains /ParseTypeRef. split; [|split].
  - destruct (strings.Index typeRef ".") as [idx|] eqn:Hi.
    + intros _. apply Index_char_Some in Hi as (t & b & -> & <- & Ht). cbn [fst snd].
      by rewrite take_app_length Nat.add_1_r drop_S_app.
    + intros Hc. apply bool_decide_eq_true in Hc. by destruct Hc.
  - destruct (strings.Index typeRef ".") as [idx|] eqn:Hi; [|done].
    intros Hc. apply bool_decide_eq_false in Hc. by destruct Hc.
  - intros name Hns.
    assert (strings.Index (typeRef +:+ "." +:+ name) "." = Some (String.length typeRef)) as Hi.
    { by apply Index_first_char. }
    rewrite Hi take_app_length Nat.add_1_r drop_S_app.
    split; [done|]. by apply bool_decide_eq_true.
Qed.

End Names.

(** ** Arguments and fields *)

Section ArgumentLists.
Import regexp spec schema parser.







Lemma TrimRightSpace_empty (s : string) :
  strings.TrimRightSpace s = EmptyString → allChars strings.isSpace s = true.
Proof.
  induction s as [|c s IH]; [done|]. cbn [strings.TrimRightSpace allChars].
  destruct (strings.TrimRightSpace s); [|done].
  destruct (strings.isSpace c); [|done]. intros _. by rewrite IH.
Qed.

Lemma TrimSpace_empty (s : string) :
  strings.TrimSpace s = EmptyString → allChars strings.isSpace s = true.
Proof.
  rewrite /strings.TrimSpace. induction s as [|c s IH]; [done|].
  cbn [strings.TrimLeftSpace allChars]. destruct (strings.isSpace c) eqn:Hc; [done|].
  intros Ht%TrimRightSpace_empty. by rewrite /= Hc in Ht.
Qed.




Lemma SplitChar_not_nil (s : string) (sep : ascii) : strings.SplitChar s sep ≠ [].
Proof.
  destruct s as [|c s]; [done|]. cbn [strings.SplitChar].
  destruct (Ascii.eqb c sep); [done|]. by destruct (strings.SplitChar s sep).
Qed.

Lemma SplitChar_lines (a b : string) (sep : ascii) :
  strings.SplitChar (a +:+ String sep b) sep
  = strings.SplitChar a sep ++ strings.SplitChar b sep.
Proof.
  induction a as [|c a IH].
  - rewrite app_empty_l. cbn [strings.SplitChar]. by rewrite Ascii.eqb_refl.
  - rewrite app_cons. cbn [strings.SplitChar]. destruct (Ascii.eqb c sep).
    + by rewrite IH.
    + rewrite IH. pose proof (SplitChar_not_nil a sep).
      by destruct (strings.SplitChar a sep).
Qed.

Lemma parseFieldsLoop_acc (lines : list string) (fields : list Field) :
  parseFieldsLoop lines fields = fields ++ parseFieldsLoop lines [].
Proof.
  revert fields. induction lines as [|line lines IH]; intros fields.
  { by rewrite /= app_nil_r. }
  cbn [parseFieldsLoop]. destruct (_ || _); [apply IH|].
  destruct (strings.Index _ ":"); [|apply IH].
  destruct (parseTypeStr _) as [[ty required] isList].
  rewrite IH (IH ([] ++ _)). by rewrite app_assoc.
Qed.

Lemma parseFieldsLoop_app (l1 l2 : list string) (fields : list Field) :
  parseFieldsLoop (l1 ++ l2) fields = parseFieldsLoop l2 (parseFieldsLoop l1 fields).
Proof.
  revert fields. induction l1 as [|line l1 IH]; intros fields; [done|].
  cbn [app parseFieldsLoop]. destruct (_ || _); [apply IH|].
  destruct (strings.Index _ ":"); [|apply IH].
  destruct (parseTypeStr _) as [[ty required] isList]. apply IH.
Qed.

(** X13. [parseFields] reads a body line by line: the fields of two
    bodies joined by a newline are the fields of the first followed by the
    fields of the second.  A line that is blank, that starts with [#] or
    that holds no colon gives no field, and [parseFields] never fails. *)
Theorem parseFields_reads_line_by_line (a b : string) :
  (∃ fa fb, parseFields a = Ok fa ∧ parseFields b = Ok fb
            ∧ parseFields (a +:+ nl +:+ b) = Ok (fa ++ fb))
  ∧ (∀ line,
       allChars (notChar "010") line = true →
       strings.TrimSpace line = EmptyString
       ∨ strings.HasPrefix (strings.TrimSpace line) "#" = true
       ∨ strings.Index (strings.TrimSpace line) ":" = None →
       parseFields (a +:+ nl +:+ line +:+ nl +:+ b) = parseFields (a +:+ nl +:+ b)).
Proof.
  assert (∀ x y, parseFieldsLoop (strings.SplitChar (x +:+ nl +:+ y) "010") []
                 = parseFieldsLoop (strings.SplitChar x "010") []
                   ++ parseFieldsLoop (strings.SplitChar y "010") []) as Hcat.
  { intros x y. rewrite /nl app_cons app_empty_l SplitChar_lines parseFieldsLoop_app.
    by rewrite parseFieldsLoop_acc. }
  rewrite /parseFields. split.
  - eexists _, _. split; [done|]. split; [done|]. by rewrite Hcat.
  - intros line Hline Hskip. f_equal. rewrite !Hcat. f_equal.
    rewrite SplitChar_none; [|done]. cbn [parseFieldsLoop].
    destruct Hskip as [->|[Hc|Hi]]; [done|by rewrite Hc orb_true_r|].
    rewrite Hi. by destruct (_ || _).
Qed.

End ArgumentLists.

(** ** Includes *)

Section Includes.
Import regexp spec schema parser.
Context `{GoMapRange} `{FilePath}.

Lemma ReplaceAllChar_without (s : string) :
  allChars (notChar "-") (strings.ReplaceAllChar s "-" "_") = true.
Proof.
  induction s as [|c s IH]; [done|]. cbn [strings.ReplaceAllChar].
  rewrite allChars_app IH andb_true_r.
  destruct (Ascii.eqb c "-") eqn:E; [done|].
  by rewrite /= /notChar Ascii.eqb_sym E.
Qed.

Lemma parseIncludes_Ok (parseFile : Parser → string → run Schema) (p p' : Parser)
    (paths : list string) (acc incs : list Include) :
  parseIncludes parseFile p paths acc = Some (p', Ok incs) →
  ∃ new, incs = acc ++ new ∧ IncPath <$> new = paths
         ∧ Forall (λ inc, IncNamespace inc = namespaceOf (IncPath inc)) new.
Proof.
  revert p acc. induction paths as [|path paths IH]; intros p acc; cbn [parseIncludes].
  - intros [= <- <-]. exists []. by rewrite app_nil_r.
  - rewrite /parseInclude.
    destruct (parseFile p _) as [[p1 [s|e]]|]; [|done..].
    intros (new & -> & <- & Hns)%IH.
    eexists (_ :: new). split; [by rewrite -app_assoc|]. split; [done|]. by constructor.
Qed.

(** X14. [Parse] records one include for each include directive, in
    the order of the text and with the path as it is written; its
    namespace is the base name of that path without the [.sdl] ending,
    hyphens written as underscores, so it holds no hyphen. *)
Theorem Parse_records_the_includes_in_order
    (parseFile : Parser → string → run Schema) (p p' : Parser) (content : string)
    (s : Schema) :
  Parse parseFile p content = Some (p', Ok s) →
  IncPath <$> Includes s = directiveArgs includeRe content
  ∧ Forall (λ inc, IncNamespace inc = namespaceOf (IncPath inc)
                   ∧ allChars (notChar "-") (IncNamespace inc) = true) (Includes s).
Proof.
  rewrite /Parse.
  destruct (parseIncludes _ _ _ _) as [[p1 [includes|]]|] eqn:Hinc; [|done..].
  intros [= <- Hblocks]. apply parseBlocks_keeps in Hblocks as (_ & _ & -> & _).
  cbn [Includes]. apply parseIncludes_Ok in Hinc as (new & -> & Hpaths & Hns).
  rewrite app_nil_l. split; [done|].
  eapply Forall_impl; [done|]. intros inc ->. split; [done|]. apply ReplaceAllChar_without.
Qed.

(** ** Files that are missing and files that include each other *)

Lemma ParseFile_miss (fuel : nat) (fs : FS) (p : Parser) (path absPath data : string) :
  Abs path = Ok absPath → cache p !! absPath = None → fs !! absPath = Some data →
  ParseFile (S fuel) fs p path
  = match Parse (ParseFile fuel fs) {| baseDir := Dir absPath; cache := cache p |} data with
    | None => None
    | Some (p1, Err e) => Some (p1, Err (Wrap ("parsing " +:+ path) e))
    | Some (p1, Ok s) =>
        let s := {| FileName := PathBase path; Base := Base s; Models := Models s;
                    Includes := Includes s; Calls := Calls s; Types := Types s;
                    Inputs := Inputs s; Enums := Enums s |} in
        Some ({| baseDir := baseDir p1; cache := <[absPath := s]> (cache p1) |}, Ok s)
    end.
Proof. intros Habs Hcache Hfs. cbn [ParseFile]. by rewrite Habs Hcache Hfs. Qed.

Lemma Parse_first_include (parseFile : Parser → string → run Schema) (p : Parser)
    (content inc : string) :
  head (directiveArgs includeRe content) = Some inc →
  match parseFile p (resolved (baseDir p) inc) with
  | None => Parse parseFile p content = None
  | Some (p1, Err e) =>
      Parse parseFile p content = Some (p1, Err (Wrap ("parsing include " +:+ inc) e))
  | Some (p1, Ok _) => True
  end.
Proof.
  rewrite /Parse /directiveArgs. destruct (_ <$> _) as [|inc' paths]; [done|].
  intros [= ->]. cbn [parseIncludes]. rewrite /parseInclude /resolved.
  by destruct (parseFile p _) as [[p1 [s|e]]|].
Qed.


(** X16. Files whose first includes lead from one to another in a
    circle cannot be parsed: [ParseFile] is called on and on, whatever fuel
    it is given, since a file is cached only when all its includes are
    parsed.  (In Go the calls nest until the stack is exhausted.) *)
Theorem ParseFile_does_not_end_on_circular_includes (fs : FS) (circle : string → Prop) :
  (∀ absPath, circle absPath →
     ∃ data inc absInc,
       fs !! absPath = Some data
       ∧ head (directiveArgs includeRe data) = Some inc
       ∧ Abs (resolved (Dir absPath) inc) = Ok absInc
       ∧ circle absInc) →
  ∀ fuel p path absPath,
    Abs path = Ok absPath → circle absPath →
    (∀ k, circle k → cache p !! k = None) →
    ParseFile fuel fs p path = None.
Proof.
  intros Hcircle fuel. induction fuel as [|fuel IH]; intros p path absPath Habs Hin Hcache.
  { done. }
  destruct (Hcircle _ Hin) as (data & inc & absInc & Hfs & Hinc & HabsInc & Hin').
  rewrite (ParseFile_miss _ _ _ _ _ _ Habs (Hcache _ Hin) Hfs).
  pose proof (Parse_first_include (ParseFile fuel fs)
                {| baseDir := Dir absPath; cache := cache p |} data inc Hinc) as Hfirst.
  cbn [baseDir] in Hfirst.
  rewrite (IH {| baseDir := Dir absPath; cache := cache p |} _ _ HabsInc Hin' Hcache)
    in Hfirst.
  by rewrite Hfirst.
Qed.

(** X17. [ParseFile] never drops or replaces a cached schema:
    whatever the cache holds before a call, it holds after it, whether the
    call succeeds or fails. *)
Theorem ParseFile_keeps_what_is_cached (fuel : nat) (fs : FS) (p p' : Parser)
    (path : string) (r : result Schema) :
  ParseFile fuel fs p path = Some (p', r) →
  ∀ k s, cache p !! k = Some s → cache p' !! k = Some s.
Proof. intros Hrun k s Hk. by eapply ParseFile_cache_kept. Qed.

End Includes.

Lemma Parse_records_the_includes_in_order_witness :
  ∃ p s,
    @parser.Parse examples.rangeInOrder (unixFilePath "/proj")
      (@parser.ParseFile examples.rangeInOrder (unixFilePath "/proj") 1 examples.projectFiles)
      {| parser.baseDir := "/proj"; parser.cache := ∅ |}
      (examples.directive "include" "sub/a.sdl" +:+ examples.directive "include" "b.sdl")
    = Some (p, Ok s)
    ∧ schema.IncPath <$> schema.Includes s
      = spec.directiveArgs parser.includeRe
          (examples.directive "include" "sub/a.sdl" +:+ examples.directive "include" "b.sdl")
    ∧ Forall (λ inc, schema.IncNamespace inc
                     = @spec.namespaceOf (unixFilePath "/proj") (schema.IncPath inc)
                     ∧ spec.allChars (regexp.notChar "-") (schema.IncNamespace inc) = true)
        (schema.Includes s).
Proof.
  destruct (@parser.Parse examples.rangeInOrder (unixFilePath "/proj") _ _ _)
    as [[p [s|e]]|] eqn:Hrun; [|by vm_compute in Hrun..].
  exists p, s. split; [done|].
  exact (@Parse_records_the_includes_in_order examples.rangeInOrder (unixFilePath "/proj")
           _ _ _ _ _ Hrun).
Defined.


Lemma ParseFile_does_not_end_on_circular_includes_witness :
  @parser.ParseFile examples.rangeInOrder (unixFilePath "/proj") 50
    examples.cyclicFiles parser.New "a.sdl" = None.
Proof.
  apply (@ParseFile_does_not_end_on_circular_includes examples.rangeInOrder
           (unixFilePath "/proj") examples.cyclicFiles
           (λ k, k = "/proj/a.sdl" ∨ k = "/proj/b.sdl"))
    with (absPath := "/proj/a.sdl").
  - intros absPath [->| ->].
    + exists (examples.directive "include" "b.sdl"), "b.sdl", "/proj/b.sdl".
      split; [by vm_compute|]. split; [by vm_compute|]. split; [by vm_compute|]. by right.
    + exists (examples.directive "models" "example.com/b"
              +:+ examples.directive "include" "a.sdl"), "a.sdl", "/proj/a.sdl".
      split; [by vm_compute|]. split; [by vm_compute|]. split; [by vm_compute|]. by left.
  - by vm_compute.
  - by left.
  - done.
Defined.

Lemma ParseFile_keeps_what_is_cached_witness :
  let cached := {| schema.FileName := "b.sdl"; schema.Base := "/v1/b";
                   schema.Models := EmptyString; schema.Includes := [];
                   schema.Calls := []; schema.Types := []; schema.Inputs := [];
                   schema.Enums := [] |} in
  let p := {| parser.baseDir := "/proj"; parser.cache := {[ "/proj/b.sdl" := cached ]} |} in
  ∃ p' r,
    @parser.ParseFile examples.rangeInOrder (unixFilePath "/proj") 3
      examples.projectFiles p "main.sdl" = Some (p', r)
    ∧ ∀ k s, parser.cache p !! k = Some s → parser.cache p' !! k = Some s.
Proof.
  intros cached p.
  destruct (@parser.ParseFile examples.rangeInOrder (unixFilePath "/proj") 3
              examples.projectFiles p "main.sdl") as [[p' r]|] eqn:Hrun;
    [|by vm_compute in Hrun].
  exists p', r. split; [done|].
  exact (@ParseFile_keeps_what_is_cached examples.rangeInOrder (unixFilePath "/proj")
           _ _ _ _ _ _ Hrun).
Defined.

(** ** The regions of a handler file *)

Section Regions.
Import regexp spec merger.

Lemma Index_prefix (s sub : string) :
  strings.HasPrefix s sub = true → strings.Index s sub = Some 0.
Proof. intros Hp. destruct s; cbn [strings.Index]; by rewrite Hp. Qed.

(** [strings.Index] finds the first occurrence. *)
Lemma Index_least (a sub b : string) (i : nat) :
  strings.Index (a +:+ sub +:+ b) sub = Some i → i ≤ String.length a.
Proof.
  revert i. induction a as [|c a IH]; intros i.
  - rewrite app_empty_l Index_prefix; [|apply HasPrefix_app]. by intros [= <-].
  - rewrite app_cons. cbn [strings.Index].
    destruct (strings.HasPrefix _ _); [intros [= <-]; simpl; lia|].
    destruct (strings.Index (a +:+ sub +:+ b) sub) as [j|] eqn:Hj; [|done].
    intros [= <-]. specialize (IH j eq_refl). simpl. lia.
Qed.

Lemma Index_None_not_in (s sub : string) :
  strings.Index s sub = None → ¬ occursIn sub s.
Proof.
  intros Hi (a & b & ->). destruct (Index_app a sub b) as [i Hsome]. congruence.
Qed.

(** X18. [splitAtMarker] cuts a text at its first marker: the text is
    the region above, the marker and the region below, and the region
    above holds no marker.  A text without a marker is all above, with
    nothing below. *)
Theorem splitAtMarker_cuts_at_the_first_marker (content : string) :
  let '(above, below) := splitAtMarker content in
  (occursIn marker content →
   content = above +:+ marker +:+ below ∧ ¬ occursIn marker above)
  ∧ (¬ occursIn marker content → above = content ∧ below = EmptyString).
Proof.
  rewrite /splitAtMarker.
  destruct (strings.Index content marker) as [idx|] eqn:Hi.
  - split; [intros _|].
    + destruct (Index_Some _ _ _ Hi) as (b & Hc & Hlen).
      set (above := strings.take idx content) in *.
      assert (strings.drop (idx + String.length marker) content = b) as ->.
      { rewrite Hc -Hlen -length_app_s -app_assoc_s. apply drop_app_length. }
      split; [done|].
      intros (a1 & b1 & Habove).
      assert (idx ≤ String.length a1) as Hle.
      { apply (Index_least a1 marker (b1 +:+ marker +:+ b)).
        by rewrite -Hi Hc Habove !app_assoc_s. }
      rewrite -Hlen Habove !length_app_s /= in Hle. lia.
    + intros Hno. exfalso. apply Hno. destruct (Index_Some _ _ _ Hi) as (b & Hc & _).
      by eexists _, _.
  - split; [|done]. intros Hyes. by apply Index_None_not_in in Hi.
Qed.





End Regions.

(** ** The reports of a merge *)

Section Reports.
Import spec merger.
Context `{GoMapRange} `{GoParser}.

(** X20. The two reports of [MergeContent] are exact and name each
    method once: [PreservedMethods] names the methods of the new
    generation whose prior body is not a stub, [RemovedMethods] the prior
    methods that the new generation does not have; no method is in both. *)
Theorem MergeContent_reports_each_method_once (generated existing : string) :
  let prior := extractMethods (belowMarker existing) in
  let newNames := name <$> extractMethodsOrdered (belowMarker generated) in
  let r := MergeContent generated existing in
  (∀ n, n ∈ PreservedMethods r ↔
        n ∈ newNames ∧ ∃ impl, prior !! n = Some impl ∧ isGeneratedStub impl = false)
  ∧ (∀ n, n ∈ RemovedMethods r ↔ is_Some (prior !! n) ∧ n ∉ newNames)
  ∧ NoDup (PreservedMethods r) ∧ NoDup (RemovedMethods r)
  ∧ (∀ n, n ∈ PreservedMethods r → n ∉ RemovedMethods r).
Proof.
  intros prior newNames r. rewrite /r MergeContent_eq. cbn [PreservedMethods RemovedMethods].
  fold prior. set (new := dom (extractMethods (belowMarker generated))).
  assert (∀ n, n ∈ new ↔ n ∈ newNames) as Hnew.
  { intros n. apply extractMethods_dom. }
  assert (∀ n, n ∈ (filter (λ e, e.1 ∈ new ∧ isGeneratedStub e.2 = false)
                      (rangeMap prior)).*1 ↔
               n ∈ newNames ∧ ∃ impl, prior !! n = Some impl
                                       ∧ isGeneratedStub impl = false) as Hpres.
  { intros n. rewrite list_elem_of_fmap. split.
    - intros ([k v] & -> & [[Hk Hv] Hin]%list_elem_of_filter). simpl in *.
      split; [by apply Hnew|]. exists v. split; [|done]. by apply rangeMap_elem_of.
    - intros (Hn & impl & Hp & Hstub). exists (n, impl). split; [done|].
      apply list_elem_of_filter. split; [|by apply rangeMap_elem_of].
      split; [by apply Hnew|done]. }
  assert (∀ n, n ∈ name <$> removedOf new (rangeMap prior) ↔
               is_Some (prior !! n) ∧ n ∉ newNames) as Hrem.
  { intros n. rewrite list_elem_of_fmap. split.
    - intros (e & -> & [He Hout]%removedOf_elem_of). split; [by eexists|].
      by rewrite -Hnew.
    - intros [[impl Hp] Hout]. exists {| name := n; content := impl |}. split; [done|].
      apply removedOf_elem_of. split; [done|]. by rewrite Hnew. }
  split; [done|]. split; [done|]. split; [|split].
  - eapply sublist_NoDup; [apply rangeMap_NoDup|]. apply fmap_sublist, sublist_filter.
  - rewrite /removedOf -list_fmap_compose.
    eapply sublist_NoDup; [apply (rangeMap_NoDup prior)|].
    apply (fmap_sublist fst), sublist_filter.
  - intros n [Hin _]%Hpres [_ Hout]%Hrem. done.
Qed.

End Reports.

(** ** The name of the handler *)

Section HandlerNames.
Import regexp spec schema emitter.

(** The loop of [toPascalCase] writes the parts one after another. *)
Lemma toPascalCase_loop (parts : list string) (result : string) :
  foldl (λ result part,
           match part with
           | EmptyString => result
           | String c rest => result +:+ upperFirst c +:+ rest
           end) result parts
  = result +:+ merger.concatMap (λ part, match part with
                                         | EmptyString => EmptyString
                                         | String c rest => upperFirst c +:+ rest
                                         end) parts.
Proof.
  revert result. induction parts as [|part parts IH]; intros result.
  - by rewrite /= app_empty_r.
  - cbn [foldl]. rewrite IH. change (merger.concatMap ?f (part :: parts))
      with (f part +:+ merger.concatMap f parts).
    destruct part; [by rewrite app_empty_l|]. by rewrite !app_assoc_s.
Qed.

Lemma toPascalCase_eq (s : string) :
  toPascalCase s
  = merger.concatMap (λ part, match part with
                              | EmptyString => EmptyString
                              | String c rest => upperFirst c +:+ rest
                              end)
      (strings.SplitChar (strings.ReplaceAllChar s "-" "_") "_").
Proof. by rewrite /toPascalCase toPascalCase_loop app_empty_l. Qed.

Lemma ReplaceAllChar_app (a b : string) (old : ascii) (new : string) :
  strings.ReplaceAllChar (a +:+ b) old new
  = strings.ReplaceAllChar a old new +:+ strings.ReplaceAllChar b old new.
Proof.
  induction a as [|c a IH]; [by rewrite !app_empty_l|].
  rewrite app_cons. cbn [strings.ReplaceAllChar]. by rewrite IH app_assoc_s.
Qed.

Lemma ReplaceAllChar_id (s : string) (old : ascii) (new : string) :
  allChars (notChar old) s = true → strings.ReplaceAllChar s old new = s.
Proof.
  induction s as [|c s IH]; [done|]. intros [Hc Hs]%andb_prop.
  cbn [strings.ReplaceAllChar]. rewrite IH; [|done].
  rewrite /notChar in Hc. apply negb_true_iff in Hc. rewrite Ascii.eqb_sym Hc.
  by rewrite app_cons app_empty_l.
Qed.

Lemma toPascalCase_app (a b : string) (sep : ascii) :
  sep = "_"%char ∨ sep = "-"%char →
  toPascalCase (a +:+ String sep b) = toPascalCase a +:+ toPascalCase b.
Proof.
  intros Hsep. rewrite !toPascalCase_eq ReplaceAllChar_app.
  cbn [strings.ReplaceAllChar].
  assert ((if Ascii.eqb sep "-" then "_" else String sep EmptyString) = "_") as ->.
  { by destruct Hsep as [-> | ->]. }
  rewrite app_cons app_empty_l SplitChar_lines. apply concatMap_app.
Qed.

Lemma notSeparator_split (s : string) :
  allChars notSeparator s = true →
  allChars (notChar "-") s = true ∧ allChars (notChar "_") s = true.
Proof.
  intros Hs. split; revert Hs; apply allChars_impl; by_ascii_cases.
Qed.

Lemma toPascalCase_word (c : ascii) (rest : string) :
  allChars notSeparator (String c rest) = true →
  toPascalCase (String c rest) = upperFirst c +:+ rest.
Proof.
  intros [Hdash Hunder]%notSeparator_split.
  rewrite toPascalCase_eq ReplaceAllChar_id; [|done].
  rewrite SplitChar_none; [|revert Hunder; apply allChars_impl; by_ascii_cases].
  by rewrite /= app_empty_r.
Qed.

Lemma upperFirst_notSeparator (c : ascii) :
  notSeparator c = true → allChars notSeparator (upperFirst c) = true.
Proof. revert c. by_ascii_cases. Qed.

Lemma SplitChar_parts (s : string) (sep : ascii) :
  Forall (λ p, allChars (notChar sep) p = true) (strings.SplitChar s sep).
Proof.
  induction s as [|c s IH]; [by repeat constructor|]. cbn [strings.SplitChar].
  destruct (Ascii.eqb c sep) eqn:E; [by constructor|].
  destruct (strings.SplitChar s sep) as [|p ps].
  { constructor; [|done]. by rewrite /= /notChar Ascii.eqb_sym E. }
  inversion IH as [|?? Hp Hps]; subst. constructor; [|done].
  by rewrite /= /notChar Ascii.eqb_sym E Hp.
Qed.

Lemma SplitChar_keeps (P : ascii → bool) (s : string) (sep : ascii) :
  allChars P s = true → Forall (λ p, allChars P p = true) (strings.SplitChar s sep).
Proof.
  induction s as [|c s IH]; [by repeat constructor|]. intros [Hc Hs]%andb_prop.
  cbn [strings.SplitChar]. specialize (IH Hs).
  destruct (Ascii.eqb c sep); [by constructor|].
  destruct (strings.SplitChar s sep) as [|p ps].
  { constructor; [|done]. by rewrite /= Hc. }
  inversion IH as [|?? Hp Hps]; subst. constructor; [|done]. by rewrite /= Hc Hp.
Qed.

Lemma toPascalCase_notSeparator (s : string) :
  allChars notSeparator (toPascalCase s) = true.
Proof.
  rewrite toPascalCase_eq.
  pose proof (SplitChar_parts (strings.ReplaceAllChar s "-" "_") "_") as Hunder.
  pose proof (SplitChar_keeps (notChar "-") _ "_" (ReplaceAllChar_without s)) as Hdash.
  revert Hunder Hdash. generalize (strings.SplitChar (strings.ReplaceAllChar s "-" "_") "_").
  intros parts Hunder Hdash. induction parts as [|part parts IH]; [done|].
  inversion Hunder as [|?? Hu Hus]; inversion Hdash as [|?? Hd Hds]; subst.
  cbn [merger.concatMap foldr]. rewrite allChars_app. rewrite -/(merger.concatMap _ parts).
  rewrite IH; [|done..]. rewrite andb_true_r.
  destruct part as [|c rest]; [done|].
  apply andb_prop in Hu as [Hcu Hru]. apply andb_prop in Hd as [Hcd Hrd].
  rewrite allChars_app. apply andb_true_intro. split.
  - apply upperFirst_notSeparator. by rewrite /notSeparator -/(notChar "-" c) -/(notChar "_" c) Hcu Hcd.
  - clear -Hru Hrd. induction rest as [|d rest IH]; [done|].
    apply andb_prop in Hru as [Hdu Hru]. apply andb_prop in Hrd as [Hdd Hrd].
    cbn [allChars]. rewrite IH; [|done..].
    by rewrite /notSeparator -/(notChar "-" d) -/(notChar "_" d) Hdu Hdd.
Qed.

(** X21. [toPascalCase] takes a name apart at its hyphens and
    underscores and writes the parts one after another, each with its
    first letter in upper case: a name without hyphen and underscore gets
    its first letter in upper case, the name of two names joined by a
    hyphen or an underscore is their two names joined, and no hyphen or
    underscore is left in any result. *)
Theorem toPascalCase_joins_the_capitalised_parts :
  (∀ c rest, allChars notSeparator (String c rest) = true →
     toPascalCase (String c rest) = upperFirst c +:+ rest)
  ∧ (∀ a b, toPascalCase (a +:+ "_" +:+ b) = toPascalCase a +:+ toPascalCase b
            ∧ toPascalCase (a +:+ "-" +:+ b) = toPascalCase a +:+ toPascalCase b)
  ∧ (∀ s, allChars notSeparator (toPascalCase s) = true)
  ∧ toPascalCase "business_locations" = "BusinessLocations"
  ∧ toPascalCase "my-handler" = "MyHandler".
Proof.
  split; [apply toPascalCase_word|]. split.
  { intros a b. split.
    - rewrite app_cons app_empty_l. apply toPascalCase_app. by left.
    - rewrite app_cons app_empty_l. apply toPascalCase_app. by right. }
  split; [apply toPascalCase_notSeparator|]. by vm_compute.
Qed.

Lemma TrimLeftChar_dir (dir seg : string) :
  seg ≠ EmptyString → allChars (notChar "/") seg = true →
  ∃ x, strings.TrimLeftChar (dir +:+ String "/" seg) "/" = x +:+ seg
       ∧ (x = EmptyString ∨ ∃ y, x = y +:+ "/").
Proof.
  intros Hne Hseg. induction dir as [|c dir IH].
  - rewrite app_empty_l. cbn [strings.TrimLeftChar Ascii.eqb]. cbn.
    exists EmptyString. split; [|by left]. rewrite app_empty_l.
    destruct seg as [|d seg]; [done|]. apply andb_prop in Hseg as [Hd _].
    cbn [strings.TrimLeftChar]. rewrite /notChar in Hd. apply negb_true_iff in Hd.
    by rewrite Ascii.eqb_sym Hd.
  - rewrite app_cons. cbn [strings.TrimLeftChar]. destruct (Ascii.eqb c "/"); [done|].
    exists (String c dir +:+ "/"). split; [by rewrite !app_assoc_s !app_cons|].
    right. by eexists.
Qed.

Lemma TrimRightChar_snoc (s : string) (c sep : ascii) :
  c ≠ sep →
  strings.TrimRightChar (s +:+ String c EmptyString) sep = s +:+ String c EmptyString.
Proof.
  intros Hc. induction s as [|d s IH].
  - rewrite app_empty_l. cbn [strings.TrimRightChar].
    by rewrite (proj2 (Ascii.eqb_neq c sep) Hc).
  - rewrite app_cons. cbn [strings.TrimRightChar]. rewrite IH.
    by destruct s.
Qed.

Lemma last_segment (x seg : string) :
  allChars (notChar "/") seg = true → x = EmptyString ∨ (∃ y, x = y +:+ "/") →
  last (strings.SplitChar (x +:+ seg) "/") = Some seg.
Proof.
  intros Hseg [-> | [y ->]].
  - rewrite app_empty_l SplitChar_none; [done|].
    revert Hseg. apply allChars_impl. by_ascii_cases.
  - rewrite app_assoc_s app_cons app_empty_l SplitChar_lines (SplitChar_none seg).
    2: { revert Hseg. apply allChars_impl. by_ascii_cases. }
    by rewrite last_snoc.
Qed.

(** X22. [deriveHandlerName] takes the name of the handler from the
    file name, without its [.sdl] ending; when the file name gives
    nothing, from the last segment of the base path; and is [Handler]
    when there is no base path either.  No hyphen and no underscore is
    left in the name. *)
Theorem deriveHandlerName_prefers_the_file_name (s : Schema) :
  (∀ n, n ≠ EmptyString → FileName s = n +:+ ".sdl" →
     deriveHandlerName s = toPascalCase n)
  ∧ (FileName s = EmptyString ∨ FileName s = ".sdl" →
     ∀ dir seg, seg ≠ EmptyString → allChars (notChar "/") seg = true →
       Base s = dir +:+ "/" +:+ seg →
       deriveHandlerName s = toPascalCase seg)
  ∧ (FileName s = EmptyString ∨ FileName s = ".sdl" → Base s = EmptyString →
     deriveHandlerName s = "Handler")
  ∧ allChars notSeparator (deriveHandlerName s) = true.
Proof.
  rewrite /deriveHandlerName. split; [|split; [|split]].
  - intros n Hn Hfile. rewrite Hfile TrimSuffix_app.
    rewrite bool_decide_eq_true_2; [|by destruct n].
    rewrite bool_decide_eq_true_2; [done|]. destruct n; [done|]. simpl. lia.
  - intros Hfile dir seg Hne Hseg Hbase.
    assert (last (strings.SplitChar (strings.TrimChar (Base s) "/") "/") = Some seg) as Hlast.
    { rewrite Hbase /strings.TrimChar app_cons app_empty_l.
      destruct (TrimLeftChar_dir dir seg Hne Hseg) as (x & -> & Hx).
      destruct (snoc_decompose seg Hne) as (t & c & ->).
      rewrite -app_assoc_s TrimRightChar_snoc.
      2: { apply allChars_snoc in Hseg as [_ Hc]. intros ->. by vm_compute in Hc. }
      rewrite app_assoc_s. by apply last_segment. }
    rewrite Hlast (bool_decide_eq_true_2 (Base s ≠ EmptyString)).
    2: { rewrite Hbase. by destruct dir. }
    destruct Hfile as [-> | ->]; [done|]. by vm_compute.
  - intros Hfile ->. by destruct Hfile as [-> | ->].
  - repeat case_match; try done; apply toPascalCase_notSeparator.
Qed.

End HandlerNames.

(** ** Type references that are not canonical *)

Section ItemFlags.
Import spec schema parser.

(** X23. The parser does not record whether the items of a list are
    required: [[T]!] reads like [[T!]!] and [[T!]] like [[T]].  A bracket
    without its partner makes no list and stays in the type name. *)
Theorem parseTypeStr_drops_the_flag_of_the_items (T : string) :
  typeName T →
  parseTypeStr ("[" +:+ T +:+ "]!") = (T, true, true)
  ∧ parseTypeStr ("[" +:+ T +:+ "!]") = (T, false, true)
  ∧ parseTypeStr ("[" +:+ T +:+ "]!") = parseTypeStr (canonicalTypeRef true true T)
  ∧ parseTypeStr ("[" +:+ T +:+ "!]") = parseTypeStr (canonicalTypeRef false true T)
  ∧ parseTypeStr ("[" +:+ T) = ("[" +:+ T, false, false)
  ∧ parseTypeStr (T +:+ "]") = (T +:+ "]", false, false).
Proof.
  intros HT. pose proof HT as [Hne Hchars].
  destruct (snoc_decompose T Hne) as (t & c & Heq).
  assert (wordOrDot c = true) as Hc
    by (rewrite Heq in Hchars; apply allChars_snoc in Hchars as [_ ?]; done).
  assert (c ≠ "!"%char ∧ c ≠ "]"%char) as [Hbang Hbracket].
  { split; intros ->; by vm_compute in Hc. }
  assert (strings.HasPrefix T "[" = false) as Hprefix.
  { destruct T as [|d T']; [done|]. simpl in Hchars. apply andb_true_iff in Hchars as [Hd _].
    apply HasPrefix_cons_ne. intros <-. by vm_compute in Hd. }
  assert (strings.HasSuffix T "!" = false) as HTbang
    by (rewrite Heq; by apply HasSuffix_snoc_ne).
  assert (strings.TrimSuffix T "!" = T) as HTtrim by by rewrite /strings.TrimSuffix HTbang.
  assert (parseTypeStr ("[" +:+ T +:+ "]!") = (T, true, true)) as H1.
  { rewrite (parseTypeStr_steps _ ("[" +:+ T +:+ "]") T true true).
    - by rewrite HTtrim.
    - replace ("[" +:+ T +:+ "]!") with (("[" +:+ T +:+ "]") +:+ "!")
        by by rewrite !app_assoc_s.
      apply HasSuffix_app.
    - replace ("[" +:+ T +:+ "]!") with (("[" +:+ T +:+ "]") +:+ "!")
        by by rewrite !app_assoc_s.
      apply TrimSuffix_app.
    - rewrite HasPrefix_app /=.
      replace ("[" +:+ T +:+ "]") with (("[" +:+ T) +:+ "]") by by rewrite !app_assoc_s.
      apply HasSuffix_app.
    - apply slice_brackets. }
  assert (parseTypeStr ("[" +:+ T +:+ "!]") = (T, false, true)) as H2.
  { rewrite (parseTypeStr_steps _ ("[" +:+ T +:+ "!]") (T +:+ "!") false true).
    - by rewrite TrimSuffix_app.
    - replace ("[" +:+ T +:+ "!]") with (("[" +:+ T +:+ "!") +:+ String "]" EmptyString)
        by by rewrite !app_assoc_s.
      by apply HasSuffix_snoc_ne.
    - done.
    - rewrite HasPrefix_app /=.
      replace ("[" +:+ T +:+ "!]") with (("[" +:+ T +:+ "!") +:+ "]")
        by by rewrite !app_assoc_s.
      apply HasSuffix_app.
    - replace ("[" +:+ T +:+ "!]") with ("[" +:+ (T +:+ "!") +:+ "]")
        by by rewrite !app_assoc_s.
      apply slice_brackets. }
  split; [done|]. split; [done|].
  split; [by rewrite H1 parseTypeStr_canonical|].
  split; [by rewrite H2 parseTypeStr_canonical|]. split.
  - assert (strings.HasSuffix ("[" +:+ T) "!" = false) as Hs1.
    { rewrite Heq -app_assoc_s. by apply HasSuffix_snoc_ne. }
    assert (strings.HasSuffix ("[" +:+ T) "]" = false) as Hs2.
    { rewrite Heq -app_assoc_s. by apply HasSuffix_snoc_ne. }
    rewrite (parseTypeStr_steps _ ("[" +:+ T) ("[" +:+ T) false false).
    + by rewrite /strings.TrimSuffix Hs1.
    + done.
    + done.
    + by rewrite Hs2 andb_false_r.
    + done.
  - assert (strings.HasSuffix (T +:+ "]") "!" = false) as Hs1.
    { by apply HasSuffix_snoc_ne. }
    assert (strings.HasPrefix (T +:+ "]") "[" = false) as Hp.
    { destruct T as [|d T']; [done|]. simpl in Hchars. apply andb_true_iff in Hchars as [Hd _].
      rewrite app_cons. apply HasPrefix_cons_ne. intros <-. by vm_compute in Hd. }
    rewrite (parseTypeStr_steps _ (T +:+ "]") (T +:+ "]") false false).
    + by rewrite /strings.TrimSuffix Hs1.
    + done.
    + done.
    + by rewrite Hp.
    + done.
Qed.

Lemma parseTypeStr_drops_the_flag_of_the_items_witness :
  parseTypeStr "[Contact]!" = ("Contact", true, true)
  ∧ parseTypeStr "[Contact!]" = ("Contact", false, true)
  ∧ parseTypeStr "[Contact]!" = parseTypeStr (canonicalTypeRef true true "Contact")
  ∧ parseTypeStr "[Contact!]" = parseTypeStr (canonicalTypeRef false true "Contact")
  ∧ parseTypeStr "[Contact" = ("[Contact", false, false)
  ∧ parseTypeStr "Contact]" = ("Contact]", false, false).
Proof.
  apply (parseTypeStr_drops_the_flag_of_the_items "Contact"). split; [done|by vm_compute].
Defined.

End ItemFlags.

(** ** The handler struct *)

Section HandlerStruct.
Import regexp matching spec merger.




End HandlerStruct.

(** ** Methods with balanced braces are read back whole *)

Section BalancedMethods.
Import regexp matching spec merger.

Lemma closingBrace_depthAfter (body rest : string) (k k' i : nat) :
  depthAfter body k = Some k' →
  parser.closingBrace (body +:+ rest) (S k) i
  = parser.closingBrace rest (S k') (i + String.length body).
Proof.
  revert k i. induction body as [|ch body IH]; intros k i.
  - intros [= <-]. by rewrite app_empty_l Nat.add_0_r.
  - rewrite app_cons. cbn [depthAfter parser.closingBrace].
    destruct (Ascii.eqb ch "{"); [intros ->%(IH _ (S i)); f_equal; simpl; lia|].
    destruct (Ascii.eqb ch "}").
    + destruct k as [|k]; [done|]. intros ->%(IH _ (S i)). f_equal. simpl. lia.
    + intros ->%(IH _ (S i)). f_equal. simpl. lia.
Qed.

Lemma closingBrace_balanced (body rest : string) (i : nat) :
  balanced body →
  parser.closingBrace (body +:+ "}" +:+ rest) 1 i = Some (i + String.length body).
Proof.
  intros Hb. rewrite (closingBrace_depthAfter _ _ 0 0); [|done].
  by rewrite app_cons.
Qed.

(** A repetition gives back what the rest of the pattern does not match. *)
Lemma star_fails (p : ascii → bool) (s : string) (pos : nat) (cs : caps) (k : cont) :
  (∀ u1 u2, s = u1 +:+ u2 → allChars p u1 = true →
     k (pos + String.length u1) u2 cs = None) →
  star p pos s cs k = None.
Proof.
  revert pos. induction s as [|c s IH]; intros pos Hk.
  - cbn [star]. specialize (Hk EmptyString EmptyString eq_refl eq_refl).
    by rewrite Nat.add_0_r in Hk.
  - cbn [star].
    assert (k pos (String c s) cs = None) as Hhere.
    { specialize (Hk EmptyString (String c s)). rewrite Nat.add_0_r in Hk.
      apply Hk; by rewrite ?app_empty_l. }
    destruct (p c) eqn:Hc; [|done]. rewrite IH; [done|].
    intros u1 u2 -> Hu1.
    replace (S pos + String.length u1) with (pos + String.length (String c u1))
      by (simpl; lia).
    apply Hk; [by rewrite app_cons|]. by rewrite /= Hc Hu1.
Qed.

Lemma star_backtracks (p : ascii → bool) (h x : string) (pos : nat) (cs : caps) (k : cont)
    (r : nat * caps) :
  allChars p h = true →
  k (pos + String.length h) x cs = Some r →
  (∀ u1 u2, x = u1 +:+ u2 → u1 ≠ EmptyString → allChars p u1 = true →
     k (pos + String.length h + String.length u1) u2 cs = None) →
  star p pos (h +:+ x) cs k = Some r.
Proof.
  revert pos. induction h as [|c h IH]; intros pos Hh Hk Hfail.
  - rewrite app_empty_l. rewrite /= Nat.add_0_r in Hk. destruct x as [|d x]; [done|].
    cbn [star]. destruct (p d) eqn:Hd; [|done]. rewrite star_fails; [done|].
    intros u1 u2 -> Hu1.
    replace (S pos + String.length u1)
      with (pos + String.length EmptyString + String.length (String d u1))
      by (simpl; lia).
    apply Hfail; [by rewrite app_cons|done|]. by rewrite /= Hd Hu1.
  - apply andb_prop in Hh as [Hc Hh]. rewrite app_cons. cbn [star]. rewrite Hc.
    rewrite (IH (S pos)); [done|done| |].
    + replace (S pos + String.length h) with (pos + String.length (String c h))
        by (simpl; lia). done.
    + intros u1 u2 Hx Hne Hu1.
      replace (S pos + String.length h) with (pos + String.length (String c h))
        by (simpl; lia). by apply Hfail.
Qed.

Lemma run_Plus_backtracks (p : ascii → bool) (h x : string) (pos : nat) (cs : caps)
    (k : cont) (r : nat * caps) :
  h ≠ EmptyString → allChars p h = true →
  k (pos + String.length h) x cs = Some r →
  (∀ u1 u2, x = u1 +:+ u2 → u1 ≠ EmptyString → allChars p u1 = true →
     k (pos + String.length h + String.length u1) u2 cs = None) →
  regexp.run (Plus p) pos (h +:+ x) cs k = Some r.
Proof.
  intros Hne Hh Hk Hfail. destruct h as [|c h]; [done|].
  apply andb_prop in Hh as [Hc Hh]. rewrite app_cons. cbn [regexp.run]. rewrite Hc.
  apply star_backtracks; [done| |].
  - replace (S pos + String.length h) with (pos + String.length (String c h))
      by (simpl; lia). done.
  - intros u1 u2 Hx Hu1 Hp.
    replace (S pos + String.length h) with (pos + String.length (String c h))
      by (simpl; lia). by apply Hfail.
Qed.

(** A word before [Handler) ]: the pattern for the rest matches only after
    the whole of the word. *)
Lemma handler_only_at_the_end (tail u1 u2 : string) (pos : nat) (cs : caps) (k : cont) :
  "Handler) " +:+ tail = u1 +:+ u2 → u1 ≠ EmptyString → allChars word u1 = true →
  regexp.run (Lit "Handler) ") pos u2 cs k = None.
Proof.
  intros Heq Hne Hw. destruct u1 as [|c u1]; [done|].
  do 7 (rewrite (app_cons c) in Heq; rewrite app_cons in Heq;
        injection Heq as Hc Heq; subst c;
        apply andb_prop in Hw as [_ Hw];
        destruct u1 as [|c u1];
        [rewrite app_empty_l in Heq; subst u2; by vm_compute|]).
  rewrite (app_cons c) in Heq. rewrite app_cons in Heq. injection Heq as Hc Heq. subst c.
  by vm_compute in Hw.
Qed.

Lemma run_methodRe (h n tail : string) (pos : nat) :
  identifier h → identifier n →
  ∃ e, regexp.run methodRe pos (methodSignature h n +:+ tail) [] (λ e _ cs, Some (e, cs))
       = Some (e, [(1, (pos + 9 + String.length h + 9,
                        pos + 9 + String.length h + 9 + String.length n))])
       ∧ e = pos + String.length (methodSignature h n).
Proof.
  intros [Hh Hhw] [Hn Hnw]. rewrite /methodRe /methodSignature. cbn [seq foldr].
  rewrite !app_assoc_s run_Seq run_Lit_app run_Seq.
  eexists. split.
  - apply run_Plus_backtracks; [done|done| |].
    + rewrite run_Seq run_Lit_app run_Seq run_Group.
      apply run_Plus_app; [done|done|done|].
      rewrite run_Seq run_Lit_app. cbn [regexp.run lit]. reflexivity.
    + intros u1 u2 Heq Hne Hw. rewrite run_Seq. by eapply handler_only_at_the_end.
  - rewrite !length_app_s /=. lia.
Qed.

Lemma findAllFrom_first (r : regex) (pos : nat) (s : string) (m : match_) :
  matchAt r pos s = Some m → ∃ l, findAllFrom r pos 0 s = m :: l.
Proof. intros Hm. destruct s; cbn [findAllFrom]; rewrite Hm; by eexists. Qed.

(** X25. A method whose braces are balanced is read back whole: on
    a text that begins with the signature of a method, its parameters, and
    a body in braces whose own braces are balanced, the first method that
    [extractMethodsOrdered] reports has the name of the method and, as its
    content, the text of the method up to the closing brace of the body. *)
Theorem extractMethodsOrdered_reads_a_balanced_method_whole
    (h n t body rest : string) :
  identifier h → identifier n → allChars (notChar "{") t = true → balanced body →
  let method := methodSignature h n +:+ t +:+ "{" +:+ body +:+ "}" in
  head (extractMethodsOrdered (method +:+ rest))
  = Some {| name := n; content := method |}.
Proof.
  intros Hh Hn Ht Hb method.
  set (sig := methodSignature h n) in *.
  set (text := method +:+ rest).
  assert (text = sig +:+ (t +:+ "{" +:+ body +:+ "}" +:+ rest)) as Htext.
  { by rewrite /text /method !app_assoc_s. }
  destruct (run_methodRe h n (t +:+ "{" +:+ body +:+ "}" +:+ rest) 0 Hh Hn)
    as (e & Hrun & He).
  assert (matchAt methodRe 0 text
          = Some {| m_start := 0; m_end := e;
                    m_caps := [(1, (0 + 9 + String.length h + 9,
                                    0 + 9 + String.length h + 9 + String.length n))] |})
    as Hmatch.
  { by rewrite /matchAt Htext Hrun. }
  destruct (findAllFrom_first _ _ _ _ Hmatch) as [l Hall].
  rewrite /extractMethodsOrdered /FindAll Hall. cbn [omap list_omap m_start].
  assert (allChars (λ d, negb (Ascii.eqb "{" d)) (sig +:+ t) = true) as Hsig.
  { rewrite allChars_app. apply andb_true_intro. split; [|done].
    rewrite /sig /methodSignature !allChars_app.
    rewrite (word_not_brace h); [|apply Hh]. by rewrite (word_not_brace n); [|apply Hn]. }
  assert (strings.Index (strings.drop 0 text) "{" = Some (String.length (sig +:+ t))) as ->.
  { cbn [strings.drop]. rewrite Htext -app_assoc_s. rewrite (app_cons "{") app_empty_l.
    by apply Index_first_char. }
  assert (strings.drop (String.length (sig +:+ t) + 0 + 1) text = body +:+ "}" +:+ rest) as ->.
  { rewrite Htext.
    replace (sig +:+ t +:+ "{" +:+ body +:+ "}" +:+ rest)
      with ((sig +:+ t +:+ "{") +:+ body +:+ "}" +:+ rest) by (by rewrite !app_assoc_s).
    apply drop_app_s. rewrite !length_app_s /=. lia. }
  rewrite closingBrace_balanced; [|done]. cbn [head]. f_equal. f_equal.
  - rewrite /submatch. cbn [m_caps capSpan Nat.eqb].
    eapply (slice_eq _ ("func (h *" +:+ h +:+ "Handler) ") n).
    + rewrite Htext /sig /methodSignature. by rewrite !app_assoc_s.
    + rewrite !length_app_s /=. lia.
    + done.
  - eapply (slice_eq _ EmptyString method rest).
    + by rewrite app_empty_l.
    + done.
    + rewrite /method !length_app_s /=. lia.
Qed.

Lemma extractMethodsOrdered_reads_a_balanced_method_whole_witness :
  head (extractMethodsOrdered (examples.written "GetContact" +:+ nl))
  = Some {| name := "GetContact"; content := examples.written "GetContact" |}.
Proof.
  apply (extractMethodsOrdered_reads_a_balanced_method_whole
           "Contacts" "GetContact" "w http.ResponseWriter, r *http.Request) "
           (nl +:+ tab +:+ "contact, err := h.db.Find(r.Context())" +:+ nl
            +:+ tab +:+ "if err != nil {" +:+ nl
            +:+ tab +:+ tab +:+ "shared.WriteResponse(w, http.StatusInternalServerError, nil)"
            +:+ nl +:+ tab +:+ tab +:+ "return" +:+ nl
            +:+ tab +:+ "}" +:+ nl
            +:+ tab +:+ "shared.WriteResponse(w, http.StatusOK, contact)" +:+ nl) nl);
    by vm_compute.
Defined.

End BalancedMethods.

(** ** Blocks with balanced braces are read back whole *)

Section BalancedBlocks.
Import regexp matching spec parser.

Lemma run_Alt_right (r1 r2 : regex) (pos : nat) (s : string) (cs : caps) (k : cont) :
  regexp.run r1 pos s cs k = None →
  regexp.run (Alt r1 r2) pos s cs k = regexp.run r2 pos s cs k.
Proof. intros Hr. cbn [regexp.run]. by rewrite Hr. Qed.

Lemma word_not_space : ∀ c, word c = true → space c = false.
Proof. by_ascii_cases. Qed.

Lemma run_blockRe (k n tail : string) :
  k ∈ ["type"; "input"] → identifier n →
  regexp.run blockRe 0 (k +:+ " " +:+ n +:+ " {" +:+ tail) [] (λ e _ cs, Some (e, cs))
  = Some (String.length k + 1 + String.length n + 1 + 1,
          [(2, (String.length k + 1, String.length k + 1 + String.length n));
           (1, (0, 0 + String.length k))]).
Proof.
  intros Hk [Hn Hnw]. rewrite /blockRe. cbn [seq foldr]. rewrite run_Seq run_Group.
  destruct n as [|c n]; [done|]. pose proof Hnw as [Hc Hnw']%andb_prop.
  assert (regexp.run (Plus space) (0 + String.length k)
            (" " +:+ String c n +:+ " {" +:+ tail) [(1, (0, 0 + String.length k))]
            (λ pos' s' cs',
               regexp.run
                 (Seq (Group 2 (Plus word))
                    (Seq (Star space) (Seq (Lit "{") (Lit EmptyString)))) pos' s' cs'
                 (λ e _ cs, Some (e, cs)))
          = Some (String.length k + 1 + String.length (String c n) + 1 + 1,
                  [(2, (String.length k + 1,
                        String.length k + 1 + String.length (String c n)));
                   (1, (0, 0 + String.length k))])) as Hrest.
  { apply run_Plus_app; [done|done|by rewrite app_cons /= word_not_space|].
    rewrite run_Seq run_Group.
    apply run_Plus_app; [done|done|done|].
    rewrite run_Seq. apply (run_Star_app space " " ("{" +:+ tail)); [done|done|].
    rewrite run_Seq run_Lit_app. cbn [regexp.run lit]. reflexivity. }
  apply elem_of_cons in Hk as [-> | Hk%list_elem_of_singleton].
  - apply run_Alt_left. rewrite run_Lit_app. exact Hrest.
  - subst k. rewrite run_Alt_right; [|by apply run_Lit_mismatch].
    rewrite run_Lit_app. exact Hrest.
Qed.

(** X26. A block whose braces are balanced is read back whole:
    on a text that begins with [type] or [input], a name, an opening brace
    and a body whose own braces are balanced, the first block that
    [extractBlocks] reports has that kind, that name and that body. *)
Theorem extractBlocks_reads_a_balanced_block_whole (k n body rest : string) :
  k ∈ ["type"; "input"] → identifier n → balanced body →
  head (extractBlocks (k +:+ " " +:+ n +:+ " {" +:+ body +:+ "}" +:+ rest))
  = Some {| kind := k; name := n; body := body |}.
Proof.
  intros Hk Hn Hb.
  set (text := k +:+ " " +:+ n +:+ " {" +:+ body +:+ "}" +:+ rest).
  pose proof (run_blockRe k n (body +:+ "}" +:+ rest) Hk Hn) as Hrun.
  assert (matchAt blockRe 0 text
          = Some {| m_start := 0;
                    m_end := String.length k + 1 + String.length n + 1 + 1;
                    m_caps := [(2, (String.length k + 1,
                                    String.length k + 1 + String.length n));
                               (1, (0, 0 + String.length k))] |}) as Hmatch.
  { by rewrite /matchAt /text Hrun. }
  destruct (findAllFrom_first _ _ _ _ Hmatch) as [l Hall].
  rewrite /extractBlocks /FindAll Hall fmap_cons. cbn [head m_end]. f_equal.
  assert (strings.drop (String.length k + 1 + String.length n + 1 + 1) text
          = body +:+ "}" +:+ rest) as ->.
  { rewrite /text.
    replace (k +:+ " " +:+ n +:+ " {" +:+ body +:+ "}" +:+ rest)
      with ((k +:+ " " +:+ n +:+ " {") +:+ body +:+ "}" +:+ rest)
      by (by rewrite !app_assoc_s).
    apply drop_app_s. rewrite !length_app_s /=. lia. }
  rewrite closingBrace_balanced; [|done]. f_equal.
  - rewrite /submatch. cbn [m_caps capSpan Nat.eqb].
    eapply (slice_eq _ EmptyString k); [by rewrite app_empty_l|done|done].
  - rewrite /submatch. cbn [m_caps capSpan Nat.eqb].
    eapply (slice_eq _ (k +:+ " ") n); [by rewrite /text !app_assoc_s| |done].
    rewrite length_app_s /=. lia.
  - eapply (slice_eq _ (k +:+ " " +:+ n +:+ " {") body); [by rewrite /text !app_assoc_s| |done].
    rewrite !length_app_s /=. lia.
Qed.

Lemma extractBlocks_reads_a_balanced_block_whole_witness :
  head (extractBlocks ("input ContactInput {" +:+ nl +:+ "    name: String!" +:+ nl
                       +:+ "}" +:+ nl))
  = Some {| kind := "input"; name := "ContactInput";
            body := nl +:+ "    name: String!" +:+ nl |}.
Proof.
  apply (extractBlocks_reads_a_balanced_block_whole "input" "ContactInput"
           (nl +:+ "    name: String!" +:+ nl) nl).
  - set_solver.
  - by vm_compute.
  - by vm_compute.
Defined.

End BalancedBlocks.

(** ** Lists of arguments and of fields, written and read back *)

Section DeclarationLists.
Import regexp spec schema parser.

Lemma splitArgsLoop_comma_free (d rest current : string) (depth : Z) (parts : list string) :
  allChars (λ c, negb (Ascii.eqb c ",")) d = true →
  splitArgsLoop (d +:+ rest) depth current parts
  = splitArgsLoop rest (depth + bracketsOpened d) (current +:+ d) parts.
Proof.
  revert depth current. induction d as [|ch d IH]; intros depth current Hd.
  { by rewrite app_empty_l app_empty_r /= Z.add_0_r. }
  apply andb_prop in Hd as [Hch Hd]. apply negb_true_iff in Hch.
  rewrite app_cons. cbn [splitArgsLoop bracketsOpened]. rewrite Hch.
  destruct (Ascii.eqb ch "[") eqn:Ho.
  { rewrite IH; [|done]. rewrite app_snoc. f_equal; lia. }
  destruct (Ascii.eqb ch "]") eqn:Hc.
  { rewrite IH; [|done]. rewrite app_snoc. f_equal; lia. }
  rewrite IH; [|done]. rewrite app_snoc. f_equal; lia.
Qed.

Lemma bracketsOpened_app (a b : string) :
  bracketsOpened (a +:+ b) = (bracketsOpened a + bracketsOpened b)%Z.
Proof.
  induction a as [|ch a IH]; [by rewrite app_empty_l|].
  rewrite app_cons. cbn [bracketsOpened]. rewrite IH. lia.
Qed.

Lemma bracketsOpened_none (s : string) :
  allChars notBracket s = true → bracketsOpened s = 0%Z.
Proof.
  induction s as [|ch s IH]; [done|]. intros [Hch Hs]%andb_prop.
  apply andb_prop in Hch as [Ho%negb_true_iff Hc%negb_true_iff].
  cbn [bracketsOpened]. by rewrite Ho Hc IH.
Qed.

Lemma word_notBracket (s : string) : allChars word s = true → allChars notBracket s = true.
Proof. apply allChars_impl. by_ascii_cases. Qed.

Lemma wordOrDot_notBracket (s : string) :
  allChars wordOrDot s = true → allChars notBracket s = true.
Proof. apply allChars_impl. by_ascii_cases. Qed.

Lemma bracketsOpened_declaration (x T : string) (required isList : bool) :
  identifier x → typeName T →
  bracketsOpened (declaration x (canonicalTypeRef required isList T)) = 0%Z.
Proof.
  intros [_ Hx] [_ HT]. rewrite /declaration /canonicalTypeRef.
  pose proof (bracketsOpened_none x (word_notBracket x Hx)) as Hbx.
  pose proof (bracketsOpened_none T (wordOrDot_notBracket T HT)) as HbT.
  destruct isList, required; rewrite !bracketsOpened_app Hbx HbT; done.
Qed.

Lemma TrimSpace_after_blank (line : string) :
  strings.TrimSpace (" " +:+ line) = strings.TrimSpace line.
Proof. by rewrite app_cons app_empty_l. Qed.

Lemma Join_cons (x y : string) (l : list string) (sep : string) :
  strings.Join (x :: y :: l) sep = x +:+ sep +:+ strings.Join (y :: l) sep.
Proof. done. Qed.

Lemma splitArgsLoop_comma_blank (rest current : string) (parts : list string) :
  splitArgsLoop (", " +:+ rest) 0 current parts
  = splitArgsLoop rest 0 " " (parts ++ [current]).
Proof. by rewrite !app_cons app_empty_l. Qed.

Lemma splitArgsLoop_arguments (a : Arg) (args : list Arg) (current : string)
    (parts : list string) :
  Forall (λ a, identifier (ArgName a) ∧ typeName (ArgType a)) (a :: args) →
  splitArgsLoop (strings.Join (argText <$> a :: args) ", ") 0 current parts
  = parts ++ [current +:+ argText a] ++ ((λ a, " " +:+ argText a) <$> args).
Proof.
  revert a current parts. induction args as [|b args IH]; intros a current parts Hall.
  - inversion Hall as [|?? [Hx HT] _]; subst.
    destruct (declaration_facts _ _ (ArgRequired a) (ArgIsList a) Hx HT)
      as (Hne & _ & _ & _ & _ & _ & Hcomma & _).
    cbn [fmap list_fmap strings.Join]. rewrite splitArgsLoop_no_comma; [|done].
    rewrite bool_decide_eq_true_2; [done|]. rewrite length_app_s.
    fold (argText a) in Hne. destruct (argText a); [done|simpl; lia].
  - inversion Hall as [|?? [Hx HT] Hrest]; subst.
    destruct (declaration_facts _ _ (ArgRequired a) (ArgIsList a) Hx HT)
      as (_ & _ & _ & _ & _ & _ & Hcomma & _).
    rewrite !fmap_cons Join_cons -!fmap_cons.
    rewrite splitArgsLoop_comma_free; [|done].
    rewrite /argText bracketsOpened_declaration; [|done..]. rewrite -/(argText a).
    rewrite Z.add_0_r splitArgsLoop_comma_blank IH; [|done]. by rewrite -!app_assoc.
Qed.

Lemma parseArgsLoop_arguments (args acc : list Arg) (blank : Arg → string) :
  (∀ a, strings.TrimSpace (blank a) = strings.TrimSpace (argText a)) →
  Forall (λ a, identifier (ArgName a) ∧ typeName (ArgType a)) args →
  parseArgsLoop (blank <$> args) acc = Ok (acc ++ args).
Proof.
  intros Hblank Hall. revert acc. induction Hall as [|a args [Hx HT] _ IH]; intros acc.
  { by rewrite app_nil_r. }
  destruct (declaration_facts _ _ (ArgRequired a) (ArgIsList a) Hx HT)
    as (Hne & Htrim & _ & Hidx & Hname & Htype & _ & _).
  rewrite fmap_cons.
  rewrite (parseArgsLoop_step (blank a) (argText a) _ _ (String.length (ArgName a)));
    [|by rewrite Hblank|done|done].
  rewrite /argText Hname Htype parseTypeStr_canonical; [|done].
  rewrite IH. f_equal. rewrite -app_assoc. by destruct a.
Qed.

(** X27. Arguments written with canonical type references and
    joined by a comma and a blank are read back by [parseArgs] as they
    are: the same names, type names and flags, in the same order. *)
Theorem parseArgs_reads_back_canonical_arguments (args : list Arg) :
  Forall (λ a, identifier (ArgName a) ∧ typeName (ArgType a)) args →
  parseArgs (strings.Join (argText <$> args) ", ") = Ok args.
Proof.
  intros Hall. destruct args as [|a args]; [done|].
  rewrite /parseArgs /splitArgs splitArgsLoop_arguments; [|done].
  rewrite bool_decide_eq_false_2.
  - rewrite app_nil_l app_empty_l.
    change ([argText a] ++ ((λ a0, " " +:+ argText a0) <$> args))
      with (argText a :: ((λ a0, " " +:+ argText a0) <$> args)).
    inversion Hall as [|?? [Hx HT] Hrest]; subst.
    destruct (declaration_facts _ _ (ArgRequired a) (ArgIsList a) Hx HT)
      as (Hne & Htrim & _ & Hidx & Hname & Htype & _ & _).
    rewrite (parseArgsLoop_step (argText a) (argText a) _ _ (String.length (ArgName a)));
      [|done..].
    rewrite /argText Hname Htype parseTypeStr_canonical; [|done].
    rewrite (parseArgsLoop_arguments args _ (λ a0, " " +:+ argText a0));
      [by destruct a|intros a0; apply TrimSpace_after_blank|done].
  - inversion Hall as [|?? [Hx HT] _]; subst.
    intros Hblank%TrimSpace_empty.
    destruct Hx as [Hx Hxw]. destruct (ArgName a) as [|c x] eqn:Hname; [done|].
    apply andb_prop in Hxw as [Hc _].
    apply word_plain in Hc as [Hc _]. apply wordOrDot_plain in Hc as (Hc & _).
    destruct args as [|b args].
    + cbn [fmap list_fmap strings.Join] in Hblank.
      rewrite /argText /declaration Hname app_cons /= Hc in Hblank. done.
    + rewrite !fmap_cons Join_cons in Hblank.
      rewrite /argText /declaration Hname !app_cons /= Hc in Hblank. done.
Qed.

Lemma parseArgs_reads_back_canonical_arguments_witness :
  parseArgs "id: ID!, tags: [String!]!, input: UpdateContactInput"
  = Ok [ {| ArgName := "id"; ArgType := "ID"; ArgRequired := true; ArgIsList := false |};
         {| ArgName := "tags"; ArgType := "String"; ArgRequired := true; ArgIsList := true |};
         {| ArgName := "input"; ArgType := "UpdateContactInput"; ArgRequired := false;
            ArgIsList := false |} ].
Proof.
  apply (parseArgs_reads_back_canonical_arguments
           [ {| ArgName := "id"; ArgType := "ID"; ArgRequired := true; ArgIsList := false |};
             {| ArgName := "tags"; ArgType := "String"; ArgRequired := true;
                ArgIsList := true |};
             {| ArgName := "input"; ArgType := "UpdateContactInput"; ArgRequired := false;
                ArgIsList := false |} ]).
  repeat constructor; by vm_compute.
Defined.

Lemma SplitChar_Join (text : string) (texts : list string) :
  Forall (λ t, allChars (λ c, negb (Ascii.eqb c "010")) t = true) (text :: texts) →
  strings.SplitChar (strings.Join (text :: texts) nl) "010" = text :: texts.
Proof.
  revert text. induction texts as [|u texts IH]; intros text Hall.
  - inversion Hall; subst. cbn [strings.Join]. by apply SplitChar_none.
  - inversion Hall as [|?? Ht Hrest]; subst.
    rewrite Join_cons /nl app_cons app_empty_l SplitChar_lines.
    rewrite (SplitChar_none text); [|done]. fold nl. by rewrite IH.
Qed.

Lemma parseFieldsLoop_fields (fields acc : list Field) :
  Forall (λ f, identifier (FieldName f) ∧ typeName (FieldType f)) fields →
  parseFieldsLoop (fieldText <$> fields) acc = acc ++ fields.
Proof.
  intros Hall. revert acc. induction Hall as [|f fields [Hx HT] _ IH]; intros acc.
  { by rewrite app_nil_r. }
  destruct (declaration_facts _ _ (FieldRequired f) (FieldIsList f) Hx HT)
    as (Hne & Htrim & Hhash & Hidx & Hname & Htype & _ & _).
  rewrite fmap_cons.
  rewrite (parseFieldsLoop_step (fieldText f) (fieldText f) _ _ (String.length (FieldName f)));
    [|done..].
  rewrite /fieldText Hname Htype parseTypeStr_canonical; [|done].
  rewrite IH -app_assoc. by destruct f.
Qed.

(** X28. Fields written one to a line with canonical type
    references are read back by [parseFields] as they are: the same names,
    type names and flags, in the same order. *)
Theorem parseFields_reads_back_canonical_fields (fields : list Field) :
  Forall (λ f, identifier (FieldName f) ∧ typeName (FieldType f)) fields →
  parseFields (strings.Join (fieldText <$> fields) nl) = Ok fields.
Proof.
  intros Hall. rewrite /parseFields. f_equal. destruct fields as [|f fields]; [done|].
  rewrite fmap_cons SplitChar_Join.
  - rewrite -fmap_cons. by rewrite parseFieldsLoop_fields.
  - rewrite -fmap_cons. apply Forall_fmap. eapply Forall_impl; [exact Hall|].
    intros g [Hx HT]. cbn.
    by destruct (declaration_facts _ _ (FieldRequired g) (FieldIsList g) Hx HT)
      as (_ & _ & _ & _ & _ & _ & _ & Hnl).
Qed.

Lemma parseFields_reads_back_canonical_fields_witness :
  parseFields ("id: ID!" +:+ nl +:+ "tags: [String!]!" +:+ nl +:+ "owner: geo.Location")
  = Ok [ {| FieldName := "id"; FieldType := "ID"; FieldRequired := true;
            FieldIsList := false |};
         {| FieldName := "tags"; FieldType := "String"; FieldRequired := true;
            FieldIsList := true |};
         {| FieldName := "owner"; FieldType := "geo.Location"; FieldRequired := false;
            FieldIsList := false |} ].
Proof.
  apply (parseFields_reads_back_canonical_fields
           [ {| FieldName := "id"; FieldType := "ID"; FieldRequired := true;
                FieldIsList := false |};
             {| FieldName := "tags"; FieldType := "String"; FieldRequired := true;
                FieldIsList := true |};
             {| FieldName := "owner"; FieldType := "geo.Location"; FieldRequired := false;
                FieldIsList := false |} ]).
  repeat constructor; by vm_compute.
Defined.

End DeclarationLists.
